(** * CorChess core infrastructure: NUMA node registry, transposition table,
      time manager.

    A shallow embedding of [src/src/numasf.cpp] (with [numasf.h]),
    of the transposition table [tt.cpp] and of [src/src/timeman.cpp], and the
    properties the specification states about them.

    Conventions:
    - C++ integers are [Z] with the wrap-around of their width written out
      ([Cint.to_size_t], [Cint.to_int], [Cint.to_uint8]);
    - a pointer into a vector or into the table is the index it points at;
    - what the operating system answers (libnuma, sysfs, the allocator, the
      file system) is an explicit argument of the function that asks. *)

From Stdlib Require Import ZArith Lia Bool String.
From Stdlib Require Floats Uint63.
From Stdlib Require Reals Lra.
From stdpp Require Import base numbers list gmap strings.

Set Warnings "-inexact-float".

#[local] Open Scope Z_scope.

(** ** Machine integers *)

Module Cint.

(** Value of [z] stored in an unsigned integer of [w] bits. *)
Definition wrap (w z : Z) : Z := z mod 2 ^ w.

(** Value of [z] stored in a signed (two's complement) integer of [w] bits. *)
Definition swrap (w z : Z) : Z := (z + 2 ^ (w - 1)) mod 2 ^ w - 2 ^ (w - 1).

Definition to_size_t : Z -> Z := wrap 64.
Definition to_uint8 : Z -> Z := wrap 8.
Definition to_int : Z -> Z := swrap 32.
Definition to_int64 : Z -> Z := swrap 64.

Definition INT_MAX : Z := 2 ^ 31 - 1.
Definition INT_MIN : Z := - 2 ^ 31.

(** C++ integer division truncates towards zero: [Z.quot]. *)
Definition cdiv (a b : Z) : Z := Z.quot a b.

Lemma wrap_range w z : 0 < w -> 0 <= wrap w z < 2 ^ w.
Proof. intros Hw. unfold wrap. apply Z.mod_pos_bound. apply Z.pow_pos_nonneg; lia. Qed.

Lemma wrap_small w z : 0 <= z < 2 ^ w -> wrap w z = z.
Proof. intros H. unfold wrap. apply Z.mod_small. exact H. Qed.

Lemma swrap_small w z : 0 < w -> - 2 ^ (w - 1) <= z < 2 ^ (w - 1) -> swrap w z = z.
Proof.
  intros Hw H. unfold swrap.
  assert (E : 2 ^ w = 2 * 2 ^ (w - 1)).
  { replace w with (Z.succ (w - 1)) at 1 by lia. apply Z.pow_succ_r. lia. }
  rewrite Z.mod_small by lia. lia.
Qed.

Lemma to_size_t_range z : 0 <= to_size_t z < 2 ^ 64.
Proof. apply wrap_range. lia. Qed.

Lemma to_size_t_small z : 0 <= z < 2 ^ 64 -> to_size_t z = z.
Proof. apply wrap_small. Qed.

Lemma to_int_small z : - 2 ^ 31 <= z < 2 ^ 31 -> to_int z = z.
Proof. intros H. apply swrap_small; [lia | exact H]. Qed.

Lemma to_int_range z : INT_MIN <= to_int z <= INT_MAX.
Proof.
  unfold to_int, swrap, INT_MIN, INT_MAX.
  pose proof (Z.mod_pos_bound (z + 2 ^ (32 - 1)) (2 ^ 32) ltac:(lia)) as H.
  change (2 ^ (32 - 1)) with 2147483648 in *. change (2 ^ 32) with 4294967296 in *.
  change (2 ^ 31) with 2147483648. lia.
Qed.

(** Converting to [size_t] and back to [int] only keeps the low 32 bits. *)
Lemma to_int_to_size_t z : to_int (to_size_t z) = to_int z.
Proof.
  unfold to_int, to_size_t, swrap, wrap. f_equal.
  rewrite (Z.mod_eq z (2 ^ 64)) by lia.
  replace (z - 2 ^ 64 * (z / 2 ^ 64) + 2 ^ (32 - 1))
    with (z + 2 ^ (32 - 1) + (- 2 ^ 32 * (z / 2 ^ 64)) * 2 ^ 32) by lia.
  apply Z.mod_add. lia.
Qed.

(** Converting to [int64_t] and back to [size_t] loses nothing. *)
Lemma to_size_t_to_int64 z : to_size_t (to_int64 z) = to_size_t z.
Proof.
  unfold to_size_t, to_int64, wrap, swrap.
  change (2 ^ (64 - 1)) with 9223372036854775808. change (2 ^ 64) with 18446744073709551616.
  rewrite (Z.mod_eq (z + 9223372036854775808)) by lia.
  replace (z + 9223372036854775808
           - 18446744073709551616 * ((z + 9223372036854775808) / 18446744073709551616)
           - 9223372036854775808)
    with (z + (- ((z + 9223372036854775808) / 18446744073709551616)) * 18446744073709551616)
    by lia.
  apply Z.mod_add. lia.
Qed.

End Cint.

(** ** Node registry ([numasf.h], [numasf.cpp], the Linux build) *)

Module Numa.

(** libnuma's [struct bitmask]: a number of bits and the bits. *)
Record bitmask : Type := Bitmask { bm_size : Z; bm_bits : Z }.

(** [numa_allocate_cpumask()]: a cleared mask of as many bits as the kernel
    has possible cpus. *)
Definition numa_allocate_cpumask (ncpus : Z) : bitmask :=
  {| bm_size := ncpus; bm_bits := 0 |}.

(** [numa_bitmask_setall(bmp)]. *)
Definition numa_bitmask_setall (b : bitmask) : bitmask :=
  {| bm_size := bm_size b; bm_bits := Z.ones (bm_size b) |}.

(** [numa_bitmask_isbitset(bmp, i)]: false beyond the mask's size. *)
Definition numa_bitmask_isbitset (b : bitmask) (i : Z) : bool :=
  (0 <=? i) && (i <? bm_size b) && Z.testbit (bm_bits b) i.

(** [class NumaNode]; [cmhTable] is the address of the per-node history
    table, [0] for [nullptr]. *)
Record NumaNode : Type := MkNumaNode {
  cmhTable : Z;
  nodeNumber : Z;
  coreCount : Z;
  cpuBitset : bitmask
}.

(** [NumaNode(int _nodeNumber, bitmask* _cpuBitset)]. *)
Definition NumaNode_new (_nodeNumber : Z) (_cpuBitset : bitmask) : NumaNode :=
  {| cmhTable := 0; nodeNumber := _nodeNumber; coreCount := 0;
     cpuBitset := _cpuBitset |}.

(** [NumaNode(const NumaNode &source)], which [push_back] runs: the history
    table is not copied, the mask is copied bit by bit. *)
Definition NumaNode_copy (source : NumaNode) : NumaNode :=
  {| cmhTable := 0; nodeNumber := nodeNumber source;
     coreCount := coreCount source;
     cpuBitset := {| bm_size := bm_size (cpuBitset source);
                     bm_bits := bm_bits (cpuBitset source) |} |}.

(** [class NumaState]: the node vector and the total number of cores. *)
Record NumaState : Type := MkNumaState {
  nodeVector : list NumaNode;
  totalCoreCount : Z        (* the member [NumaState::coreCount] *)
}.

(** What reading [/sys/devices/system/cpu/cpuI/topology/thread_siblings_list]
    gives the constructor. *)
Inductive siblings_list : Type :=
| SiblingsUnreadable        (* the file does not open, or has no complete line *)
| SiblingsFirst (n : Z)     (* [std::stoi] of the text before the first ',' or '-' *)
| SiblingsStoiThrows.       (* [std::stoi] throws: the text is not a number *)

(** A directory [cpuI], [I > 0], whose [online] file opens. *)
Record cpu_dir : Type := MkCpuDir {
  online_is_1 : bool;       (* the file has a complete first line, and it is "1" *)
  siblings : siblings_list
}.

(** The answers of libnuma and of sysfs. [cpu_dirs] lists [cpu1], [cpu2], ...
    up to the first directory whose [online] file does not open, where the
    constructor's loop stops. *)
Record LinuxSys : Type := MkLinuxSys {
  numa_available : Z;
  numa_max_node : Z;
  numa_node_to_cpus : Z -> option Z;   (* [None]: the call returns non-zero *)
  ncpus : Z;
  cpu0_siblings : siblings_list;
  cpu_dirs : list cpu_dir
}.

(** The first loop of the constructor: one node per [N <= numa_max_node()]
    whose cpu mask libnuma can read. *)
Definition add_node (sys : LinuxSys) (nodes : list NumaNode) (N : Z) : list NumaNode :=
  match numa_node_to_cpus sys N with
  | None => nodes
  | Some bits =>
      nodes ++ [NumaNode_copy (NumaNode_new N {| bm_size := ncpus sys; bm_bits := bits |})]
  end.

Definition get_nodes (sys : LinuxSys) : list NumaNode :=
  foldl (add_node sys) [] (seqZ 0 (numa_max_node sys + 1)).

(** The innermost loop: the first node whose mask holds cpu [i] gets one more
    core; [None] when no node holds it. *)
Fixpoint add_core (i : Z) (nodes : list NumaNode) : option (list NumaNode) :=
  match nodes with
  | [] => None
  | node :: rest =>
      if numa_bitmask_isbitset (cpuBitset node) i
      then Some ({| cmhTable := cmhTable node; nodeNumber := nodeNumber node;
                    coreCount := Cint.to_size_t (coreCount node + 1);
                    cpuBitset := cpuBitset node |} :: rest)
      else option_map (cons node) (add_core i rest)
  end.

(** The body of the cpu loop from the point where [thread_siblings_list] is
    read; [None] is the exception [std::stoi] throws. *)
Definition count_cpu (i : Z) (s : siblings_list) (st : NumaState) : option NumaState :=
  match s with
  | SiblingsUnreadable => Some st
  | SiblingsStoiThrows => None
  | SiblingsFirst n =>
      if n =? i then
        match add_core i (nodeVector st) with
        | Some nodes =>
            Some {| nodeVector := nodes;
                    totalCoreCount := Cint.to_size_t (totalCoreCount st + 1) |}
        | None => Some st
        end
      else Some st
  end.

(** The cpu loop over [cpu1], [cpu2], ...: a cpu that is not online is
    skipped. *)
Fixpoint count_cpus (i : Z) (dirs : list cpu_dir) (st : NumaState) : option NumaState :=
  match dirs with
  | [] => Some st
  | d :: rest =>
      if online_is_1 d then
        match count_cpu i (siblings d) st with
        | Some st' => count_cpus (i + 1) rest st'
        | None => None
        end
      else count_cpus (i + 1) rest st
  end.

(** Topology discovery: the constructor up to its two closing tests. *)
Definition discover (sys : LinuxSys) : option NumaState :=
  let st := {| nodeVector := []; totalCoreCount := 0 |} in
  if negb (numa_available sys =? -1) then
    let st := {| nodeVector := get_nodes sys; totalCoreCount := 0 |} in
    match count_cpu 0 (cpu0_siblings sys) st with
    | Some st' => count_cpus 1 (cpu_dirs sys) st'
    | None => None
    end
  else Some st.

(** The dummy node of the fallback. *)
Definition dummy_node (sys : LinuxSys) : NumaNode :=
  NumaNode_copy (NumaNode_new (-1) (numa_bitmask_setall (numa_allocate_cpumask (ncpus sys)))).

(** The two closing tests of the constructor. *)
Definition fallback (sys : LinuxSys) (st : NumaState) : NumaState :=
  let st :=
    if totalCoreCount st =? 0
    then {| nodeVector := []; totalCoreCount := 1 |}
    else st in
  if Z.of_nat (length (nodeVector st)) =? 0
  then {| nodeVector := nodeVector st ++ [dummy_node sys];
          totalCoreCount := totalCoreCount st |}
  else st.

(** [NumaState::NumaState()]. *)
Definition NumaState_new (sys : LinuxSys) : option NumaState :=
  option_map (fallback sys) (discover sys).

(** The loop of [nodeForThread]: [n] is the index of the first node of
    [nodes] in the vector, [i] the running [int]. [None] when the loop runs
    off the end of the vector. *)
Fixpoint walk (nodes : list NumaNode) (n : nat) (i : Z) : option nat :=
  match nodes with
  | [] => None
  | node :: rest =>
      (* i -= nodeVector[n].coreCount, computed in size_t and stored in an int *)
      let i' := Cint.to_int (Cint.to_size_t (Cint.to_size_t i - coreCount node)) in
      if i' <? 0 then Some n else walk rest (S n) i'
  end.

(** [NumaState::nodeForThread(threadIdx)]; the result is the index of the
    node pointed at. The constructor guarantees what the function relies on:
    a non-empty vector and a non-zero total. *)
Definition nodeForThread (st : NumaState) (threadIdx : Z) : nat :=
  if Z.of_nat (length (nodeVector st)) =? 1 then 0%nat
  else
    let i := Cint.to_int (threadIdx mod totalCoreCount st) in
    match walk (nodeVector st) 0 i with
    | Some n => n
    | None => 0%nat          (* "it is not expected to get here" *)
    end.

(** The specification's reading of the mapping: node [n] owns the positions
    from the sum of the earlier nodes' core counts up to that sum plus its own
    count. *)
Definition cores (nodes : list NumaNode) : Z :=
  foldr Z.add 0 (coreCount <$> nodes).

Definition segment_start (nodes : list NumaNode) (n : nat) : Z :=
  cores (take n nodes).

Definition in_segment (nodes : list NumaNode) (n : nat) (p : Z) : Prop :=
  exists node, nodes !! n = Some node /\
    segment_start nodes n <= p < segment_start nodes n + coreCount node.

(** A registry as discovery builds it when it finds cores: the total is the
    sum of the nodes' counts, and it fits the [int] of [nodeForThread]. *)
Definition counted (st : NumaState) : Prop :=
  totalCoreCount st = cores (nodeVector st) /\
  0 < totalCoreCount st <= Cint.INT_MAX /\
  Forall (fun node => 0 <= coreCount node) (nodeVector st).

(** Two registries with the same core counts; they may differ in the
    lazily created history tables. *)
Definition same_topology (st1 st2 : NumaState) : Prop :=
  totalCoreCount st1 = totalCoreCount st2 /\
  coreCount <$> nodeVector st1 = coreCount <$> nodeVector st2.

(** No [thread_siblings_list] makes [std::stoi] throw. *)
Definition stoi_safe (sys : LinuxSys) : Prop :=
  cpu0_siblings sys <> SiblingsStoiThrows /\
  Forall (fun d => siblings d <> SiblingsStoiThrows) (cpu_dirs sys).

(** The registry of the specification's scenario: two nodes of four cores. *)
Definition node_of (N cores_N : Z) : NumaNode :=
  {| cmhTable := 0; nodeNumber := N; coreCount := cores_N;
     cpuBitset := {| bm_size := 8; bm_bits := Z.shiftl (Z.ones 4) (4 * N) |} |}.

Definition registry_4_4 : NumaState :=
  {| nodeVector := [node_of 0 4; node_of 1 4]; totalCoreCount := 8 |}.

(** A machine with two nodes of two cores with two hardware threads each,
    cpus [i] and [i + 4] sharing a core. *)
Definition sys_2x2 : LinuxSys :=
  {| numa_available := 0;
     numa_max_node := 1;
     numa_node_to_cpus := fun N =>
       if N =? 0 then Some 51 else if N =? 1 then Some 204 else None;
     ncpus := 8;
     cpu0_siblings := SiblingsFirst 0;
     cpu_dirs := (fun n => MkCpuDir true (SiblingsFirst n)) <$> [1; 2; 3; 0; 1; 2; 3] |}.

(** A machine on which libnuma is not available. *)
Definition sys_no_numa : LinuxSys :=
  {| numa_available := -1; numa_max_node := 0;
     numa_node_to_cpus := fun _ => None; ncpus := 4;
     cpu0_siblings := SiblingsUnreadable; cpu_dirs := [] |}.

(** A registry as discovery leaves it after [k] cpus: the total is the sum
    of the nodes' counts and at most [k]. *)
Definition tallied (k : Z) (st : NumaState) : Prop :=
  totalCoreCount st = cores (nodeVector st) /\
  Forall (fun node => 0 <= coreCount node) (nodeVector st) /\
  0 <= totalCoreCount st <= k.

(** What [bindThread] asks of libnuma. *)
Inductive numa_call : Type :=
| Numa_sched_setaffinity (pid : Z) (mask : bitmask)
| Numa_set_preferred (node : Z).

(** [NumaState::bindThread(numaNode)], the Linux build: the calls it makes. *)
Definition bindThread (numaNode : NumaNode) : list numa_call :=
  if nodeNumber numaNode =? -1 then []
  else [Numa_sched_setaffinity 0 (cpuBitset numaNode);
        Numa_set_preferred (nodeNumber numaNode)].

Definition set_cmhTable (p : Z) (node : NumaNode) : NumaNode :=
  {| cmhTable := p; nodeNumber := nodeNumber node; coreCount := coreCount node;
     cpuBitset := cpuBitset node |}.

(** [NumaState::getCmhTable(node)], [node] pointing at the node of index
    [n]: the table returned and the registry. [fresh] is the address [new]
    answers if the table has to be created. [None] when [n] is no index of
    the vector, where the source would read through a stray pointer. *)
Definition getCmhTable (fresh : Z) (st : NumaState) (n : nat) : option (Z * NumaState) :=
  match nodeVector st !! n with
  | None => None
  | Some node =>
      if cmhTable node =? 0
      then Some (fresh, {| nodeVector := <[n := set_cmhTable fresh node]> (nodeVector st);
                           totalCoreCount := totalCoreCount st |})
      else Some (cmhTable node, st)
  end.

(** *** Discovery and the fallback *)

Lemma add_core_length i nodes nodes' :
  add_core i nodes = Some nodes' -> length nodes' = length nodes.
Proof.
  revert nodes'. induction nodes as [|node rest IH]; intros nodes' H; simpl in H.
  - discriminate.
  - destruct (numa_bitmask_isbitset (cpuBitset node) i).
    + inversion H; subst. reflexivity.
    + destruct (add_core i rest) as [r|] eqn:E; simpl in H; [|discriminate].
      inversion H; subst. simpl. f_equal. apply IH. reflexivity.
Qed.

Lemma count_cpu_nonneg i s st st' :
  count_cpu i s st = Some st' -> 0 <= totalCoreCount st -> 0 <= totalCoreCount st'.
Proof.
  intros H Hst. destruct s as [|n|]; simpl in H.
  - inversion H; subst. exact Hst.
  - destruct (n =? i).
    + destruct (add_core i (nodeVector st)); inversion H; subst; simpl.
      * apply Cint.to_size_t_range.
      * exact Hst.
    + inversion H; subst. exact Hst.
  - discriminate.
Qed.

Lemma count_cpus_nonneg dirs : forall i st st',
  count_cpus i dirs st = Some st' -> 0 <= totalCoreCount st -> 0 <= totalCoreCount st'.
Proof.
  induction dirs as [|d rest IH]; intros i st st' H Hst; simpl in H.
  - inversion H; subst. exact Hst.
  - destruct (online_is_1 d).
    + destruct (count_cpu i (siblings d) st) as [st1|] eqn:E; [|discriminate].
      apply (IH _ _ _ H). apply (count_cpu_nonneg _ _ _ _ E Hst).
    + apply (IH _ _ _ H Hst).
Qed.

Lemma discover_nonneg sys d : discover sys = Some d -> 0 <= totalCoreCount d.
Proof.
  unfold discover. destruct (negb (numa_available sys =? -1)).
  - destruct (count_cpu 0 _ _) as [st1|] eqn:E; [|discriminate].
    intros H. apply (count_cpus_nonneg _ _ _ _ H).
    apply (count_cpu_nonneg _ _ _ _ E). simpl. lia.
  - intros H. inversion H; subst. simpl. lia.
Qed.

Lemma count_cpu_returns i s st :
  s <> SiblingsStoiThrows -> is_Some (count_cpu i s st).
Proof.
  intros Hs. destruct s as [|n|]; simpl; [eauto| |congruence].
  destruct (n =? i); [|eauto]. destruct (add_core i (nodeVector st)); eauto.
Qed.

Lemma count_cpus_returns dirs : forall i st,
  Forall (fun d => siblings d <> SiblingsStoiThrows) dirs ->
  is_Some (count_cpus i dirs st).
Proof.
  induction dirs as [|d rest IH]; intros i st Hd; simpl; [eauto|].
  inversion Hd as [|? ? Hd1 Hd2]; subst.
  destruct (online_is_1 d); [|apply IH; exact Hd2].
  destruct (count_cpu_returns i (siblings d) st Hd1) as [st1 ->].
  apply IH; exact Hd2.
Qed.

Lemma discover_returns sys : stoi_safe sys -> is_Some (discover sys).
Proof.
  intros [H0 Hd]. unfold discover. destruct (negb (numa_available sys =? -1)); [|eauto].
  destruct (count_cpu_returns 0 (cpu0_siblings sys)
              {| nodeVector := get_nodes sys; totalCoreCount := 0 |} H0) as [st1 ->].
  apply count_cpus_returns; exact Hd.
Qed.

Lemma fallback_zero sys d :
  totalCoreCount d = 0 ->
  fallback sys d = {| nodeVector := [dummy_node sys]; totalCoreCount := 1 |}.
Proof. intros H. unfold fallback. rewrite H. reflexivity. Qed.

Lemma fallback_invariant sys d :
  0 <= totalCoreCount d ->
  nodeVector (fallback sys d) <> [] /\ 1 <= totalCoreCount (fallback sys d).
Proof.
  destruct d as [nodes total]. simpl. intros Hd. unfold fallback. simpl.
  destruct (total =? 0) eqn:E; simpl.
  - split; [discriminate | lia].
  - apply Z.eqb_neq in E.
    destruct nodes as [|node rest]; simpl.
    + split; [discriminate | lia].
    + split; [discriminate | lia].
Qed.

Lemma dummy_node_full sys i :
  0 <= i < ncpus sys -> numa_bitmask_isbitset (cpuBitset (dummy_node sys)) i = true.
Proof.
  intros Hi. unfold numa_bitmask_isbitset. simpl.
  rewrite Z.ones_spec_low by lia.
  destruct (Z.leb_spec 0 i); [|lia]. destruct (Z.ltb_spec i (ncpus sys)); [|lia].
  reflexivity.
Qed.

(** *** The segment walk *)

Lemma cores_cons node rest : cores (node :: rest) = coreCount node + cores rest.
Proof. reflexivity. Qed.

Lemma cores_nonneg nodes :
  Forall (fun node => 0 <= coreCount node) nodes -> 0 <= cores nodes.
Proof.
  induction 1 as [|node rest Hn _ IH]; [reflexivity|].
  rewrite cores_cons. lia.
Qed.

(** One step of the loop: with no wrap-around in sight, the subtraction done
    in [size_t] and stored in an [int] is the subtraction. *)
Lemma walk_step i c :
  0 <= i <= Cint.INT_MAX -> 0 <= c <= Cint.INT_MAX ->
  Cint.to_int (Cint.to_size_t (Cint.to_size_t i - c)) = i - c.
Proof.
  unfold Cint.INT_MAX. intros Hi Hc.
  rewrite Cint.to_int_to_size_t, Cint.to_size_t_small by lia.
  apply Cint.to_int_small. lia.
Qed.

Lemma walk_found nodes : forall n i,
  Forall (fun node => 0 <= coreCount node) nodes ->
  cores nodes <= Cint.INT_MAX -> 0 <= i < cores nodes ->
  exists k node,
    walk nodes n i = Some (n + k)%nat /\ nodes !! k = Some node /\
    cores (take k nodes) <= i < cores (take k nodes) + coreCount node.
Proof.
  induction nodes as [|node rest IH]; intros n i Hall Hsum Hi.
  - change (cores []) with 0 in Hi. lia.
  - inversion Hall as [|? ? Hc Hrest]; subst.
    rewrite cores_cons in Hsum, Hi.
    pose proof (cores_nonneg rest Hrest) as Hr.
    simpl walk. rewrite walk_step by lia.
    destruct (Z.ltb_spec (i - coreCount node) 0) as [Hlt|Hge].
    + exists 0%nat, node. rewrite Nat.add_0_r. simpl.
      change (cores []) with 0. repeat split; try reflexivity; lia.
    + destruct (IH (S n) (i - coreCount node) Hrest) as (k & nd & Hw & Hk & Hseg);
        [lia | lia |].
      exists (S k), nd. rewrite Nat.add_succ_r. simpl.
      rewrite cores_cons. repeat split; try assumption; lia.
Qed.

(** [walk] and [nodeForThread] read nothing of a node but its core count. *)
Lemma walk_same_counts nodes1 : forall nodes2 n i,
  coreCount <$> nodes1 = coreCount <$> nodes2 ->
  walk nodes1 n i = walk nodes2 n i.
Proof.
  induction nodes1 as [|a r1 IH]; intros [|b r2] n i H; simpl in H;
    try discriminate; [reflexivity|].
  inversion H as [[Hab Hr]]. simpl. rewrite Hab.
  destruct (_ <? 0); [reflexivity|]. apply IH. exact Hr.
Qed.

(** C5. [nodeForThread] depends on the registry's core counts and the thread
    index only, so a fixed registry gives a fixed answer; on a registry whose
    total is the sum of its nodes' counts the answer is the node whose
    segment holds [threadIdx mod total], segments being laid out in registry
    order; with two nodes of four cores indices 0..3 go to node 0, 4..7 to
    node 1 and 9 to node 0; a registry of one node answers that node for
    every total and every index. *)
Theorem nodeForThread_segment_walk :
  (forall st1 st2 threadIdx,
      same_topology st1 st2 ->
      nodeForThread st1 threadIdx = nodeForThread st2 threadIdx) /\
  (forall st threadIdx,
      counted st -> 0 <= threadIdx ->
      in_segment (nodeVector st) (nodeForThread st threadIdx)
                 (threadIdx mod totalCoreCount st)) /\
  (nodeForThread registry_4_4 <$> [0; 1; 2; 3; 4; 5; 6; 7; 9]
     = [0; 0; 0; 0; 1; 1; 1; 1; 0]%nat) /\
  (forall node total threadIdx,
      nodeForThread {| nodeVector := [node]; totalCoreCount := total |} threadIdx
        = 0%nat).
Proof.
  split; [|split; [|split]].
  - intros st1 st2 idx [Ht Hc]. unfold nodeForThread.
    assert (Hlen : length (nodeVector st1) = length (nodeVector st2)).
    { rewrite <- (length_fmap coreCount (nodeVector st1)), Hc. apply length_fmap. }
    rewrite Hlen, Ht, (walk_same_counts _ _ 0%nat _ Hc). reflexivity.
  - intros [nodes total] idx (Htot & Hpos & Hall) Hidx. simpl in *.
    assert (Hp : 0 <= idx mod total < total) by (apply Z.mod_pos_bound; lia).
    unfold nodeForThread, in_segment, segment_start. simpl.
    destruct (Z.eqb_spec (Z.of_nat (length nodes)) 1) as [Hone|Hmany].
    + destruct nodes as [|node [|? ?]]; simpl in Hone; try lia.
      exists node. simpl. change (cores []) with 0.
      rewrite cores_cons in Htot. change (cores []) with 0 in Htot.
      split; [reflexivity | lia].
    + rewrite Cint.to_int_small by (unfold Cint.INT_MAX in Hpos; lia).
      destruct (walk_found nodes 0%nat (idx mod total) Hall) as (k & nd & Hw & Hk & Hseg);
        [lia | lia |].
      rewrite Hw. simpl. exists nd. split; assumption.
  - vm_compute. reflexivity.
  - intros node total idx. reflexivity.
Qed.

(** C6. The constructor returns whenever no siblings file makes [std::stoi]
    throw, and what it returns has a non-empty node vector and a total core
    count of at least one; when discovery counted no core the vector is
    exactly the dummy node, whose number is -1 and whose mask holds every
    cpu, and the total is 1. *)
Theorem NumaState_new_invariant (sys : LinuxSys) :
  (stoi_safe sys -> is_Some (NumaState_new sys)) /\
  (forall st, NumaState_new sys = Some st ->
     nodeVector st <> [] /\ 1 <= totalCoreCount st /\
     (forall d, discover sys = Some d -> totalCoreCount d = 0 ->
        nodeVector st = [dummy_node sys] /\ totalCoreCount st = 1)) /\
  nodeNumber (dummy_node sys) = -1 /\
  (forall i, 0 <= i < ncpus sys ->
     numa_bitmask_isbitset (cpuBitset (dummy_node sys)) i = true).
Proof.
  split; [|split; [|split]].
  - intros Hs. unfold NumaState_new.
    destruct (discover_returns sys Hs) as [d ->]. simpl. eauto.
  - intros st. unfold NumaState_new.
    destruct (discover sys) as [d|] eqn:Ed; simpl; [|discriminate].
    intros H. inversion H as [Hst]. clear H.
    pose proof (discover_nonneg sys d Ed) as Hd.
    destruct (fallback_invariant sys d Hd) as [Hne Hone].
    split; [exact Hne|]. split; [exact Hone|].
    intros d' Hd' Hz. inversion Hd'; subst d'.
    rewrite (fallback_zero sys d Hz). split; reflexivity.
  - reflexivity.
  - apply dummy_node_full.
Qed.

(** The fallback on two machines: discovery that finds four cores on two
    nodes is kept as it is; without libnuma the registry is the dummy node. *)
(** On the registry of two nodes of four cores, index 9 lands in the
    segment of the node it is given. *)
Lemma nodeForThread_segment_walk_index_9 :
  in_segment (nodeVector registry_4_4) (nodeForThread registry_4_4 9)
             (9 mod totalCoreCount registry_4_4).
Proof.
  apply (proj1 (proj2 nodeForThread_segment_walk) registry_4_4 9).
  - split; [reflexivity|]. split; [unfold Cint.INT_MAX; simpl; lia|].
    repeat constructor; simpl; lia.
  - lia.
Defined.

(** Where libnuma is not available the constructor answers the dummy node
    alone. *)
Lemma NumaState_new_invariant_no_numa :
  exists st, NumaState_new sys_no_numa = Some st /\
    nodeVector st = [dummy_node sys_no_numa] /\ totalCoreCount st = 1.
Proof.
  destruct (NumaState_new_invariant sys_no_numa) as (Hret & Hinv & _).
  destruct Hret as [st Hst]; [split; [discriminate | constructor]|].
  exists st. split; [exact Hst|].
  destruct (Hinv st Hst) as (_ & _ & Hzero).
  eapply Hzero; reflexivity.
Defined.

Example NumaState_new_2x2 :
  (fun st => (coreCount <$> nodeVector st, totalCoreCount st)) <$> NumaState_new sys_2x2
    = Some ([2; 2], 4).
Proof. vm_compute. reflexivity. Qed.

Example NumaState_new_no_numa :
  NumaState_new sys_no_numa
    = Some {| nodeVector := [dummy_node sys_no_numa]; totalCoreCount := 1 |}.
Proof. vm_compute. reflexivity. Qed.

(** *** The registry the constructor builds *)

Lemma cores_app l k : cores (l ++ k) = cores l + cores k.
Proof.
  induction l as [|node rest IH]; [reflexivity|].
  change ((node :: rest) ++ k) with (node :: (rest ++ k)). rewrite !cores_cons, IH. lia.
Qed.

Lemma foldl_add_node sys (P : NumaNode -> Prop) Ns : forall acc,
  (forall N bits, N ∈ Ns ->
     P (NumaNode_copy (NumaNode_new N {| bm_size := ncpus sys; bm_bits := bits |}))) ->
  Forall P acc -> Forall P (foldl (add_node sys) acc Ns).
Proof.
  induction Ns as [|N rest IH]; intros acc HP Hacc; [exact Hacc|].
  simpl. apply IH; [intros; apply HP, elem_of_cons; right; assumption|].
  unfold add_node. destruct (numa_node_to_cpus sys N) as [bits|]; [|exact Hacc].
  apply Forall_app. split; [exact Hacc|]. constructor; [|constructor].
  apply HP, elem_of_cons. left. reflexivity.
Qed.

Lemma get_nodes_fresh sys :
  Forall (fun node => coreCount node = 0 /\ 0 <= nodeNumber node <= numa_max_node sys)
         (get_nodes sys).
Proof.
  unfold get_nodes. apply foldl_add_node; [|constructor].
  intros N bits HN. apply elem_of_seqZ in HN. simpl. lia.
Qed.

Lemma cores_fresh nodes : Forall (fun node => coreCount node = 0) nodes -> cores nodes = 0.
Proof.
  induction 1 as [|node rest Hc _ IH]; [reflexivity|]. rewrite cores_cons, Hc, IH. reflexivity.
Qed.

Lemma add_core_tally i nodes : forall nodes',
  add_core i nodes = Some nodes' ->
  Forall (fun node => 0 <= coreCount node) nodes -> cores nodes + 1 < 2 ^ 64 ->
  Forall (fun node => 0 <= coreCount node) nodes' /\
  cores nodes' = cores nodes + 1 /\
  nodeNumber <$> nodes' = nodeNumber <$> nodes /\
  cpuBitset <$> nodes' = cpuBitset <$> nodes.
Proof.
  induction nodes as [|node rest IH]; intros nodes' H Hall Hsum; simpl in H; [discriminate|].
  inversion Hall as [|? ? Hc Hrest]; subst.
  pose proof (cores_nonneg rest Hrest) as Hr. rewrite cores_cons in Hsum.
  destruct (numa_bitmask_isbitset (cpuBitset node) i).
  - inversion H; subst. rewrite Cint.to_size_t_small by lia.
    split; [constructor; [simpl; lia | exact Hrest]|].
    rewrite !cores_cons. simpl. split; [lia|]. split; reflexivity.
  - destruct (add_core i rest) as [r|] eqn:E; simpl in H; [|discriminate].
    inversion H; subst.
    destruct (IH r eq_refl Hrest) as (Hall' & Hsum' & Hnum & Hmask); [lia|].
    split; [constructor; assumption|]. rewrite !cores_cons, !fmap_cons, Hnum, Hmask.
    split; [lia|]. split; reflexivity.
Qed.

Lemma count_cpu_tally i s st st' k :
  count_cpu i s st = Some st' -> tallied k st -> k + 1 < 2 ^ 64 ->
  tallied (k + 1) st' /\
  nodeNumber <$> nodeVector st' = nodeNumber <$> nodeVector st /\
  cpuBitset <$> nodeVector st' = cpuBitset <$> nodeVector st.
Proof.
  intros H (Htot & Hall & Hk) Hbound.
  assert (Same : tallied (k + 1) st) by (repeat split; try assumption; lia).
  unfold count_cpu in H. destruct s as [|n|]; [inversion H; subst; auto | | discriminate].
  destruct (n =? i); [|inversion H; subst; auto].
  destruct (add_core i (nodeVector st)) as [nodes|] eqn:E; [|inversion H; subst; auto].
  inversion H; subst. simpl.
  destruct (add_core_tally i _ nodes E Hall) as (Hall' & Hsum' & Hnum & Hmask); [lia|].
  rewrite Cint.to_size_t_small by lia.
  split; [|split; assumption]. repeat split; simpl; try assumption; lia.
Qed.

Lemma count_cpus_tally dirs : forall i st st' k,
  count_cpus i dirs st = Some st' -> tallied k st ->
  k + Z.of_nat (length dirs) < 2 ^ 64 ->
  tallied (k + Z.of_nat (length dirs)) st' /\
  nodeNumber <$> nodeVector st' = nodeNumber <$> nodeVector st /\
  cpuBitset <$> nodeVector st' = cpuBitset <$> nodeVector st.
Proof.
  induction dirs as [|d rest IH]; intros i st st' k H Ht Hb; simpl in H.
  - inversion H; subst. simpl. rewrite Z.add_0_r. auto.
  - change (length (d :: rest)) with (S (length rest)) in *.
    rewrite Nat2Z.inj_succ in *.
    replace (k + Z.succ (Z.of_nat (length rest))) with (k + 1 + Z.of_nat (length rest)) by lia.
    destruct (online_is_1 d).
    + destruct (count_cpu i (siblings d) st) as [st1|] eqn:E; [|discriminate].
      destruct (count_cpu_tally i _ st st1 k E Ht) as (Ht1 & Hnum1 & Hmask1); [lia|].
      destruct (IH (i + 1) st1 st' (k + 1) H Ht1) as (Ht' & Hnum & Hmask); [lia|].
      split; [exact Ht'|]. split; congruence.
    + assert (Ht1 : tallied (k + 1) st).
      { destruct Ht as (? & ? & ?). repeat split; try assumption; lia. }
      apply (IH (i + 1) st st' (k + 1) H Ht1). lia.
Qed.

Lemma discover_tally sys d :
  discover sys = Some d -> Z.of_nat (length (cpu_dirs sys)) + 1 < 2 ^ 64 ->
  tallied (1 + Z.of_nat (length (cpu_dirs sys))) d /\
  Forall (fun node => 0 <= nodeNumber node <= numa_max_node sys) (nodeVector d).
Proof.
  unfold discover. intros H Hb.
  destruct (numa_available sys =? -1); simpl in H.
  - inversion H; subst. simpl. split; [|constructor].
    split; [reflexivity|]. split; [constructor | simpl; lia].
  - destruct (count_cpu 0 (cpu0_siblings sys) _) as [st0|] eqn:E0; [|discriminate].
    pose proof (get_nodes_fresh sys) as Hfresh.
    assert (T0 : tallied 0 {| nodeVector := get_nodes sys; totalCoreCount := 0 |}).
    { split; [|split; [|simpl; lia]]; simpl.
      - symmetry. apply cores_fresh. eapply Forall_impl; [exact Hfresh|].
        simpl. intros node [Hc _]. exact Hc.
      - eapply Forall_impl; [exact Hfresh|]. simpl. intros node [Hc _]. lia. }
    destruct (count_cpu_tally 0 _ _ st0 0 E0 T0) as (T1 & Hnum1 & _); [lia|].
    destruct (count_cpus_tally _ 1 st0 d (0 + 1) H T1) as (T & Hnum & _); [lia|].
    split; [exact T|].
    assert (Hn : Forall (fun N => 0 <= N <= numa_max_node sys) (nodeNumber <$> nodeVector d)).
    { rewrite Hnum, Hnum1. simpl. apply Forall_fmap.
      eapply Forall_impl; [exact Hfresh|]. simpl. intros node [_ HN]. exact HN. }
    apply Forall_fmap in Hn. exact Hn.
Qed.

Lemma tallied_nonempty k st :
  tallied k st -> totalCoreCount st <> 0 -> nodeVector st <> [].
Proof.
  intros (Htot & _ & _) Hnz Hnil. rewrite Hnil in Htot. apply Hnz. exact Htot.
Qed.

Lemma fallback_keeps sys st :
  totalCoreCount st <> 0 -> nodeVector st <> [] -> fallback sys st = st.
Proof.
  intros Hnz Hne. unfold fallback.
  destruct (Z.eqb_spec (totalCoreCount st) 0) as [|_]; [contradiction|].
  destruct (nodeVector st) as [|node rest] eqn:E; [contradiction|]. reflexivity.
Qed.

Lemma NumaState_new_cases sys st :
  NumaState_new sys = Some st ->
  Z.of_nat (length (cpu_dirs sys)) < Cint.INT_MAX ->
  (nodeVector st = [dummy_node sys] /\ totalCoreCount st = 1) \/
  (counted st /\
   Forall (fun node => 0 <= nodeNumber node <= numa_max_node sys) (nodeVector st)).
Proof.
  unfold NumaState_new, Cint.INT_MAX. intros H Hb.
  destruct (discover sys) as [d|] eqn:Ed; simpl in H; [|discriminate].
  inversion H as [Hst]. clear H.
  destruct (discover_tally sys d Ed) as ((Htot & Hall & Hk) & Hnum); [lia|].
  destruct (Z.eq_dec (totalCoreCount d) 0) as [Hz|Hnz].
  - left. rewrite (fallback_zero sys d Hz). split; reflexivity.
  - right. rewrite fallback_keeps; [|exact Hnz|].
    + split; [|exact Hnum]. split; [exact Htot|]. split; [|exact Hall].
      unfold Cint.INT_MAX. lia.
    + apply (tallied_nonempty (1 + Z.of_nat (length (cpu_dirs sys)))); [|exact Hnz].
      split; [exact Htot|]. split; [exact Hall | exact Hk].
Qed.

(** X1. The constructor's registry is the dummy node alone with a total of one,
    or what discovery counted: then the total is the sum of the nodes' core
    counts, no count is negative, and every node carries the number libnuma
    knows it by, from [0] to [numa_max_node()]. *)
Theorem NumaState_new_counted sys st :
  NumaState_new sys = Some st ->
  Z.of_nat (length (cpu_dirs sys)) < Cint.INT_MAX ->
  (nodeVector st = [dummy_node sys] /\ totalCoreCount st = 1) \/
  (counted st /\
   Forall (fun node => 0 <= nodeNumber node <= numa_max_node sys) (nodeVector st)).
Proof. apply NumaState_new_cases. Qed.

Lemma NumaState_new_counted_2x2 :
  exists st, NumaState_new sys_2x2 = Some st /\
    ((nodeVector st = [dummy_node sys_2x2] /\ totalCoreCount st = 1) \/
     (counted st /\
      Forall (fun node => 0 <= nodeNumber node <= numa_max_node sys_2x2) (nodeVector st))).
Proof.
  eexists. split; [vm_compute; reflexivity|].
  apply (NumaState_new_counted sys_2x2); [vm_compute; reflexivity|].
  vm_compute. reflexivity.
Defined.

(** *** Where [nodeForThread] points *)

Lemma walk_bound nodes : forall n i m,
  walk nodes n i = Some m -> (n <= m < n + length nodes)%nat.
Proof.
  induction nodes as [|node rest IH]; intros n i m H; simpl in H; [discriminate|].
  destruct (_ <? 0).
  - inversion H; subst. simpl. lia.
  - apply IH in H. simpl. lia.
Qed.

(** X2. Whatever the core counts and the thread index are, [nodeForThread]
    points at a node of the vector as soon as the vector has one and the
    total, by which the index is divided, is not zero. *)
Theorem nodeForThread_in_vector st threadIdx :
  nodeVector st <> [] -> totalCoreCount st <> 0 ->
  is_Some (nodeVector st !! nodeForThread st threadIdx).
Proof.
  intros Hne _. apply lookup_lt_is_Some. unfold nodeForThread.
  assert (Hpos : (0 < length (nodeVector st))%nat).
  { destruct (nodeVector st); [contradiction | simpl; lia]. }
  destruct (_ =? 1); [exact Hpos|].
  destruct (walk _ 0 _) as [m|] eqn:Hw; [|exact Hpos].
  apply walk_bound in Hw. lia.
Qed.

Lemma nodeForThread_in_vector_4_4 :
  is_Some (nodeVector registry_4_4 !! nodeForThread registry_4_4 13).
Proof. apply nodeForThread_in_vector; discriminate. Defined.

(** On a counted registry the answer is the node whose segment holds
    [threadIdx mod total], and the loop finds it. *)
Lemma nodeForThread_counted st threadIdx :
  counted st -> 0 <= threadIdx ->
  in_segment (nodeVector st) (nodeForThread st threadIdx) (threadIdx mod totalCoreCount st) /\
  is_Some (walk (nodeVector st) 0 (Cint.to_int (threadIdx mod totalCoreCount st))).
Proof.
  destruct st as [nodes total]. intros (Htot & Hpos & Hall) Hidx. simpl in *.
  assert (Hp : 0 <= threadIdx mod total < total) by (apply Z.mod_pos_bound; lia).
  rewrite Cint.to_int_small by (unfold Cint.INT_MAX in Hpos; lia).
  destruct (walk_found nodes 0%nat (threadIdx mod total) Hall) as (k & nd & Hw & Hk & Hseg);
    [lia | lia |].
  split; [|rewrite Hw; eauto].
  unfold nodeForThread, in_segment, segment_start. simpl.
  destruct (Z.eqb_spec (Z.of_nat (length nodes)) 1) as [Hone|Hmany].
  - destruct nodes as [|node [|? ?]]; simpl in Hone; try lia.
    exists node. simpl. change (cores []) with 0.
    rewrite cores_cons in Htot. change (cores []) with 0 in Htot.
    split; [reflexivity | lia].
  - rewrite Cint.to_int_small by (unfold Cint.INT_MAX in Hpos; lia).
    rewrite Hw. simpl. exists nd. split; assumption.
Qed.

(** X3. The line the source marks as not expected to be reached is not reached
    on the registry the constructor builds: either the registry has a single
    node, which is returned at once, or the loop stops at a node of the
    vector. *)
Theorem nodeForThread_loop_finds sys st threadIdx :
  NumaState_new sys = Some st ->
  Z.of_nat (length (cpu_dirs sys)) < Cint.INT_MAX ->
  0 <= threadIdx ->
  length (nodeVector st) = 1%nat \/
  exists n, walk (nodeVector st) 0 (Cint.to_int (threadIdx mod totalCoreCount st)) = Some n /\
            nodeForThread st threadIdx = n /\ is_Some (nodeVector st !! n).
Proof.
  intros Hst Hb Hidx.
  destruct (NumaState_new_cases sys st Hst Hb) as [[Hd _]|[Hc _]].
  - left. rewrite Hd. reflexivity.
  - destruct (Nat.eq_dec (length (nodeVector st)) 1%nat) as [Hone|Hmany]; [left; exact Hone|right].
    destruct (nodeForThread_counted st threadIdx Hc Hidx) as [_ [n Hw]].
    exists n. split; [exact Hw|].
    assert (Hn : nodeForThread st threadIdx = n).
    { unfold nodeForThread. destruct (Z.eqb_spec (Z.of_nat (length (nodeVector st))) 1); [lia|].
      rewrite Hw. reflexivity. }
    split; [exact Hn|]. apply lookup_lt_is_Some. apply walk_bound in Hw. lia.
Qed.

Lemma nodeForThread_loop_finds_2x2 :
  exists st, NumaState_new sys_2x2 = Some st /\
    (length (nodeVector st) = 1%nat \/
     exists n, walk (nodeVector st) 0 (Cint.to_int (6 mod totalCoreCount st)) = Some n /\
               nodeForThread st 6 = n /\ is_Some (nodeVector st !! n)).
Proof.
  eexists. split; [vm_compute; reflexivity|].
  apply (nodeForThread_loop_finds sys_2x2); [vm_compute; reflexivity | vm_compute; reflexivity | lia].
Defined.

(** *** The share of each node *)

Lemma segment_start_S nodes n node :
  nodes !! n = Some node ->
  segment_start nodes (S n) = segment_start nodes n + coreCount node.
Proof.
  intros H. unfold segment_start. rewrite (take_S_r _ _ _ H), cores_app, cores_cons.
  change (cores []) with 0. lia.
Qed.

Lemma segment_start_mono nodes :
  Forall (fun node => 0 <= coreCount node) nodes ->
  forall n m, (n <= m)%nat -> segment_start nodes n <= segment_start nodes m.
Proof.
  intros Hall n m Hnm. induction Hnm as [|m Hnm IH]; [lia|].
  destruct (nodes !! m) as [node|] eqn:E.
  - rewrite (segment_start_S _ _ _ E).
    pose proof (proj1 (Forall_forall _ _) Hall node (list_elem_of_lookup_2 _ _ _ E)). simpl in *. lia.
  - unfold segment_start in *. apply lookup_ge_None in E.
    rewrite (take_ge nodes (S m)) by lia. rewrite (take_ge nodes m) in IH by lia. exact IH.
Qed.

Lemma segment_start_le_cores nodes n :
  Forall (fun node => 0 <= coreCount node) nodes -> segment_start nodes n <= cores nodes.
Proof.
  intros Hall. pose proof (segment_start_mono nodes Hall n (n + length nodes)%nat ltac:(lia)) as H.
  unfold segment_start in H at 2. rewrite take_ge in H by lia. exact H.
Qed.

(** Segments do not overlap. *)
Lemma in_segment_unique nodes n m p :
  Forall (fun node => 0 <= coreCount node) nodes ->
  in_segment nodes n p -> in_segment nodes m p -> n = m.
Proof.
  intros Hall (a & Ha & Hpa) (b & Hb & Hpb).
  destruct (Nat.lt_trichotomy n m) as [Hlt|[Heq|Hgt]]; [exfalso|exact Heq|exfalso].
  - pose proof (segment_start_mono nodes Hall (S n) m ltac:(lia)) as H.
    rewrite (segment_start_S _ _ _ Ha) in H. lia.
  - pose proof (segment_start_mono nodes Hall (S m) n ltac:(lia)) as H.
    rewrite (segment_start_S _ _ _ Hb) in H. lia.
Qed.

(** X4. On a counted registry, among the thread indices of one round, from 0
    to the total less one, each node is given as many as it has cores: a node
    without cores is given none. *)
Theorem nodeForThread_share st n node :
  counted st -> nodeVector st !! n = Some node ->
  Z.of_nat (length (filter (fun idx => nodeForThread st idx = n)
                           (seqZ 0 (totalCoreCount st))))
    = coreCount node.
Proof.
  intros Hc Hn. pose proof Hc as (Htot & Hpos & Hall).
  pose proof (proj1 (Forall_forall _ _) Hall node (list_elem_of_lookup_2 _ _ _ Hn)) as Hcn.
  simpl in Hcn.
  assert (Hend : segment_start (nodeVector st) n + coreCount node <= totalCoreCount st).
  { rewrite <- (segment_start_S _ _ _ Hn), Htot. apply segment_start_le_cores. exact Hall. }
  assert (Hstart : 0 <= segment_start (nodeVector st) n).
  { apply (segment_start_mono _ Hall 0 n). lia. }
  assert (HP : filter (fun idx => nodeForThread st idx = n) (seqZ 0 (totalCoreCount st))
               ≡ₚ seqZ (segment_start (nodeVector st) n) (coreCount node)).
  { apply NoDup_Permutation; [apply NoDup_filter, NoDup_seqZ | apply NoDup_seqZ|].
    intros idx. rewrite list_elem_of_filter, !elem_of_seqZ. split.
    - intros [Hnode Hidx].
      destruct (nodeForThread_counted st idx Hc) as [(nd & Hnd & Hseg) _]; [lia|].
      rewrite Hnode in Hnd, Hseg. rewrite Hn in Hnd. inversion Hnd; subst nd.
      rewrite Z.mod_small in Hseg by lia. lia.
    - intros Hidx. split; [|lia].
      destruct (nodeForThread_counted st idx Hc) as [Hseg _]; [lia|].
      rewrite Z.mod_small in Hseg by lia.
      apply (in_segment_unique (nodeVector st) _ _ idx Hall Hseg).
      exists node. split; [exact Hn | lia]. }
  rewrite (Permutation_length HP), length_seqZ. lia.
Qed.

Lemma nodeForThread_share_4_4 :
  Z.of_nat (length (filter (fun idx => nodeForThread registry_4_4 idx = 1%nat)
                           (seqZ 0 (totalCoreCount registry_4_4))))
    = 4.
Proof.
  apply (nodeForThread_share registry_4_4 1 (node_of 1 4)); [|reflexivity].
  split; [reflexivity|]. split; [unfold Cint.INT_MAX; simpl; lia|].
  repeat constructor; simpl; lia.
Defined.

(** *** Binding and the per-node tables *)

(** X5. Without libnuma the registry is the dummy node, and whatever node
    [nodeForThread] answers [bindThread] leaves the thread alone. With cores
    discovered every node of the registry is a node of libnuma, and
    [bindThread] sets the affinity to the node's mask and prefers the node's
    memory. *)
Theorem bindThread_binds_discovered_nodes sys st threadIdx node :
  NumaState_new sys = Some st ->
  Z.of_nat (length (cpu_dirs sys)) < Cint.INT_MAX ->
  nodeVector st !! nodeForThread st threadIdx = Some node ->
  (numa_available sys = -1 -> bindThread node = []) /\
  (forall d, discover sys = Some d -> totalCoreCount d <> 0 ->
     bindThread node = [Numa_sched_setaffinity 0 (cpuBitset node);
                        Numa_set_preferred (nodeNumber node)]).
Proof.
  intros Hst Hb Hnode. split.
  - intros Hna. unfold NumaState_new, discover in Hst. rewrite Hna in Hst. simpl in Hst.
    inversion Hst; subst st. unfold fallback in Hnode. simpl in Hnode.
    unfold nodeForThread in Hnode. simpl in Hnode. inversion Hnode; subst node. reflexivity.
  - intros d Hd Hnz.
    destruct (NumaState_new_cases sys st Hst Hb) as [[Hdummy Hone]|[_ Hnum]].
    + exfalso. unfold NumaState_new in Hst. rewrite Hd in Hst. simpl in Hst.
      inversion Hst as [Hf]. destruct (discover_tally sys d Hd) as (T & _);
        [unfold Cint.INT_MAX in Hb; lia|].
      rewrite fallback_keeps in Hf; [|exact Hnz|apply (tallied_nonempty _ _ T Hnz)].
      subst st. destruct T as (Htot & Hall & _). rewrite Hdummy in Htot.
      change (cores [dummy_node sys]) with 0 in Htot. contradiction.
    + pose proof (proj1 (Forall_forall _ _) Hnum node (list_elem_of_lookup_2 _ _ _ Hnode)) as HN.
      simpl in HN. unfold bindThread.
      destruct (Z.eqb_spec (nodeNumber node) (-1)); [lia | reflexivity].
Qed.

Lemma bindThread_binds_discovered_nodes_no_numa :
  bindThread (dummy_node sys_no_numa) = [].
Proof.
  refine (proj1 (bindThread_binds_discovered_nodes sys_no_numa
                   {| nodeVector := [dummy_node sys_no_numa]; totalCoreCount := 1 |}
                   5 (dummy_node sys_no_numa) _ _ _) _);
    reflexivity.
Defined.

(** X6. The per-node table is created at the first request and kept: the
    second request answers the same address and leaves the registry as it
    is, no other node is touched, and [nodeForThread] answers as before. *)
Theorem getCmhTable_creates_once fresh1 fresh2 st n p st1 :
  fresh1 <> 0 ->
  getCmhTable fresh1 st n = Some (p, st1) ->
  p <> 0 /\
  getCmhTable fresh2 st1 n = Some (p, st1) /\
  (forall m, m <> n -> nodeVector st1 !! m = nodeVector st !! m) /\
  (forall threadIdx, nodeForThread st1 threadIdx = nodeForThread st threadIdx).
Proof.
  intros Hfresh H. unfold getCmhTable in H.
  destruct (nodeVector st !! n) as [node|] eqn:En; [|discriminate].
  destruct (Z.eqb_spec (cmhTable node) 0) as [Hz|Hnz]; inversion H; subst; clear H.
  - split; [exact Hfresh|]. unfold getCmhTable. simpl.
    rewrite list_lookup_insert_eq by (apply lookup_lt_Some in En; exact En). simpl.
    destruct (Z.eqb_spec p 0); [contradiction|].
    split; [reflexivity|]. split.
    + intros m Hm. apply list_lookup_insert_ne. congruence.
    + intros idx. unfold nodeForThread. simpl. rewrite length_insert.
      rewrite (walk_same_counts (<[n:=set_cmhTable p node]> (nodeVector st)) (nodeVector st));
        [reflexivity|].
      rewrite list_fmap_insert. simpl. apply list_insert_id.
      rewrite list_lookup_fmap, En. reflexivity.
  - split; [exact Hnz|]. unfold getCmhTable. rewrite En.
    destruct (Z.eqb_spec (cmhTable node) 0); [contradiction|].
    split; [reflexivity|]. split; reflexivity.
Qed.

Lemma getCmhTable_creates_once_4_4 :
  exists st1,
    getCmhTable 8192 registry_4_4 1 = Some (8192, st1) /\
    getCmhTable 12288 st1 1 = Some (8192, st1).
Proof.
  eexists. split; [reflexivity|].
  refine (proj1 (proj2 (getCmhTable_creates_once 8192 12288 registry_4_4 1 8192 _ _ _)));
    [discriminate | reflexivity].
Defined.

End Numa.

(** ** Node registry, the Windows build ([numasf.h], [numasf.cpp]) *)

Module NumaWindows.

(** [GROUP_AFFINITY]: a processor group and a mask of 64 bits. *)
Record GROUP_AFFINITY : Type := MkGroupAffinity { Group : Z; Mask : Z }.

(** [class NumaNode] under [_WIN32]. *)
Record NumaNode : Type := MkNumaNode {
  cmhTable : Z;
  nodeNumber : Z;
  coreCount : Z;
  groupMask : GROUP_AFFINITY;
  mask : Z
}.

(** [NumaNode(DWORD _nodeNumber, GROUP_AFFINITY _groupMask)]. *)
Definition NumaNode_group (_nodeNumber : Z) (_groupMask : GROUP_AFFINITY) : NumaNode :=
  {| cmhTable := 0; nodeNumber := Cint.to_int _nodeNumber; coreCount := 0;
     groupMask := _groupMask; mask := 0 |}.

(** [NumaNode(DWORD _nodeNumber, ULONGLONG _mask)]. *)
Definition NumaNode_mask (_nodeNumber : Z) (_mask : Z) : NumaNode :=
  {| cmhTable := 0; nodeNumber := Cint.to_int _nodeNumber; coreCount := 0;
     groupMask := {| Group := 65535; Mask := 0 |}; mask := _mask |}.

(** [NumaNode(const NumaNode &source)], which [push_back] runs. *)
Definition NumaNode_copy (source : NumaNode) : NumaNode :=
  {| cmhTable := 0; nodeNumber := nodeNumber source; coreCount := coreCount source;
     groupMask := groupMask source; mask := mask source |}.

Record NumaState : Type := MkNumaState {
  nodeVector : list NumaNode;
  totalCoreCount : Z        (* the member [NumaState::coreCount] *)
}.

(** [LOGICAL_PROCESSOR_RELATIONSHIP], as far as the constructor tells the
    values apart. *)
Inductive relationship : Type :=
| RelationProcessorCore
| RelationNumaNode
| RelationOther.

(** A [SYSTEM_LOGICAL_PROCESSOR_INFORMATION_EX] of the buffer: its size in
    bytes, its relationship, and of the union the fields the constructor
    reads: [NumaNode.NodeNumber], and [NumaNode.GroupMask] or
    [Processor.GroupMask[0]]. *)
Record info_ex : Type := MkInfoEx {
  ex_Size : Z;
  ex_Relationship : relationship;
  ex_NodeNumber : Z;
  ex_GroupMask : GROUP_AFFINITY
}.

(** A [SYSTEM_LOGICAL_PROCESSOR_INFORMATION] of the buffer. *)
Record info : Type := MkInfo {
  Relationship : relationship;
  NodeNumber : Z;
  ProcessorMask : Z
}.

(** What Windows has answered when the constructor goes through the
    buffer: whether the two functions for processor groups were found in
    [kernel32.dll], the buffer either call filled with its length in bytes,
    and the affinity mask of the process. *)
Record WindowsSys : Type := MkWindowsSys {
  has_processor_groups : bool;
  buffer_ex : list info_ex;
  returnLength_ex : Z;
  buffer : list info;
  procMask : Z
}.

(** The records the two loops over the buffer of
    [GetLogicalProcessorInformationEx] visit: they stop at a record whose
    size is zero or that would end beyond [returnLength], the offset being
    a [DWORD]. Past the last record of a buffer the records fill, whatever
    is read there, the test on the length stops the loop. *)
Fixpoint visited (buf : list info_ex) (byteOffset returnLength : Z) : list info_ex :=
  match buf with
  | [] => []
  | r :: rest =>
      if (ex_Size r >? 0) && (Cint.wrap 32 (byteOffset + ex_Size r) <=? returnLength)
      then r :: visited rest (Cint.wrap 32 (byteOffset + ex_Size r)) returnLength
      else []
  end.

(** The loop over the nodes for one core: the first node for which [hit]
    holds gets one more core; [None] when there is none. *)
Fixpoint add_core (hit : NumaNode -> bool) (nodes : list NumaNode) : option (list NumaNode) :=
  match nodes with
  | [] => None
  | node :: rest =>
      if hit node
      then Some ({| cmhTable := cmhTable node; nodeNumber := nodeNumber node;
                    coreCount := Cint.to_size_t (coreCount node + 1);
                    groupMask := groupMask node; mask := mask node |} :: rest)
      else option_map (cons node) (add_core hit rest)
  end.

Definition count_core (hit : NumaNode -> bool) (st : NumaState) : NumaState :=
  match add_core hit (nodeVector st) with
  | Some nodes => {| nodeVector := nodes;
                     totalCoreCount := Cint.to_size_t (totalCoreCount st + 1) |}
  | None => st
  end.

(** With processor groups: a node holds a core when the groups are equal
    and the masks meet. *)
Definition hit_ex (r : info_ex) (node : NumaNode) : bool :=
  (Group (groupMask node) =? Group (ex_GroupMask r))
  && negb (Z.land (Mask (groupMask node)) (Mask (ex_GroupMask r)) =? 0).

(** Without: when the masks meet. *)
Definition hit (r : info) (node : NumaNode) : bool :=
  negb (Z.land (mask node) (ProcessorMask r) =? 0).

Definition get_nodes_ex (records : list info_ex) : list NumaNode :=
  foldl (fun nodes r =>
           match ex_Relationship r with
           | RelationNumaNode =>
               nodes ++ [NumaNode_copy (NumaNode_group (ex_NodeNumber r) (ex_GroupMask r))]
           | _ => nodes
           end) [] records.

Definition count_cores_ex (records : list info_ex) (st : NumaState) : NumaState :=
  foldl (fun st r =>
           match ex_Relationship r with
           | RelationProcessorCore => count_core (hit_ex r) st
           | _ => st
           end) st records.

Definition get_nodes (records : list info) : list NumaNode :=
  foldl (fun nodes r =>
           match Relationship r with
           | RelationNumaNode =>
               nodes ++ [NumaNode_copy (NumaNode_mask (NodeNumber r) (ProcessorMask r))]
           | _ => nodes
           end) [] records.

Definition count_cores (records : list info) (st : NumaState) : NumaState :=
  foldl (fun st r =>
           match Relationship r with
           | RelationProcessorCore => count_core (hit r) st
           | _ => st
           end) st records.

(** Topology discovery: the constructor from the point where the buffer is
    filled up to its two closing tests. *)
Definition discover (sys : WindowsSys) : NumaState :=
  if has_processor_groups sys then
    let records := visited (buffer_ex sys) 0 (returnLength_ex sys) in
    count_cores_ex records {| nodeVector := get_nodes_ex records; totalCoreCount := 0 |}
  else
    count_cores (buffer sys) {| nodeVector := get_nodes (buffer sys); totalCoreCount := 0 |}.

(** The dummy node of the fallback: [NumaNode(-1, procMask)]. *)
Definition dummy_node (sys : WindowsSys) : NumaNode :=
  NumaNode_copy (NumaNode_mask (Cint.wrap 32 (-1)) (procMask sys)).

(** The two closing tests of the constructor. *)
Definition fallback (sys : WindowsSys) (st : NumaState) : NumaState :=
  let st :=
    if totalCoreCount st =? 0
    then {| nodeVector := []; totalCoreCount := 1 |}
    else st in
  if Z.of_nat (length (nodeVector st)) =? 0
  then {| nodeVector := nodeVector st ++ [dummy_node sys];
          totalCoreCount := totalCoreCount st |}
  else st.

(** [NumaState::NumaState()] once the buffer is filled. *)
Definition NumaState_new (sys : WindowsSys) : NumaState := fallback sys (discover sys).

(** What [bindThread] asks of Windows. *)
Inductive win_call : Type :=
| SetThreadGroupAffinity (g : GROUP_AFFINITY)
| SetThreadAffinityMask (m : Z).

(** [NumaState::bindThread(numaNode)]: the call it makes. The source also
    prints a line when the call fails. *)
Definition bindThread (numaNode : NumaNode) : list win_call :=
  if nodeNumber numaNode =? -1 then []
  else if negb (Group (groupMask numaNode) =? 65535)
       then [SetThreadGroupAffinity (groupMask numaNode)]
       else [SetThreadAffinityMask (mask numaNode)].

Definition cores (nodes : list NumaNode) : Z :=
  foldr Z.add 0 (coreCount <$> nodes).

(** The total is the sum of the nodes' counts and at most [k]. *)
Definition tallied (k : Z) (st : NumaState) : Prop :=
  totalCoreCount st = cores (nodeVector st) /\
  Forall (fun node => 0 <= coreCount node) (nodeVector st) /\
  0 <= totalCoreCount st <= k.

(** A machine of two nodes in one processor group, two cores each, with a
    record of another kind in between. *)
Definition sys_two_nodes : WindowsSys :=
  {| has_processor_groups := true;
     buffer_ex :=
       [ MkInfoEx 48 RelationNumaNode 0 (MkGroupAffinity 0 3);
         MkInfoEx 48 RelationNumaNode 1 (MkGroupAffinity 0 12);
         MkInfoEx 48 RelationProcessorCore 0 (MkGroupAffinity 0 1);
         MkInfoEx 80 RelationOther 0 (MkGroupAffinity 0 15);
         MkInfoEx 48 RelationProcessorCore 0 (MkGroupAffinity 0 2);
         MkInfoEx 48 RelationProcessorCore 0 (MkGroupAffinity 0 4);
         MkInfoEx 48 RelationProcessorCore 0 (MkGroupAffinity 0 8) ];
     returnLength_ex := 368;
     buffer := [];
     procMask := 15 |}.

(** A machine whose buffer names no node. *)
Definition sys_no_nodes : WindowsSys :=
  {| has_processor_groups := false; buffer_ex := []; returnLength_ex := 0;
     buffer := [ MkInfo RelationProcessorCore 0 1; MkInfo RelationProcessorCore 0 2 ];
     procMask := 3 |}.

(** *** Discovery and the fallback *)

Lemma cores_cons_win node rest : cores (node :: rest) = coreCount node + cores rest.
Proof. reflexivity. Qed.

Lemma cores_app_win l k : cores (l ++ k) = cores l + cores k.
Proof.
  induction l as [|node rest IH]; [reflexivity|].
  change ((node :: rest) ++ k) with (node :: (rest ++ k)). rewrite !cores_cons_win, IH. lia.
Qed.

Lemma cores_nonneg_win nodes :
  Forall (fun node => 0 <= coreCount node) nodes -> 0 <= cores nodes.
Proof.
  induction 1 as [|node rest Hn _ IH]; [reflexivity|]. rewrite cores_cons_win. lia.
Qed.

Lemma add_core_tally_win hit nodes : forall nodes',
  add_core hit nodes = Some nodes' ->
  Forall (fun node => 0 <= coreCount node) nodes -> cores nodes + 1 < 2 ^ 64 ->
  Forall (fun node => 0 <= coreCount node) nodes' /\
  cores nodes' = cores nodes + 1 /\
  nodeNumber <$> nodes' = nodeNumber <$> nodes.
Proof.
  induction nodes as [|node rest IH]; intros nodes' H Hall Hsum; simpl in H; [discriminate|].
  inversion Hall as [|? ? Hc Hrest]; subst.
  pose proof (cores_nonneg_win rest Hrest) as Hr. rewrite cores_cons_win in Hsum.
  destruct (hit node).
  - inversion H; subst. rewrite Cint.to_size_t_small by lia.
    split; [constructor; [simpl; lia | exact Hrest]|].
    rewrite !cores_cons_win. simpl. split; [lia | reflexivity].
  - destruct (add_core hit rest) as [r|] eqn:E; simpl in H; [|discriminate].
    inversion H; subst.
    destruct (IH r eq_refl Hrest) as (Hall' & Hsum' & Hnum); [lia|].
    split; [constructor; assumption|]. rewrite !cores_cons_win, !fmap_cons, Hnum.
    split; [lia | reflexivity].
Qed.

Lemma count_core_tally_win hit st k :
  tallied k st -> k + 1 < 2 ^ 64 ->
  tallied (k + 1) (count_core hit st) /\
  nodeNumber <$> nodeVector (count_core hit st) = nodeNumber <$> nodeVector st.
Proof.
  intros (Htot & Hall & Hk) Hb. unfold count_core.
  destruct (add_core hit (nodeVector st)) as [nodes|] eqn:E.
  - destruct (add_core_tally_win hit _ nodes E Hall) as (Hall' & Hsum' & Hnum); [lia|].
    cbn [nodeVector totalCoreCount]. rewrite Cint.to_size_t_small by lia.
    split; [|exact Hnum]. unfold tallied. cbn [nodeVector totalCoreCount].
    split; [lia|]. split; [exact Hall' | lia].
  - split; [|reflexivity]. split; [exact Htot|]. split; [exact Hall | lia].
Qed.

Lemma foldl_count_tally {A} (step : NumaState -> A -> NumaState) (records : list A) :
  (forall st r k, tallied k st -> k + 1 < 2 ^ 64 ->
     tallied (k + 1) (step st r) /\
     nodeNumber <$> nodeVector (step st r) = nodeNumber <$> nodeVector st) ->
  forall st k,
    tallied k st -> k + Z.of_nat (length records) < 2 ^ 64 ->
    tallied (k + Z.of_nat (length records)) (foldl step st records) /\
    nodeNumber <$> nodeVector (foldl step st records) = nodeNumber <$> nodeVector st.
Proof.
  intros Hstep. induction records as [|r rest IH]; intros st k Ht Hb.
  - simpl. rewrite Z.add_0_r. auto.
  - change (length (r :: rest)) with (S (length rest)) in *. rewrite Nat2Z.inj_succ in *.
    destruct (Hstep st r k Ht) as [Ht1 Hnum1]; [lia|].
    destruct (IH (step st r) (k + 1) Ht1) as [Ht' Hnum']; [lia|].
    replace (k + Z.succ (Z.of_nat (length rest))) with (k + 1 + Z.of_nat (length rest)) by lia.
    simpl. split; [exact Ht' | congruence].
Qed.

Lemma step_ex_tally st (r : info_ex) k :
  tallied k st -> k + 1 < 2 ^ 64 ->
  let st' := match ex_Relationship r with
             | RelationProcessorCore => count_core (hit_ex r) st
             | _ => st
             end in
  tallied (k + 1) st' /\ nodeNumber <$> nodeVector st' = nodeNumber <$> nodeVector st.
Proof.
  intros Ht Hb. cbv zeta.
  assert (Same : tallied (k + 1) st).
  { destruct Ht as (? & ? & ?). repeat split; try assumption; lia. }
  destruct (ex_Relationship r); auto. apply count_core_tally_win; assumption.
Qed.

Lemma step_tally st (r : info) k :
  tallied k st -> k + 1 < 2 ^ 64 ->
  let st' := match Relationship r with
             | RelationProcessorCore => count_core (hit r) st
             | _ => st
             end in
  tallied (k + 1) st' /\ nodeNumber <$> nodeVector st' = nodeNumber <$> nodeVector st.
Proof.
  intros Ht Hb. cbv zeta.
  assert (Same : tallied (k + 1) st).
  { destruct Ht as (? & ? & ?). repeat split; try assumption; lia. }
  destruct (Relationship r); auto. apply count_core_tally_win; assumption.
Qed.

Lemma cores_fresh_win nodes : Forall (fun node => coreCount node = 0) nodes -> cores nodes = 0.
Proof.
  induction 1 as [|node rest Hc _ IH]; [reflexivity|]. rewrite cores_cons_win, Hc, IH. reflexivity.
Qed.

Lemma foldl_Forall {A B} (P : B -> Prop) (step : list B -> A -> list B) (records : list A) :
  (forall acc r, Forall P acc -> Forall P (step acc r)) ->
  forall acc, Forall P acc -> Forall P (foldl step acc records).
Proof.
  intros Hstep. induction records as [|r rest IH]; intros acc Hacc; [exact Hacc|].
  simpl. apply IH, Hstep, Hacc.
Qed.

Lemma get_nodes_ex_fresh_win records :
  Forall (fun node => coreCount node = 0) (get_nodes_ex records).
Proof.
  unfold get_nodes_ex. apply foldl_Forall; [|constructor].
  intros acc r Hacc. destruct (ex_Relationship r); try exact Hacc.
  apply Forall_app. split; [exact Hacc|]. constructor; [reflexivity | constructor].
Qed.

Lemma get_nodes_fresh_win records :
  Forall (fun node => coreCount node = 0) (get_nodes records).
Proof.
  unfold get_nodes. apply foldl_Forall; [|constructor].
  intros acc r Hacc. destruct (Relationship r); try exact Hacc.
  apply Forall_app. split; [exact Hacc|]. constructor; [reflexivity | constructor].
Qed.

Lemma fresh_tallied nodes :
  Forall (fun node => coreCount node = 0) nodes ->
  tallied 0 {| nodeVector := nodes; totalCoreCount := 0 |}.
Proof.
  intros H. split; [symmetry; apply cores_fresh_win; exact H|]. split; [|simpl; lia].
  eapply Forall_impl; [exact H|]. simpl. intros node Hc. lia.
Qed.

Lemma visited_length buf : forall o n, (length (visited buf o n) <= length buf)%nat.
Proof.
  induction buf as [|r rest IH]; intros o n; simpl; [lia|].
  destruct (_ && _); simpl; [|lia]. specialize (IH (Cint.wrap 32 (o + ex_Size r)) n). lia.
Qed.

Lemma discover_tally_win sys :
  Z.of_nat (length (buffer_ex sys)) < 2 ^ 64 -> Z.of_nat (length (buffer sys)) < 2 ^ 64 ->
  tallied (Z.of_nat (length (buffer_ex sys)) + Z.of_nat (length (buffer sys))) (discover sys).
Proof.
  intros Hex Hb. unfold discover.
  assert (Weaken : forall k k' st, tallied k st -> k <= k' -> tallied k' st).
  { intros k k' st (? & ? & ?) Hk. repeat split; try assumption; lia. }
  destruct (has_processor_groups sys).
  - set (records := visited (buffer_ex sys) 0 (returnLength_ex sys)).
    pose proof (visited_length (buffer_ex sys) 0 (returnLength_ex sys)) as Hlen.
    fold records in Hlen.
    destruct (foldl_count_tally _ records (fun st r k => step_ex_tally st r k) _ 0
                (fresh_tallied _ (get_nodes_ex_fresh_win records))) as [T _]; [lia|].
    apply (Weaken _ _ _ T). lia.
  - destruct (foldl_count_tally _ (buffer sys) (fun st r k => step_tally st r k) _ 0
                (fresh_tallied _ (get_nodes_fresh_win (buffer sys)))) as [T _]; [lia|].
    apply (Weaken _ _ _ T). lia.
Qed.

Lemma fallback_zero_win sys d :
  totalCoreCount d = 0 ->
  fallback sys d = {| nodeVector := [dummy_node sys]; totalCoreCount := 1 |}.
Proof. intros H. unfold fallback. rewrite H. reflexivity. Qed.

Lemma fallback_keeps_win sys st :
  totalCoreCount st <> 0 -> nodeVector st <> [] -> fallback sys st = st.
Proof.
  intros Hnz Hne. unfold fallback.
  destruct (Z.eqb_spec (totalCoreCount st) 0) as [|_]; [contradiction|].
  destruct (nodeVector st) as [|node rest] eqn:E; [contradiction|]. reflexivity.
Qed.

(** X7. On Windows too the registry is never empty and its total is at least
    one: it is the dummy node alone, of number -1, no processor group and
    the affinity mask of the process, with a total of one, or what the
    buffer held, and then the total is the sum of the nodes' core counts,
    none of them negative. The dummy node is not bound. *)
Theorem NumaState_new_windows sys :
  Z.of_nat (length (buffer_ex sys)) + Z.of_nat (length (buffer sys)) < 2 ^ 63 ->
  let st := NumaState_new sys in
  nodeVector st <> [] /\ 1 <= totalCoreCount st /\
  ((nodeVector st = [dummy_node sys] /\ totalCoreCount st = 1 /\
    totalCoreCount (discover sys) = 0) \/
   (st = discover sys /\ totalCoreCount st = cores (nodeVector st) /\
    Forall (fun node => 0 <= coreCount node) (nodeVector st))) /\
  nodeNumber (dummy_node sys) = -1 /\ Group (groupMask (dummy_node sys)) = 65535 /\
  mask (dummy_node sys) = procMask sys /\ bindThread (dummy_node sys) = [].
Proof.
  intros Hb. cbv zeta.
  destruct (discover_tally_win sys) as (Htot & Hall & Hk); [lia | lia |].
  unfold NumaState_new.
  destruct (Z.eq_dec (totalCoreCount (discover sys)) 0) as [Hz|Hnz].
  - rewrite (fallback_zero_win sys _ Hz). cbn [nodeVector totalCoreCount].
    split; [discriminate|]. split; [lia|]. split; [|repeat split].
    left. repeat split. exact Hz.
  - assert (Hne : nodeVector (discover sys) <> []).
    { intros E. apply Hnz. rewrite Htot, E. reflexivity. }
    rewrite (fallback_keeps_win sys _ Hnz Hne).
    split; [exact Hne|]. split; [lia|]. split; [|repeat split].
    right. split; [reflexivity|]. split; [exact Htot | exact Hall].
Qed.

Lemma NumaState_new_windows_two_nodes :
  (coreCount <$> nodeVector (NumaState_new sys_two_nodes), totalCoreCount (NumaState_new sys_two_nodes))
    = ([2; 2], 4) /\
  nodeVector (NumaState_new sys_two_nodes) <> [] /\
  1 <= totalCoreCount (NumaState_new sys_two_nodes).
Proof.
  split; [vm_compute; reflexivity|].
  destruct (NumaState_new_windows sys_two_nodes) as (Hne & Hone & _); [vm_compute; reflexivity|].
  split; assumption.
Defined.

End NumaWindows.

(** ** Transposition table ([tt.cpp]) *)

Module TT.

(** Modelled from the spec: [tt.h] is not among the sources. These are its
    constants as the functions of [tt.cpp] use them: the number of entries of
    a cluster, the number of padding bytes that follow them, [sizeof(Cluster)]
    and the cache line size. *)
Record Layout : Type := MkLayout {
  ClusterSize : Z;
  PaddingSize : Z;
  sizeofCluster : Z;
  CacheLineSize : Z
}.

(** Modelled from the spec: the fields of a slot, from the data model
    (truncated key, move, score, static evaluation, generation and bound
    packed in a byte, depth). [tt.cpp] reads [key16], [genBound8], [depth8]. *)
Record TTEntry : Type := MkTTEntry {
  key16 : Z;
  move16 : Z;
  value16 : Z;
  eval16 : Z;
  genBound8 : Z;
  depth8 : Z
}.

(** A cluster: its entries and its padding bytes. A value of this type stands
    for the [sizeofCluster] bytes the cluster occupies. *)
Record Cluster : Type := MkCluster {
  entry : list TTEntry;
  padding : list Z
}.

(** What the table leaves in the outside world: calls of the allocator and
    lines of output. *)
Inductive event : Type :=
| Free (p : Z)
| VirtualFree (p : Z)
| Calloc (n p : Z)
| VirtualAlloc (n p : Z)
| SayNoPrivilege
| SayLargePages (mb : Z)
| SayFailedLargePages (mb : Z)
| SayFailed (mb : Z).

(** The globals [use_large_pages] and [got_privileges], the hash files by
    name (each a sequence of cluster images) and the events so far, latest
    first. *)
Record World : Type := MkWorld {
  use_large_pages : Z;
  got_privileges : Z;
  files : gmap string (list Cluster);
  trace : list event
}.

(** What the environment answers during a call: the "Large Pages" option,
    whether the lock-memory privilege is granted, the addresses the two
    allocators return for a size ([0] is [NULL]), whether the output file
    opens and how many clusters the device takes before a write fails. *)
Record Os : Type := MkOs {
  option_Large_Pages : bool;
  lock_memory_privilege : bool;
  calloc : Z -> Z;
  virtual_alloc : Z -> Z;
  ofstream_opens : bool;
  disk_room : Z
}.

(** [class TranspositionTable]; [cells] is the content of the memory [table]
    points at, cluster by cluster. *)
Record TranspositionTable : Type := MkTT {
  clusterCount : Z;
  table : Z;
  mem : Z;
  generation8 : Z;
  large_pages_used : bool;
  mbSize_last_used : Z;
  hashfilename : string;
  cells : list Cluster
}.

(** A function of [tt.cpp] returns, or ends the process with [exit]. *)
Inductive outcome (A : Type) : Type :=
| Returns (a : A)
| Exits (w : World).
Arguments Returns {A} a.
Arguments Exits {A} w.

Definition log (e : event) (w : World) : World :=
  {| use_large_pages := use_large_pages w; got_privileges := got_privileges w;
     files := files w; trace := e :: trace w |}.

Definition set_use_large_pages (v : Z) (w : World) : World :=
  {| use_large_pages := v; got_privileges := got_privileges w;
     files := files w; trace := trace w |}.

Definition set_got_privileges (v : Z) (w : World) : World :=
  {| use_large_pages := use_large_pages w; got_privileges := v;
     files := files w; trace := trace w |}.

Definition set_file (name : string) (image : list Cluster) (w : World) : World :=
  {| use_large_pages := use_large_pages w; got_privileges := got_privileges w;
     files := <[name := image]> (files w); trace := trace w |}.

Definition set_mbSize_last_used (v : Z) (tt : TranspositionTable) : TranspositionTable :=
  {| clusterCount := clusterCount tt; table := table tt; mem := mem tt;
     generation8 := generation8 tt; large_pages_used := large_pages_used tt;
     mbSize_last_used := v; hashfilename := hashfilename tt; cells := cells tt |}.

Definition set_cells (v : list Cluster) (tt : TranspositionTable) : TranspositionTable :=
  {| clusterCount := clusterCount tt; table := table tt; mem := mem tt;
     generation8 := generation8 tt; large_pages_used := large_pages_used tt;
     mbSize_last_used := mbSize_last_used tt; hashfilename := hashfilename tt;
     cells := v |}.

(** Modelled from the spec: the table before it is sized, as the lifecycle
    has it (no allocation, no cluster, generation zero). *)
Definition TranspositionTable_new : TranspositionTable :=
  {| clusterCount := 0; table := 0; mem := 0; generation8 := 0;
     large_pages_used := false; mbSize_last_used := 0; hashfilename := EmptyString;
     cells := [] |}.

(** Modelled from the spec: [msb] of [bitboard.h], the index of the highest
    set bit, the floor of the binary logarithm. *)
Definition msb (b : Z) : Z := Z.log2 b.

Section WithLayout.

Variable L : Layout.

Definition zero_entry : TTEntry :=
  {| key16 := 0; move16 := 0; value16 := 0; eval16 := 0; genBound8 := 0; depth8 := 0 |}.

(** A cluster whose bytes are all zero. *)
Definition zero_cluster : Cluster :=
  {| entry := replicate (Z.to_nat (ClusterSize L)) zero_entry;
     padding := replicate (Z.to_nat (PaddingSize L)) 0 |}.

(** [Get_LockMemory_Privileges()]: the answer of the Windows token calls. *)
Definition Get_LockMemory_Privileges (os : Os) : bool := lock_memory_privilege os.

(** [Try_Get_LockMemory_Privileges()]. *)
Definition Try_Get_LockMemory_Privileges (os : Os) (w : World) : World :=
  let w := set_use_large_pages 0 w in
  if negb (option_Large_Pages os) then w
  else
    let w :=
      if got_privileges w =? -1 then
        if Get_LockMemory_Privileges os
        then set_got_privileges 1 w
        else set_got_privileges 0 (log SayNoPrivilege w)
      else w in
    if got_privileges w =? 0 then w
    else set_use_large_pages 1 w.

(** The cluster count [resize] computes for a size in megabytes. *)
Definition newClusterCount (mbSize : Z) : Z :=
  Cint.to_size_t
    (Z.shiftl 1 (msb (Cint.to_size_t (mbSize * 1024 * 1024) / sizeofCluster L))).

(** The release of the previous allocation, the same in both branches. *)
Definition release (tt : TranspositionTable) (w : World) : World :=
  if mem tt =? 0 then w
  else if large_pages_used tt then log (VirtualFree (mem tt)) w
  else log (Free (mem tt)) w.

(** [(uintptr_t(mem) + CacheLineSize - 1) & ~(CacheLineSize - 1)]. *)
Definition aligned (p : Z) : Z :=
  Z.land (Cint.to_size_t (p + CacheLineSize L - 1))
         (Cint.to_size_t (Z.lnot (CacheLineSize L - 1))).

(** The end of [resize]: the test of [mem] and the assignment of [table].
    Both allocators hand out zeroed memory. *)
Definition finish (mbSize count p : Z) (large : bool) (tt : TranspositionTable) (w : World)
  : outcome (TranspositionTable * World) :=
  if p =? 0 then Exits (log (SayFailed mbSize) w)
  else Returns
    ({| clusterCount := count; table := aligned p; mem := p;
        generation8 := generation8 tt; large_pages_used := large;
        mbSize_last_used := mbSize_last_used tt; hashfilename := hashfilename tt;
        cells := replicate (Z.to_nat count) zero_cluster |}, w).

(** [TranspositionTable::resize(mbSize)]. *)
Definition resize (os : Os) (mbSize : Z) (tt : TranspositionTable) (w : World)
  : outcome (TranspositionTable * World) :=
  let mbSize := if mbSize =? 0 then mbSize_last_used tt else mbSize in
  if mbSize =? 0 then Returns (tt, w)
  else
    let tt := set_mbSize_last_used mbSize tt in
    let w := Try_Get_LockMemory_Privileges os w in
    let count := newClusterCount mbSize in
    if (count =? clusterCount tt)
       && (((use_large_pages w =? 1) && large_pages_used tt)
           || ((use_large_pages w =? 0) && negb (large_pages_used tt)))
    then Returns (tt, w)
    else
      if use_large_pages w <? 1 then
        let w := release tt w in
        let memsize := Cint.to_size_t (count * sizeofCluster L + CacheLineSize L - 1) in
        let p := calloc os memsize in
        finish mbSize count p false tt (log (Calloc memsize p) w)
      else
        let w := release tt w in
        let memsize := Cint.to_int64 (Cint.to_size_t (count * sizeofCluster L)) in
        let p := virtual_alloc os memsize in
        let w := log (VirtualAlloc memsize p) w in
        if p =? 0 then
          let w := set_use_large_pages 0 (log (SayFailedLargePages mbSize) w) in
          let memsize :=
            Cint.to_int64 (Cint.to_size_t (count * sizeofCluster L + CacheLineSize L - 1)) in
          let p := calloc os (Cint.to_size_t memsize) in
          finish mbSize count p false tt (log (Calloc (Cint.to_size_t memsize) p) w)
        else
          finish mbSize count p true tt (log (SayLargePages (Z.shiftr memsize 20)) w).

(** [TranspositionTable::clear()]: the first [clusterCount] clusters are
    overwritten with zeros. *)
Definition clear (tt : TranspositionTable) : TranspositionTable :=
  let n := Z.to_nat (clusterCount tt) in
  set_cells (replicate n zero_cluster ++ drop n (cells tt)) tt.

(** [TranspositionTable::set_hash_file_name(fname)]. *)
Definition set_hash_file_name (fname : string) (tt : TranspositionTable) : TranspositionTable :=
  {| clusterCount := clusterCount tt; table := table tt; mem := mem tt;
     generation8 := generation8 tt; large_pages_used := large_pages_used tt;
     mbSize_last_used := mbSize_last_used tt; hashfilename := fname;
     cells := cells tt |}.

(** [TranspositionTable::save()]: when the stream opens the file is
    truncated and the first [clusterCount] clusters are written to it; the
    result is [b_stream.good()]. *)
Definition save (os : Os) (tt : TranspositionTable) (w : World) : bool * World :=
  if ofstream_opens os then
    let image := take (Z.to_nat (clusterCount tt)) (cells tt) in
    let written := take (Z.to_nat (disk_room os)) image in
    (Z.of_nat (length image) <=? disk_room os, set_file (hashfilename tt) written w)
  else (false, w).

(** [TranspositionTable::load()]: [tellg()] is the file's length in bytes,
    -1 when the file did not open; [read] stores what the file holds, up to
    [clusterCount] clusters, at the start of the table. *)
Definition load (os : Os) (tt : TranspositionTable) (w : World)
  : outcome (TranspositionTable * World) :=
  let file := files w !! hashfilename tt in
  let size :=
    match file with
    | Some image => Z.of_nat (length image) * sizeofCluster L
    | None => -1
    end in
  match resize os (Cint.to_size_t (Cint.cdiv (Cint.cdiv size 1024) 1024)) tt w with
  | Exits w' => Exits w'
  | Returns (tt', w') =>
      match file with
      | None => Returns (tt', w')
      | Some image =>
          let got := take (Z.to_nat (clusterCount tt')) image in
          Returns (set_cells (got ++ drop (length got) (cells tt')) tt', w')
      end
  end.

(** Modelled from the spec: [first_entry] of [tt.h], the cluster a key
    selects by its low bits. The result is the cluster's index. *)
Definition first_entry (tt : TranspositionTable) (key : Z) : Z :=
  Z.land (Cint.to_size_t key) (Cint.to_size_t (clusterCount tt - 1)).

(** The first loop of [probe], from entry [i] on: the entry that is empty or
    holds [k16], with [found], its index and its value after the refresh. *)
Fixpoint scan (g k16 : Z) (tte : list TTEntry) (i : nat) : option (bool * nat * TTEntry) :=
  match tte with
  | [] => None
  | e :: rest =>
      if (key16 e =? 0) || (key16 e =? k16) then
        let e' :=
          if negb (Z.land (genBound8 e) 252 =? g) && negb (key16 e =? 0)
          then {| key16 := key16 e; move16 := move16 e; value16 := value16 e;
                  eval16 := eval16 e;
                  genBound8 := Cint.to_uint8 (genBound8 e + 4);
                  depth8 := depth8 e |}
          else e in
        Some (negb (key16 e =? 0), i, e')
      else scan g k16 rest (S i)
  end.

(** The replace value of an entry. *)
Definition replace_value (g : Z) (e : TTEntry) : Z :=
  depth8 e - Z.land (259 + g - genBound8 e) 252 * 2.

(** The second loop of [probe], from entry [i] on: [replace] is the index
    and the value of the candidate so far. *)
Fixpoint pick (g : Z) (tte : list TTEntry) (i : nat) (replace : nat * TTEntry) : nat :=
  match tte with
  | [] => fst replace
  | e :: rest =>
      if replace_value g (snd replace) >? replace_value g e
      then pick g rest (S i) (i, e)
      else pick g rest (S i) replace
  end.

(** [TranspositionTable::probe(key, found)]: [found], the slot returned (the
    index of its cluster and its index in the cluster) and the table, whose
    slot may have been refreshed. [None] when the cluster lies outside the
    table, which the source does not check. *)
Definition probe (tt : TranspositionTable) (key : Z)
  : option (bool * (nat * nat) * TranspositionTable) :=
  let c := Z.to_nat (first_entry tt key) in
  let k16 := Z.shiftr (Cint.to_size_t key) 48 in
  match cells tt !! c with
  | None => None
  | Some cl =>
      match scan (generation8 tt) k16 (entry cl) 0 with
      | Some (found, i, e') =>
          let cl' := {| entry := <[i := e']> (entry cl); padding := padding cl |} in
          Some (found, (c, i), set_cells (<[c := cl']> (cells tt)) tt)
      | None =>
          match entry cl with
          | [] => None
          | e0 :: rest => Some (false, (c, pick (generation8 tt) rest 1 (0%nat, e0)), tt)
          end
      end
  end.

(** The entry a slot reference points at. *)
Definition slot (tt : TranspositionTable) (ref : nat * nat) : option TTEntry :=
  match cells tt !! fst ref with
  | Some cl => entry cl !! snd ref
  | None => None
  end.

(** The inner loop of [hashfull] over one cluster. *)
Definition count_cluster (g : Z) (cnt : Z) (cl : Cluster) : Z :=
  foldl (fun cnt e => if Z.land (genBound8 e) 252 =? g then cnt + 1 else cnt) cnt (entry cl).

(** [TranspositionTable::hashfull()], on a table of at least
    [1000 / ClusterSize] clusters (every sized table has more). *)
Definition hashfull (tt : TranspositionTable) : Z :=
  foldl (count_cluster (generation8 tt)) 0
        (take (Z.to_nat (Cint.cdiv 1000 (ClusterSize L))) (cells tt)).

End WithLayout.

(** The layout of the engine this table comes from: three entries and two
    padding bytes in a cluster of 32 bytes, cache lines of 64 bytes. *)
Definition layout_3_32 : Layout :=
  {| ClusterSize := 3; PaddingSize := 2; sizeofCluster := 32; CacheLineSize := 64 |}.

(** The cluster count is a power of two that fits [size_t]. *)
Definition power_of_two_count (tt : TranspositionTable) : Prop :=
  exists k, 0 <= k < 64 /\ clusterCount tt = 2 ^ k.

(** The memory the table points at holds [clusterCount] clusters. *)
Definition allocated (tt : TranspositionTable) : Prop :=
  length (cells tt) = Z.to_nat (clusterCount tt).

(** A size in megabytes whose byte count fits [size_t], for clusters of at
    most a megabyte. *)
Definition valid_size (L : Layout) (mbSize : Z) : Prop :=
  0 < mbSize /\ mbSize * 1048576 < 2 ^ 64 /\ 0 < sizeofCluster L <= 1048576.

(** The megabyte size a call works with: the last one used when it is given
    zero. *)
Definition effective_size (mbSize : Z) (tt : TranspositionTable) : Z :=
  if mbSize =? 0 then mbSize_last_used tt else mbSize.

(** Every cluster of the table has [ClusterSize] entries, and the table has
    the [1000 / ClusterSize] clusters [hashfull] reads. *)
Definition well_formed (L : Layout) (tt : TranspositionTable) : Prop :=
  Forall (fun cl => Z.of_nat (length (entry cl)) = ClusterSize L) (cells tt) /\
  Cint.cdiv 1000 (ClusterSize L) <= Z.of_nat (length (cells tt)).

Definition sumZ (l : list Z) : Z := foldr Z.add 0 l.

(** The slots of a list whose generation bits are [g], counted. *)
Definition matching (g : Z) (e : TTEntry) : bool := Z.land (genBound8 e) 252 =? g.

Definition matches (g : Z) (l : list TTEntry) : Z :=
  sumZ ((fun e => if matching g e then 1 else 0) <$> l).

(** The clusters [hashfull] scans. *)
Definition scanned (L : Layout) (tt : TranspositionTable) : list Cluster :=
  take (Z.to_nat (Cint.cdiv 1000 (ClusterSize L))) (cells tt).

(** The table with entry [e] written to slot [i] of cluster [c], as the
    caller of [probe] does with the slot it is handed. *)
Definition write_slot (c i : nat) (e : TTEntry) (tt : TranspositionTable) : TranspositionTable :=
  match cells tt !! c with
  | Some cl =>
      set_cells (<[c := {| entry := <[i := e]> (entry cl); padding := padding cl |}]> (cells tt)) tt
  | None => tt
  end.

(** The clusters are a power of two of bytes, at most a megabyte, and the
    table is a power of two of clusters that fill whole megabytes, fewer than
    [2 ^ 63] bytes: what [resize] builds from a valid size. *)
Definition whole_megabytes (L : Layout) (tt : TranspositionTable) : Prop :=
  exists k j,
    sizeofCluster L = 2 ^ j /\ clusterCount tt = 2 ^ k /\
    0 <= j <= 20 /\ 0 <= k /\ 20 <= k + j < 63.

(** The events that allocate or release memory. *)
Definition is_allocation (e : event) : bool :=
  match e with
  | Free _ | VirtualFree _ | Calloc _ _ | VirtualAlloc _ _ => true
  | _ => false
  end.

Definition allocations (w : World) : list event :=
  filter (fun e => is_allocation e = true) (trace w).

(** The machine of the examples: no large pages, an allocator that always
    answers the address 4096, a disk with room. *)
Definition os_plain : Os :=
  {| option_Large_Pages := false; lock_memory_privilege := false;
     calloc := fun _ => 4096; virtual_alloc := fun _ => 0;
     ofstream_opens := true; disk_room := 2 ^ 40 |}.

Definition world_start : World :=
  {| use_large_pages := -1; got_privileges := -1; files := ∅; trace := [] |}.

(** The table of one megabyte that [resize] builds from the table as
    constructed: its generation is zero. *)
Definition table_1mb : TranspositionTable :=
  {| clusterCount := 32768; table := 4096; mem := 4096; generation8 := 0;
     large_pages_used := false; mbSize_last_used := 1; hashfilename := EmptyString;
     cells := replicate (Z.to_nat 32768) (zero_cluster layout_3_32) |}.

(** The same table during the first search, whose generation is 4. *)
Definition table_searching : TranspositionTable :=
  {| clusterCount := 32768; table := 4096; mem := 4096; generation8 := 4;
     large_pages_used := false; mbSize_last_used := 1; hashfilename := EmptyString;
     cells := replicate (Z.to_nat 32768) (zero_cluster layout_3_32) |}.

(** A table of one megabyte with an entry in its first slot. *)
Definition table_with_entry : TranspositionTable :=
  {| clusterCount := 32768; table := 4096; mem := 4096; generation8 := 4;
     large_pages_used := false; mbSize_last_used := 1; hashfilename := EmptyString;
     cells :=
       {| entry := [ {| key16 := 48879; move16 := 796; value16 := 35; eval16 := 20;
                        genBound8 := 7; depth8 := 12 |}; zero_entry; zero_entry ];
          padding := [0; 0] |}
       :: replicate (Z.to_nat 32767) (zero_cluster layout_3_32) |}.

(** What the first loop of [probe] does to the entry it returns: an entry
    in use whose generation bits are not the current ones has 4 added to its
    generation byte. *)
Definition refresh (g : Z) (e : TTEntry) : TTEntry :=
  if negb (Z.land (genBound8 e) 252 =? g) && negb (key16 e =? 0)
  then {| key16 := key16 e; move16 := move16 e; value16 := value16 e;
          eval16 := eval16 e;
          genBound8 := Cint.to_uint8 (genBound8 e + 4);
          depth8 := depth8 e |}
  else e.

(** An entry the first loop of [probe] stops at for the truncated key [k16]:
    it is empty or holds [k16]. *)
Definition stops (k16 : Z) (e : TTEntry) : bool := (key16 e =? 0) || (key16 e =? k16).

(** Two tables that differ in the content of their memory at most. *)
Definition same_header (a b : TranspositionTable) : Prop :=
  clusterCount a = clusterCount b /\ table a = table b /\ mem a = mem b /\
  generation8 a = generation8 b /\ large_pages_used a = large_pages_used b /\
  mbSize_last_used a = mbSize_last_used b /\ hashfilename a = hashfilename b.

(** The truncated key [probe] looks for. *)
Definition key16_of (key : Z) : Z := Z.shiftr (Cint.to_size_t key) 48.

(** A table of one megabyte whose first cluster is full. *)
Definition table_full_cluster : TranspositionTable :=
  {| clusterCount := 32768; table := 4096; mem := 4096; generation8 := 8;
     large_pages_used := false; mbSize_last_used := 1; hashfilename := EmptyString;
     cells :=
       {| entry := [ {| key16 := 48879; move16 := 796; value16 := 35; eval16 := 20;
                        genBound8 := 5; depth8 := 20 |};
                     {| key16 := 4660; move16 := 11; value16 := -4; eval16 := 0;
                        genBound8 := 6; depth8 := 14 |};
                     {| key16 := 51966; move16 := 529; value16 := 70; eval16 := 66;
                        genBound8 := 1; depth8 := 30 |} ];
          padding := [0; 0] |}
       :: replicate (Z.to_nat 32767) (zero_cluster layout_3_32) |}.

(** A machine that grants the privilege for large pages and has none to
    give: [VirtualAlloc] fails, [calloc] answers the address 4096. *)
Definition os_no_large_pages : Os :=
  {| option_Large_Pages := true; lock_memory_privilege := true;
     calloc := fun _ => 4096; virtual_alloc := fun _ => 0;
     ofstream_opens := true; disk_room := 2 ^ 40 |}.

(** A machine where large pages are asked for and the privilege is
    denied. *)
Definition os_plain_large_pages_wanted : Os :=
  {| option_Large_Pages := true; lock_memory_privilege := false;
     calloc := fun _ => 4096; virtual_alloc := fun _ => 0;
     ofstream_opens := true; disk_room := 2 ^ 40 |}.

(** *** [resize] *)

Lemma newClusterCount_pow2 L mbSize :
  valid_size L mbSize ->
  newClusterCount L mbSize = 2 ^ Z.log2 (mbSize * 1048576 / sizeofCluster L) /\
  1 <= mbSize * 1048576 / sizeofCluster L < 2 ^ 64.
Proof.
  intros (Hmb & Hfit & Hsz). unfold newClusterCount, msb.
  replace (mbSize * 1024 * 1024) with (mbSize * 1048576) by lia.
  rewrite (Cint.to_size_t_small (mbSize * 1048576)) by lia.
  set (q := mbSize * 1048576 / sizeofCluster L).
  assert (Hq : 1 <= q < 2 ^ 64).
  { unfold q. split.
    - apply Z.div_le_lower_bound; lia.
    - apply Z.div_lt_upper_bound; nia. }
  split; [|exact Hq].
  rewrite Z.shiftl_1_l.
  apply Cint.to_size_t_small.
  pose proof (Z.log2_spec q ltac:(lia)) as [Hlo _].
  split; [apply Z.pow_nonneg; lia | lia].
Qed.

Lemma Try_Get_LockMemory_Privileges_mode os w :
  use_large_pages (Try_Get_LockMemory_Privileges os w) = 0 \/
  use_large_pages (Try_Get_LockMemory_Privileges os w) = 1.
Proof.
  unfold Try_Get_LockMemory_Privileges.
  destruct (option_Large_Pages os); simpl; [|left; reflexivity].
  destruct (got_privileges w =? -1); simpl.
  - unfold Get_LockMemory_Privileges.
    destruct (lock_memory_privilege os); simpl; [right | left]; reflexivity.
  - destruct (got_privileges w =? 0); simpl; [left | right]; reflexivity.
Qed.

Lemma Try_Get_LockMemory_Privileges_allocations os w :
  allocations (Try_Get_LockMemory_Privileges os w) = allocations w /\
  files (Try_Get_LockMemory_Privileges os w) = files w.
Proof.
  unfold Try_Get_LockMemory_Privileges, allocations.
  destruct (option_Large_Pages os); simpl; [|split; reflexivity].
  destruct (got_privileges w =? -1); simpl.
  - unfold Get_LockMemory_Privileges.
    destruct (lock_memory_privilege os); simpl; split; reflexivity.
  - destruct (got_privileges w =? 0); simpl; split; reflexivity.
Qed.

(** The two ways [resize] goes on a non-zero size: it returns early, or it
    releases, allocates and ends in [finish]. *)
Lemma resize_cases L os mbSize tt w :
  effective_size mbSize tt <> 0 ->
  let mb := effective_size mbSize tt in
  let tt1 := set_mbSize_last_used mb tt in
  let w1 := Try_Get_LockMemory_Privileges os w in
  (resize L os mbSize tt w = Returns (tt1, w1) /\
   newClusterCount L mb = clusterCount tt /\
   (use_large_pages w1 =? 1) = large_pages_used tt)
  \/
  (exists p large w2,
     resize L os mbSize tt w = finish L mb (newClusterCount L mb) p large tt1 w2 /\
     files w2 = files w /\
     (p = 0 -> exists n, calloc os n = 0)).
Proof.
  intros Hmb mb tt1 w1. unfold resize. fold (effective_size mbSize tt). fold mb.
  destruct (Z.eqb_spec mb 0) as [|_]; [contradiction|].
  fold tt1 w1.
  assert (Hfiles : files w1 = files w)
    by apply Try_Get_LockMemory_Privileges_allocations.
  assert (Hrel : forall w', files (release tt1 w') = files w').
  { intros w'. unfold release. destruct (mem tt1 =? 0); [reflexivity|].
    destruct (large_pages_used tt1); reflexivity. }
  destruct (Try_Get_LockMemory_Privileges_mode os w) as [Hm|Hm]; fold w1 in Hm.
  - (* the call wants ordinary pages *)
    rewrite Hm. simpl (0 =? 1). simpl (0 =? 0). simpl (0 <? 1).
    rewrite andb_false_l, orb_false_l, andb_true_l.
    destruct (newClusterCount L mb =? clusterCount tt1) eqn:Ec;
      [destruct (large_pages_used tt1) eqn:El|]; simpl.
    + right. eexists _, _, _. split; [reflexivity|]. split.
      * simpl. rewrite Hrel. exact Hfiles.
      * intros Hp. eexists. exact Hp.
    + left. apply Z.eqb_eq in Ec. repeat split; try assumption. symmetry. exact El.
    + right. eexists _, _, _. split; [reflexivity|]. split.
      * simpl. rewrite Hrel. exact Hfiles.
      * intros Hp. eexists. exact Hp.
  - (* the call wants large pages *)
    rewrite Hm. simpl (1 =? 1). simpl (1 =? 0). simpl (1 <? 1).
    rewrite andb_true_l, andb_false_l, orb_false_r.
    destruct ((newClusterCount L mb =? clusterCount tt1) && large_pages_used tt1) eqn:Ec.
    + left. apply andb_true_iff in Ec as [Ec El]. apply Z.eqb_eq in Ec.
      repeat split; try assumption. symmetry. exact El.
    + right.
      destruct (virtual_alloc os _ =? 0) eqn:Ev.
      * eexists _, _, _. split; [reflexivity|]. split.
        -- simpl. rewrite Hrel. exact Hfiles.
        -- intros Hp. eexists. exact Hp.
      * eexists _, _, _. split; [reflexivity|]. split.
        -- simpl. rewrite Hrel. exact Hfiles.
        -- intros Hp. apply Z.eqb_neq in Ev. contradiction.
Qed.

(** What [resize] leaves behind when it returns, on either way. *)
Lemma resize_returned L os mbSize tt w tt' w' :
  effective_size mbSize tt <> 0 ->
  resize L os mbSize tt w = Returns (tt', w') ->
  clusterCount tt' = newClusterCount L (effective_size mbSize tt) /\
  mbSize_last_used tt' = effective_size mbSize tt /\
  hashfilename tt' = hashfilename tt /\
  generation8 tt' = generation8 tt /\
  files w' = files w /\
  (allocated tt -> allocated tt').
Proof.
  intros Hmb Hr.
  destruct (resize_cases L os mbSize tt w Hmb) as [(E & Hc & _) | (p & large & w2 & E & Hf & _)];
    rewrite E in Hr.
  - inversion Hr; subst. simpl. repeat split; try easy.
    apply Try_Get_LockMemory_Privileges_allocations.
  - unfold finish in Hr. destruct (p =? 0); [discriminate|].
    inversion Hr; subst. simpl. repeat split; try easy.
    intros _. unfold allocated. simpl. apply length_replicate.
Qed.

(** [resize] returns when the allocator does not run out of memory. *)
Lemma resize_returns L os mbSize tt w :
  (forall n, calloc os n <> 0) ->
  exists tt' w', resize L os mbSize tt w = Returns (tt', w').
Proof.
  intros Hc. destruct (Z.eq_dec (effective_size mbSize tt) 0) as [Hz|Hnz].
  - exists tt, w. unfold resize. fold (effective_size mbSize tt). rewrite Hz. reflexivity.
  - destruct (resize_cases L os mbSize tt w Hnz) as [(E & _) | (p & large & w2 & E & _ & Hp)].
    + eauto.
    + rewrite E. unfold finish. destruct (Z.eqb_spec p 0) as [Hz|_].
      * destruct (Hp Hz) as [n Hn]. destruct (Hc n Hn).
      * eauto.
Qed.

(** Given zero, [resize] works with the last size used. *)
Lemma resize_zero_last_used L os tt w :
  resize L os 0 tt w = resize L os (mbSize_last_used tt) tt w.
Proof.
  unfold resize. simpl (0 =? 0). cbv iota.
  destruct (mbSize_last_used tt =? 0) eqn:E; rewrite ?E; reflexivity.
Qed.

(** The cluster count [resize] leaves when it returns from a valid size. *)
Lemma resize_cluster_count_aux L os mbSize tt w tt' w' :
  valid_size L mbSize ->
  resize L os mbSize tt w = Returns (tt', w') ->
  clusterCount tt' = 2 ^ Z.log2 (mbSize * 1048576 / sizeofCluster L) /\
  1 <= mbSize * 1048576 / sizeofCluster L < 2 ^ 64.
Proof.
  intros Hv Hr.
  destruct (newClusterCount_pow2 L mbSize Hv) as [Hn Hq].
  destruct Hv as (Hmb & Hfit & Hsz).
  assert (He : effective_size mbSize tt = mbSize).
  { unfold effective_size. destruct (Z.eqb_spec mbSize 0); [lia | reflexivity]. }
  destruct (resize_returned L os mbSize tt w tt' w') as [Hc _];
    [rewrite He; lia | exact Hr |].
  rewrite He, Hn in Hc. split; assumption.
Qed.

(** C4. For a valid size in megabytes [resize], when it returns, leaves
    [clusterCount] at two to the floor of the binary logarithm of
    [mbSize * 1024 * 1024 / sizeof(Cluster)]: a power of two whose clusters
    fit the requested bytes, and the largest such; and it returns whenever
    the allocator finds memory. *)
Theorem resize_cluster_count L os mbSize tt w :
  valid_size L mbSize ->
  ((forall n, calloc os n <> 0) ->
     exists tt' w', resize L os mbSize tt w = Returns (tt', w')) /\
  (forall tt' w',
     resize L os mbSize tt w = Returns (tt', w') ->
     clusterCount tt' = 2 ^ Z.log2 (mbSize * 1024 * 1024 / sizeofCluster L) /\
     clusterCount tt' * sizeofCluster L <= mbSize * 1024 * 1024 /\
     (forall k, 0 <= k -> 2 ^ k * sizeofCluster L <= mbSize * 1024 * 1024 ->
        2 ^ k <= clusterCount tt')).
Proof.
  intros Hv. split; [apply resize_returns|].
  intros tt' w' Hr.
  destruct (resize_cluster_count_aux L os mbSize tt w tt' w' Hv Hr) as [Hc Hq].
  destruct Hv as (Hmb & Hfit & Hsz).
  replace (mbSize * 1024 * 1024) with (mbSize * 1048576) by lia.
  set (q := mbSize * 1048576 / sizeofCluster L) in *.
  pose proof (Z.log2_spec q ltac:(lia)) as [Hlo Hhi].
  assert (Hqs : q * sizeofCluster L <= mbSize * 1048576).
  { unfold q. rewrite Z.mul_comm. apply Z.mul_div_le. lia. }
  split; [exact Hc|]. split.
  - rewrite Hc. nia.
  - intros k Hk Hfits. rewrite Hc.
    apply Z.pow_le_mono_r; [lia|].
    assert (Hkq : 2 ^ k <= q).
    { unfold q. apply Z.div_le_lower_bound; lia. }
    apply Z.log2_le_mono in Hkq. rewrite Z.log2_pow2 in Hkq by lia. exact Hkq.
Qed.

(** C9. A [resize] whose computed cluster count is the current one, in the
    allocation mode the table was allocated in, returns with the allocation,
    the table pointer, the cluster count, the mode, the generation and every
    slot as they were, and calls neither allocator; the call records the
    size it was given in [mbSize_last_used]. *)
Theorem resize_same_size_keeps_table L os mbSize tt w :
  mbSize <> 0 ->
  newClusterCount L mbSize = clusterCount tt ->
  (use_large_pages (Try_Get_LockMemory_Privileges os w) =? 1) = large_pages_used tt ->
  exists tt' w',
    resize L os mbSize tt w = Returns (tt', w') /\
    tt' = set_mbSize_last_used mbSize tt /\
    mem tt' = mem tt /\ table tt' = table tt /\ cells tt' = cells tt /\
    clusterCount tt' = clusterCount tt /\
    large_pages_used tt' = large_pages_used tt /\
    generation8 tt' = generation8 tt /\
    allocations w' = allocations w.
Proof.
  intros Hmb Hc Hmode.
  exists (set_mbSize_last_used mbSize tt), (Try_Get_LockMemory_Privileges os w).
  split.
  - unfold resize. destruct (Z.eqb_spec mbSize 0) as [|_]; [contradiction|].
    destruct (Z.eqb_spec mbSize 0) as [|_]; [contradiction|].
    simpl (clusterCount _). simpl (large_pages_used _).
    rewrite Hc, Z.eqb_refl, Hmode. simpl.
    destruct (Try_Get_LockMemory_Privileges_mode os w) as [Hm|Hm].
    + rewrite Hm in Hmode |- *. simpl in Hmode. rewrite <- Hmode. reflexivity.
    + rewrite Hm in Hmode |- *. simpl in Hmode. rewrite <- Hmode. reflexivity.
  - repeat split; try reflexivity.
    apply Try_Get_LockMemory_Privileges_allocations.
Qed.

(** C10. On a table whose last-used size is zero, as it is before any
    [resize] got past its first test, [resize(0)] returns with the table and
    the world untouched, the cluster count of the new table staying zero;
    and after a [resize(N)] that returned, for [N] other than zero,
    [resize(0)] is [resize(N)]. *)
Theorem resize_zero L :
  (forall os tt w,
     mbSize_last_used tt = 0 -> resize L os 0 tt w = Returns (tt, w)) /\
  (forall os w,
     resize L os 0 TranspositionTable_new w = Returns (TranspositionTable_new, w) /\
     clusterCount TranspositionTable_new = 0) /\
  (forall os os' N tt w tt' w',
     N <> 0 ->
     resize L os N tt w = Returns (tt', w') ->
     mbSize_last_used tt' = N /\
     resize L os' 0 tt' w' = resize L os' N tt' w').
Proof.
  split; [|split].
  - intros os tt w H. unfold resize. simpl. rewrite H. reflexivity.
  - intros os w. split; reflexivity.
  - intros os os' N tt w tt' w' HN Hr.
    assert (He : effective_size N tt = N).
    { unfold effective_size. destruct (Z.eqb_spec N 0); [contradiction | reflexivity]. }
    destruct (resize_returned L os N tt w tt' w') as (_ & Hlast & _);
      [rewrite He; exact HN | exact Hr |].
    rewrite He in Hlast. split; [exact Hlast|].
    rewrite resize_zero_last_used, Hlast. reflexivity.
Qed.

(** *** [clear], [probe] and [hashfull] *)

Lemma first_entry_in_table tt key :
  power_of_two_count tt -> 0 <= first_entry tt key < clusterCount tt.
Proof.
  intros (k & Hk & Hc). unfold first_entry. rewrite Hc.
  assert (Hp : 0 < 2 ^ k) by (apply Z.pow_pos_nonneg; lia).
  assert (Hk64 : 2 ^ k <= 2 ^ 63) by (apply Z.pow_le_mono_r; lia).
  rewrite (Cint.to_size_t_small (2 ^ k - 1)) by lia.
  replace (2 ^ k - 1) with (Z.ones k) by (rewrite Z.ones_equiv; lia).
  rewrite Z.land_ones by lia. apply Z.mod_pos_bound. exact Hp.
Qed.

Lemma clear_lookup L tt c :
  (c < Z.to_nat (clusterCount tt))%nat ->
  cells (clear L tt) !! c = Some (zero_cluster L).
Proof.
  intros Hc. unfold clear. simpl.
  rewrite lookup_app_l by (rewrite length_replicate; exact Hc).
  apply lookup_replicate_2. exact Hc.
Qed.

Lemma zero_cluster_entry L :
  0 < ClusterSize L ->
  entry (zero_cluster L)
    = zero_entry :: replicate (Z.to_nat (ClusterSize L - 1)) zero_entry.
Proof.
  intros H. unfold zero_cluster. simpl.
  replace (Z.to_nat (ClusterSize L)) with (S (Z.to_nat (ClusterSize L - 1))) by lia.
  reflexivity.
Qed.

Lemma scan_zero g k16 rest :
  scan g k16 (zero_entry :: rest) 0 = Some (false, 0%nat, zero_entry).
Proof. simpl. rewrite andb_false_r. reflexivity. Qed.

(** C2. On a table of a power of two of clusters, [probe] after [clear]
    finds nothing for any key: it returns [found = false] and a slot whose
    truncated key is zero, and leaves the cleared table as it was. *)
Theorem probe_after_clear L tt key :
  0 < ClusterSize L ->
  power_of_two_count tt ->
  exists ref tt' e,
    probe (clear L tt) key = Some (false, ref, tt') /\
    slot tt' ref = Some e /\ key16 e = 0 /\
    cells tt' = cells (clear L tt).
Proof.
  intros HL Hpow.
  pose proof (first_entry_in_table (clear L tt) key Hpow) as Hc.
  change (clusterCount (clear L tt)) with (clusterCount tt) in Hc.
  set (c := Z.to_nat (first_entry (clear L tt) key)).
  assert (Hlook : cells (clear L tt) !! c = Some (zero_cluster L)).
  { apply clear_lookup. unfold c. lia. }
  assert (Hscan : scan (generation8 (clear L tt)) (Z.shiftr (Cint.to_size_t key) 48)
                       (entry (zero_cluster L)) 0
                  = Some (false, 0%nat, zero_entry)).
  { rewrite zero_cluster_entry by exact HL. apply scan_zero. }
  assert (Hcl : {| entry := <[0%nat := zero_entry]> (entry (zero_cluster L));
                  padding := padding (zero_cluster L) |} = zero_cluster L).
  { rewrite list_insert_id; [reflexivity|].
    rewrite zero_cluster_entry by exact HL. reflexivity. }
  exists (c, 0%nat). unfold probe. fold c. rewrite Hlook, Hscan, Hcl.
  rewrite (list_insert_id _ _ _ Hlook).
  eexists _, zero_entry. split; [reflexivity|].
  unfold slot. cbn [set_cells cells fst snd]. rewrite Hlook.
  rewrite zero_cluster_entry by exact HL. repeat split; reflexivity.
Qed.

Lemma sumZ_cons x l : sumZ (x :: l) = x + sumZ l.
Proof. reflexivity. Qed.

Lemma sumZ_insert {A} (f : A -> Z) (l : list A) : forall i a b,
  l !! i = Some a ->
  sumZ (f <$> <[i := b]> l) = sumZ (f <$> l) - f a + f b.
Proof.
  induction l as [|x l IH]; intros [|i] a b H; try discriminate.
  - inversion H; subst. change (<[0%nat := b]> (a :: l)) with (b :: l).
    rewrite !fmap_cons, !sumZ_cons. lia.
  - change (<[S i := b]> (x :: l)) with (x :: <[i := b]> l).
    change ((x :: l) !! S i) with (l !! i) in H.
    rewrite !fmap_cons, !sumZ_cons, (IH i a b H). lia.
Qed.

Lemma sumZ_replicate {A} (f : A -> Z) (n : nat) (x : A) :
  sumZ (f <$> replicate n x) = Z.of_nat n * f x.
Proof.
  induction n as [|n IH]; [reflexivity|].
  change (replicate (S n) x) with (x :: replicate n x).
  rewrite fmap_cons, sumZ_cons, IH. lia.
Qed.

Lemma sumZ_bounds {A} (f : A -> Z) (lo hi : Z) (l : list A) :
  Forall (fun x => lo <= f x <= hi) l ->
  Z.of_nat (length l) * lo <= sumZ (f <$> l) <= Z.of_nat (length l) * hi.
Proof.
  induction 1 as [|x l Hx _ IH]; [change (0 * lo <= 0 <= 0 * hi); lia|].
  rewrite fmap_cons, sumZ_cons. change (length (x :: l)) with (S (length l)). lia.
Qed.

Lemma sumZ_constant {A} (f : A -> Z) (v : Z) (l : list A) :
  Forall (fun x => f x = v) l -> sumZ (f <$> l) = Z.of_nat (length l) * v.
Proof.
  intros H. pose proof (sumZ_bounds f v v l) as B.
  assert (Hb : Forall (fun x => v <= f x <= v) l).
  { eapply Forall_impl; [exact H | simpl; intros; lia]. }
  specialize (B Hb). lia.
Qed.

(** The inner loop counts the matching slots of the cluster. *)
Lemma count_cluster_matches g cl : forall cnt,
  count_cluster g cnt cl = cnt + matches g (entry cl).
Proof.
  unfold count_cluster, matches.
  induction (entry cl) as [|e l IH]; intros cnt.
  - change (cnt = cnt + 0). lia.
  - rewrite fmap_cons, sumZ_cons. cbn [foldl]. rewrite IH.
    unfold matching. destruct (Z.land (genBound8 e) 252 =? g); lia.
Qed.

(** [hashfull] is the number of matching slots in the scanned clusters. *)
Lemma hashfull_matches L tt :
  hashfull L tt = sumZ ((fun cl => matches (generation8 tt) (entry cl)) <$> scanned L tt).
Proof.
  unfold hashfull, scanned. generalize (take (Z.to_nat (Cint.cdiv 1000 (ClusterSize L))) (cells tt)).
  intros l. generalize (generation8 tt). intros g.
  assert (G : forall cnt, foldl (count_cluster g) cnt l
                = cnt + sumZ ((fun cl => matches g (entry cl)) <$> l)).
  { induction l as [|cl l IH]; intros cnt.
    - change (cnt = cnt + 0). lia.
    - rewrite fmap_cons, sumZ_cons. cbn [foldl]. rewrite IH, count_cluster_matches. lia. }
  rewrite G. lia.
Qed.

Lemma scanned_clear L tt :
  (Z.to_nat (Cint.cdiv 1000 (ClusterSize L)) <= Z.to_nat (clusterCount tt))%nat ->
  scanned L (clear L tt)
    = replicate (Z.to_nat (Cint.cdiv 1000 (ClusterSize L))) (zero_cluster L).
Proof.
  intros H. unfold scanned, clear. simpl.
  rewrite take_app_le by (rewrite length_replicate; lia).
  rewrite take_replicate. f_equal. lia.
Qed.

Lemma matches_zero_cluster L g :
  0 <= ClusterSize L ->
  matches g (entry (zero_cluster L)) = if g =? 0 then ClusterSize L else 0.
Proof.
  intros H. unfold matches, zero_cluster. simpl entry. rewrite sumZ_replicate.
  change (matching g zero_entry) with (0 =? g).
  rewrite (Z.eqb_sym 0 g). destruct (g =? 0); lia.
Qed.

(** What [hashfull] answers right after [clear]. *)
Lemma hashfull_clear L tt :
  0 < ClusterSize L ->
  (Z.to_nat (Cint.cdiv 1000 (ClusterSize L)) <= Z.to_nat (clusterCount tt))%nat ->
  hashfull L (clear L tt)
    = if generation8 tt =? 0
      then Cint.cdiv 1000 (ClusterSize L) * ClusterSize L
      else 0.
Proof.
  intros HL Hn. rewrite hashfull_matches, (scanned_clear L tt Hn), sumZ_replicate.
  change (generation8 (clear L tt)) with (generation8 tt).
  rewrite matches_zero_cluster by lia.
  assert (0 <= Cint.cdiv 1000 (ClusterSize L)).
  { unfold Cint.cdiv. apply Z.quot_pos; lia. }
  destruct (generation8 tt =? 0); lia.
Qed.

Lemma matches_bounds g l : 0 <= matches g l <= Z.of_nat (length l).
Proof.
  unfold matches.
  pose proof (sumZ_bounds (fun e => if matching g e then 1 else 0) 0 1 l) as B.
  assert (Hb : Forall (fun e => 0 <= (if matching g e then 1 else 0) <= 1) l).
  { apply Forall_forall. intros e _. destruct (matching g e); lia. }
  specialize (B Hb). lia.
Qed.

Lemma scan_limit L : 0 < ClusterSize L ->
  0 <= Cint.cdiv 1000 (ClusterSize L) /\
  Cint.cdiv 1000 (ClusterSize L) * ClusterSize L <= 1000.
Proof.
  intros H. unfold Cint.cdiv. rewrite Z.quot_div_nonneg by lia. split.
  - apply Z.div_pos; lia.
  - rewrite Z.mul_comm. apply Z.mul_div_le. lia.
Qed.

Lemma length_scanned L tt :
  0 < ClusterSize L -> well_formed L tt ->
  Z.of_nat (length (scanned L tt)) = Cint.cdiv 1000 (ClusterSize L).
Proof.
  intros HL [_ Hlen]. destruct (scan_limit L HL) as [Hm _].
  unfold scanned. rewrite length_take_le by lia. lia.
Qed.

Lemma write_slot_scanned L tt c i e cl :
  (c < Z.to_nat (Cint.cdiv 1000 (ClusterSize L)))%nat ->
  cells tt !! c = Some cl ->
  scanned L (write_slot c i e tt)
    = <[c := {| entry := <[i := e]> (entry cl); padding := padding cl |}]> (scanned L tt) /\
  generation8 (write_slot c i e tt) = generation8 tt.
Proof.
  intros Hc Hcl. unfold write_slot. rewrite Hcl. split; [|reflexivity].
  unfold scanned. cbn [set_cells cells]. apply take_insert_lt. exact Hc.
Qed.

(** C7, as the code has it. On a table of full clusters that holds the
    clusters it was sized for: when the current generation is not zero
    [hashfull] answers 0 right after [clear]; at all times it lies between 0
    and [ClusterSize * (1000 / ClusterSize)], which is at most 1000; writing
    an entry of the current generation over a scanned slot of another
    generation adds one to it; and it is [ClusterSize * (1000 / ClusterSize)]
    once every scanned slot is of the current generation. *)
Theorem hashfull_counts_current_generation L tt :
  0 < ClusterSize L -> well_formed L tt -> allocated tt ->
  (generation8 tt <> 0 -> hashfull L (clear L tt) = 0) /\
  (0 <= hashfull L tt <= Cint.cdiv 1000 (ClusterSize L) * ClusterSize L /\
   Cint.cdiv 1000 (ClusterSize L) * ClusterSize L <= 1000) /\
  (forall c i old e,
     Z.of_nat c < Cint.cdiv 1000 (ClusterSize L) ->
     slot tt (c, i) = Some old ->
     matching (generation8 tt) old = false ->
     matching (generation8 tt) e = true ->
     hashfull L (write_slot c i e tt) = hashfull L tt + 1) /\
  (Forall (fun cl => Forall (fun e => matching (generation8 tt) e = true) (entry cl))
          (scanned L tt) ->
   hashfull L tt = Cint.cdiv 1000 (ClusterSize L) * ClusterSize L).
Proof.
  intros HL Hwf Halloc.
  destruct (scan_limit L HL) as [Hm Hlim].
  pose proof (length_scanned L tt HL Hwf) as Hlen.
  destruct Hwf as [Hfull Hmany].
  assert (Hfull' : Forall (fun cl => Z.of_nat (length (entry cl)) = ClusterSize L) (scanned L tt))
    by (apply Forall_take; exact Hfull).
  split; [|split; [|split]].
  - intros Hg. rewrite hashfull_clear; [|exact HL|].
    + destruct (Z.eqb_spec (generation8 tt) 0); [contradiction | reflexivity].
    + unfold allocated in Halloc. lia.
  - split; [|exact Hlim]. rewrite hashfull_matches.
    pose proof (sumZ_bounds (fun cl => matches (generation8 tt) (entry cl))
                  0 (ClusterSize L) (scanned L tt)) as B.
    assert (Hb : Forall (fun cl => 0 <= matches (generation8 tt) (entry cl) <= ClusterSize L)
                   (scanned L tt)).
    { eapply Forall_impl; [exact Hfull'|]. intros cl Hcl. cbv beta in Hcl |- *.
      pose proof (matches_bounds (generation8 tt) (entry cl)). lia. }
    specialize (B Hb). rewrite Hlen in B. lia.
  - intros c i old e Hc Hslot Hold Hnew.
    unfold slot in Hslot. simpl in Hslot.
    destruct (cells tt !! c) as [cl|] eqn:Hcl; [|discriminate].
    assert (Hcn : (c < Z.to_nat (Cint.cdiv 1000 (ClusterSize L)))%nat) by lia.
    destruct (write_slot_scanned L tt c i e cl Hcn Hcl) as [Hs Hg].
    rewrite !hashfull_matches, Hs, Hg.
    assert (Hsc : scanned L tt !! c = Some cl).
    { unfold scanned. rewrite lookup_take_lt by lia. exact Hcl. }
    rewrite (sumZ_insert _ _ c cl _ Hsc). cbn [entry].
    unfold matches at 3.
    rewrite (sumZ_insert _ _ i old e Hslot). fold (matches (generation8 tt) (entry cl)).
    rewrite Hold, Hnew. lia.
  - intros Hall. rewrite hashfull_matches.
    rewrite (sumZ_constant _ (ClusterSize L)).
    + rewrite Hlen. reflexivity.
    + apply Forall_forall. intros cl Hin.
      pose proof (proj1 (Forall_forall _ _) Hall cl Hin) as Hm1.
      pose proof (proj1 (Forall_forall _ _) Hfull' cl Hin) as Hl1. simpl in Hl1.
      unfold matches. rewrite (sumZ_constant _ 1).
      * lia.
      * eapply Forall_impl; [exact Hm1|]. intros e He. simpl. rewrite He. reflexivity.
Qed.

Lemma resize_1mb :
  resize layout_3_32 os_plain 1 TranspositionTable_new world_start
    = Returns (table_1mb,
               log (Calloc 1048639 4096) (set_use_large_pages 0 world_start)).
Proof. cbv -[replicate Z.to_nat zero_cluster]. reflexivity. Qed.

(** C7 as stated fails on the table of one megabyte sized from the table as
    constructed, whose generation is zero: right after [clear], [hashfull]
    answers 999, every scanned slot being counted. *)
Lemma hashfull_after_clear_generation_zero :
  resize layout_3_32 os_plain 1 TranspositionTable_new world_start
    = Returns (table_1mb, log (Calloc 1048639 4096) (set_use_large_pages 0 world_start)) /\
  hashfull layout_3_32 (clear layout_3_32 table_1mb) = 999.
Proof.
  split; [exact resize_1mb|].
  rewrite hashfull_clear; [reflexivity | reflexivity |].
  change (Cint.cdiv 1000 (ClusterSize layout_3_32)) with 333.
  change (clusterCount table_1mb) with 32768. lia.
Qed.

(** After the table of one megabyte was sized, [resize(0)] is [resize(1)]. *)
Lemma resize_zero_after_one_megabyte :
  resize layout_3_32 os_plain 0 table_1mb
         (log (Calloc 1048639 4096) (set_use_large_pages 0 world_start))
    = resize layout_3_32 os_plain 1 table_1mb
             (log (Calloc 1048639 4096) (set_use_large_pages 0 world_start)).
Proof.
  refine (proj2 (proj2 (proj2 (resize_zero layout_3_32)) os_plain os_plain 1
                   TranspositionTable_new world_start _ _ _ resize_1mb)).
  discriminate.
Defined.

(** *** [save] and [load] *)

Lemma pow2_split a b : 0 <= a -> 0 <= b -> 2 ^ (a + b) = 2 ^ a * 2 ^ b.
Proof. intros. apply Z.pow_add_r; assumption. Qed.

(** A table sized by [resize] from a valid size fills whole megabytes. *)
Lemma resize_whole_megabytes L os mbSize tt w tt' w' j :
  valid_size L mbSize -> mbSize * 1048576 < 2 ^ 63 ->
  sizeofCluster L = 2 ^ j -> 0 <= j <= 20 ->
  resize L os mbSize tt w = Returns (tt', w') ->
  whole_megabytes L tt'.
Proof.
  intros Hv Hfit Hj Hj20 Hr.
  destruct (resize_cluster_count_aux L os mbSize tt w tt' w' Hv Hr) as [Hc _].
  destruct Hv as (Hmb & _ & _).
  assert (Hq : mbSize * 1048576 / sizeofCluster L = mbSize * 2 ^ (20 - j)).
  { rewrite Hj. change 1048576 with (2 ^ 20).
    replace 20 with ((20 - j) + j) at 1 by lia.
    rewrite pow2_split by lia. rewrite Z.mul_assoc.
    apply Z.div_mul. apply Z.pow_nonzero; lia. }
  rewrite Hq in Hc.
  assert (Hlog : Z.log2 (mbSize * 2 ^ (20 - j)) = Z.log2 mbSize + (20 - j)).
  { rewrite Z.log2_mul_pow2 by lia. lia. }
  rewrite Hlog in Hc.
  pose proof (Z.log2_nonneg mbSize) as Hl0.
  pose proof (Z.log2_spec mbSize Hmb) as [Hlo _].
  exists (Z.log2 mbSize + (20 - j)), j.
  repeat split; try assumption; try lia.
  assert (Hlt : 2 ^ (Z.log2 mbSize + 20) < 2 ^ 63).
  { rewrite pow2_split by lia. change (2 ^ 20) with 1048576. lia. }
  apply Z.pow_lt_mono_r_iff in Hlt; lia.
Qed.

(** The size [load] hands to [resize] for the file [save] wrote, and the
    cluster count [resize] computes for it. *)
Lemma load_size L k j :
  sizeofCluster L = 2 ^ j -> 0 <= j <= 20 -> 0 <= k -> 20 <= k + j < 63 ->
  let mb := Cint.to_size_t (Cint.cdiv (Cint.cdiv (2 ^ k * sizeofCluster L) 1024) 1024) in
  mb = 2 ^ k * sizeofCluster L / 1048576 /\ mb <> 0 /\ newClusterCount L mb = 2 ^ k.
Proof.
  intros Hj Hj20 Hk Hkj mb.
  assert (Hsize : 2 ^ k * sizeofCluster L = 2 ^ (k + j - 20) * 1048576).
  { rewrite Hj, <- pow2_split by lia. change 1048576 with (2 ^ 20).
    rewrite <- pow2_split by lia. f_equal. lia. }
  assert (Hpos : 0 < 2 ^ (k + j - 20)) by (apply Z.pow_pos_nonneg; lia).
  assert (Hlt : 2 ^ (k + j - 20) < 2 ^ 43) by (apply Z.pow_lt_mono_r; lia).
  assert (Hmb : mb = 2 ^ (k + j - 20)).
  { unfold mb, Cint.cdiv. rewrite Hsize.
    replace (2 ^ (k + j - 20) * 1048576) with (2 ^ (k + j - 20) * 1024 * 1024) by lia.
    rewrite !Z.quot_mul by lia. apply Cint.to_size_t_small. lia. }
  split; [|split].
  - rewrite Hmb, Hsize, Z.div_mul by lia. reflexivity.
  - lia.
  - assert (Hv : valid_size L mb).
    { unfold valid_size. rewrite Hmb, Hj.
      assert (0 < 2 ^ j) by (apply Z.pow_pos_nonneg; lia).
      assert (2 ^ j <= 2 ^ 20) by (apply Z.pow_le_mono_r; lia).
      change (2 ^ 20) with 1048576 in *. lia. }
    destruct (newClusterCount_pow2 L mb Hv) as [Hn _]. rewrite Hn.
    rewrite Hmb, <- Hsize, Z.div_mul by (rewrite Hj; apply Z.pow_nonzero; lia).
    rewrite Z.log2_pow2 by lia. reflexivity.
Qed.

(** C3. The table [s] fills whole megabytes, as every table [resize] sized
    does, and [save] reported success. Then [load] of the same file name into
    any allocated table [t], the table as constructed and sized alike among
    them, returns whenever the allocator finds memory, and the table it
    leaves has the cluster count [resize] computes from the file's length in
    bytes, which is the count of [s], and the clusters of [s], one for
    one. *)
Theorem save_load_round_trip L os1 os2 s t w w1 :
  whole_megabytes L s -> allocated s ->
  allocated t -> hashfilename t = hashfilename s ->
  save os1 s w = (true, w1) ->
  (forall n, calloc os2 n <> 0) ->
  exists image t' w2,
    files w1 !! hashfilename s = Some image /\
    load L os2 t w1 = Returns (t', w2) /\
    clusterCount t'
      = newClusterCount L (Z.of_nat (length image) * sizeofCluster L / 1048576) /\
    clusterCount t' = clusterCount s /\
    cells t' = cells s.
Proof.
  intros (k & j & Hj & Hk & Hj20 & Hk0 & Hkj) Hs Ht Hname Hsave Hmem.
  assert (Hpos : 0 < 2 ^ k) by (apply Z.pow_pos_nonneg; lia).
  (* the file holds the clusters of [s] *)
  assert (Himage : take (Z.to_nat (clusterCount s)) (cells s) = cells s).
  { apply take_ge. unfold allocated in Hs. lia. }
  assert (Hfile : files w1 !! hashfilename s = Some (cells s)).
  { unfold save in Hsave. destruct (ofstream_opens os1); [|discriminate].
    rewrite Himage in Hsave. inversion Hsave as [[Hgood Hw1]].
    apply Z.leb_le in Hgood.
    rewrite take_ge by lia. cbn [set_file files]. apply lookup_insert_eq. }
  assert (Hlen : Z.of_nat (length (cells s)) = 2 ^ k).
  { unfold allocated in Hs. rewrite Hs, Hk. lia. }
  destruct (load_size L k j Hj Hj20 Hk0 Hkj) as (Hmb & Hnz & Hcount).
  set (mb := Cint.to_size_t (Cint.cdiv (Cint.cdiv (2 ^ k * sizeofCluster L) 1024) 1024)) in *.
  assert (Heff : effective_size mb t = mb).
  { unfold effective_size. destruct (Z.eqb_spec mb 0); [contradiction | reflexivity]. }
  destruct (resize_returns L os2 mb t w1 Hmem) as (t1 & w2 & Hr).
  destruct (resize_returned L os2 mb t w1 t1 w2) as (Hc1 & _ & _ & _ & _ & Ha1);
    [rewrite Heff; exact Hnz | exact Hr |].
  rewrite Heff, Hcount in Hc1. specialize (Ha1 Ht). unfold allocated in Ha1.
  exists (cells s), (set_cells (cells s) t1), w2.
  split; [exact Hfile|]. split; [|split; [|split]].
  - unfold load. rewrite Hname, Hfile, Hlen. fold mb. rewrite Hr.
    rewrite Hc1. do 2 f_equal.
    assert (Hall : take (Z.to_nat (2 ^ k)) (cells s) = cells s) by (apply take_ge; lia).
    rewrite Hall, drop_ge by lia. rewrite app_nil_r. reflexivity.
  - cbn [set_cells clusterCount]. rewrite Hlen, <- Hmb, Hcount. exact Hc1.
  - cbn [set_cells clusterCount]. rewrite Hc1, Hk. reflexivity.
  - reflexivity.
Qed.

(** *** The theorems at work on the table of one megabyte *)

Lemma layout_3_32_valid_size mbSize :
  0 < mbSize < 2 ^ 44 -> valid_size layout_3_32 mbSize.
Proof. intros H. unfold valid_size. cbn [layout_3_32 sizeofCluster]. lia. Qed.

Lemma os_plain_calloc n : calloc os_plain n <> 0.
Proof. cbn [os_plain calloc]. lia. Qed.

Lemma save_succeeds os tt w :
  ofstream_opens os = true ->
  Z.of_nat (length (take (Z.to_nat (clusterCount tt)) (cells tt))) <= disk_room os ->
  save os tt w
    = (true, set_file (hashfilename tt) (take (Z.to_nat (clusterCount tt)) (cells tt)) w).
Proof.
  intros Ho Hroom. unfold save. rewrite Ho.
  rewrite (take_ge (take _ _)) by lia.
  apply Z.leb_le in Hroom. rewrite Hroom. reflexivity.
Qed.

Lemma resize_cluster_count_three_megabytes :
  exists tt' w',
    resize layout_3_32 os_plain 3 TranspositionTable_new world_start = Returns (tt', w') /\
    clusterCount tt' = 65536.
Proof.
  assert (Hv : valid_size layout_3_32 3) by (apply layout_3_32_valid_size; lia).
  destruct (resize_cluster_count layout_3_32 os_plain 3 TranspositionTable_new world_start Hv)
    as [Hret Hcount].
  destruct (Hret os_plain_calloc) as (tt' & w' & Hr).
  exists tt', w'. split; [exact Hr|].
  destruct (Hcount tt' w' Hr) as [Hc _]. rewrite Hc. reflexivity.
Defined.

Lemma resize_same_size_one_megabyte :
  exists tt' w',
    resize layout_3_32 os_plain 1 table_1mb world_start = Returns (tt', w') /\
    mem tt' = 4096 /\ table tt' = 4096 /\ cells tt' = cells table_1mb /\
    allocations w' = [].
Proof.
  destruct (resize_same_size_keeps_table layout_3_32 os_plain 1 table_1mb world_start)
    as (tt' & w' & Hr & _ & Hmem & Htable & Hcells & _ & _ & _ & Halloc).
  - lia.
  - reflexivity.
  - reflexivity.
  - exists tt', w'. repeat split; assumption.
Defined.

Lemma table_1mb_power_of_two : power_of_two_count table_1mb.
Proof. exists 15. split; [lia | reflexivity]. Qed.

Lemma probe_after_clear_one_megabyte :
  exists ref tt' e,
    probe (clear layout_3_32 table_1mb) 13835058055282176057 = Some (false, ref, tt') /\
    slot tt' ref = Some e /\ key16 e = 0 /\
    cells tt' = cells (clear layout_3_32 table_1mb).
Proof.
  apply (probe_after_clear layout_3_32 table_1mb 13835058055282176057).
  - reflexivity.
  - exact table_1mb_power_of_two.
Defined.

Lemma table_searching_well_formed :
  well_formed layout_3_32 table_searching /\ allocated table_searching.
Proof.
  unfold well_formed, allocated. cbn [table_searching cells clusterCount].
  rewrite length_replicate. repeat split.
  - apply Forall_replicate. reflexivity.
  - change (Cint.cdiv 1000 (ClusterSize layout_3_32)) with 333. lia.
Qed.

Lemma hashfull_after_clear_while_searching :
  hashfull layout_3_32 (clear layout_3_32 table_searching) = 0.
Proof.
  destruct table_searching_well_formed as [Hwf Halloc].
  destruct (hashfull_counts_current_generation layout_3_32 table_searching) as [Hclear _].
  - reflexivity.
  - exact Hwf.
  - exact Halloc.
  - apply Hclear. discriminate.
Defined.

Lemma table_with_entry_whole_megabytes :
  whole_megabytes layout_3_32 table_with_entry /\ allocated table_with_entry /\
  allocated table_1mb.
Proof.
  split; [|split].
  - exists 15, 5. repeat split; try reflexivity; lia.
  - unfold allocated. cbn [table_with_entry cells clusterCount length].
    rewrite length_replicate. lia.
  - unfold allocated. cbn [table_1mb cells clusterCount]. apply length_replicate.
Qed.

Lemma save_load_round_trip_one_megabyte :
  exists image t' w2,
    files (snd (save os_plain table_with_entry world_start)) !! EmptyString = Some image /\
    load layout_3_32 os_plain table_1mb (snd (save os_plain table_with_entry world_start))
      = Returns (t', w2) /\
    clusterCount t' = 32768 /\
    cells t' = cells table_with_entry.
Proof.
  destruct table_with_entry_whole_megabytes as (Hs & Has & Hat).
  assert (Hsave : save os_plain table_with_entry world_start
                  = (true, snd (save os_plain table_with_entry world_start))).
  { rewrite save_succeeds; [reflexivity | reflexivity |].
    rewrite length_take. change (clusterCount table_with_entry) with 32768.
    change (disk_room os_plain) with (2 ^ 40). lia. }
  destruct (save_load_round_trip layout_3_32 os_plain os_plain table_with_entry table_1mb
              world_start _ Hs Has Hat eq_refl Hsave os_plain_calloc)
    as (image & t' & w2 & Hfile & Hload & _ & Hcount & Hcells).
  exists image, t', w2. repeat split; assumption.
Defined.

(** *** [probe]: the two loops *)

Lemma scan_Some g k l : forall i found j e',
  scan g k l i = Some (found, j, e') ->
  exists e, (i <= j)%nat /\ l !! (j - i)%nat = Some e /\
    stops k e = true /\ found = negb (key16 e =? 0) /\ e' = refresh g e /\
    (forall m x, (m < j - i)%nat -> l !! m = Some x -> stops k x = false).
Proof.
  induction l as [|a rest IH]; intros i found j e' H; simpl in H; [discriminate|].
  destruct ((key16 a =? 0) || (key16 a =? k)) eqn:Ea.
  - inversion H; subst. exists a. rewrite Nat.sub_diag.
    split; [lia|]. split; [reflexivity|]. split; [exact Ea|]. split; [reflexivity|].
    split; [reflexivity|]. intros m x Hm. lia.
  - destruct (IH (S i) found j e' H) as (e & Hij & He & Hs & Hf & He' & Hbefore).
    exists e. replace (j - i)%nat with (S (j - S i)) by lia.
    split; [lia|]. split; [exact He|]. split; [exact Hs|]. split; [exact Hf|].
    split; [exact He'|]. intros [|m] x Hm Hx; simpl in Hx.
    + inversion Hx; subst. exact Ea.
    + apply (Hbefore m x); [lia | exact Hx].
Qed.

Lemma scan_None g k l : forall i,
  scan g k l i = None <-> Forall (fun x => stops k x = false) l.
Proof.
  induction l as [|a rest IH]; intros i; simpl.
  - split; [constructor | reflexivity].
  - fold (stops k a). destruct (stops k a) eqn:Ea.
    + split; [discriminate|]. intros H. inversion H; congruence.
    + rewrite IH. split; [intros H; constructor; assumption | intros H; inversion H; assumption].
Qed.

Lemma scan_insert g k e l : forall i n,
  (i < length l)%nat -> stops k e = true -> key16 e <> 0 ->
  (forall m x, (m < i)%nat -> l !! m = Some x -> stops k x = false) ->
  scan g k (<[i := e]> l) n = Some (true, (n + i)%nat, refresh g e).
Proof.
  induction l as [|a rest IH]; intros i n Hi Hs Hk Hbefore; simpl in Hi; [lia|].
  destruct i as [|i]; simpl.
  - fold (stops k e). rewrite Hs. rewrite Nat.add_0_r. unfold refresh.
    destruct (Z.eqb_spec (key16 e) 0); [contradiction|]. reflexivity.
  - fold (stops k a). rewrite (Hbefore 0%nat a ltac:(lia) eq_refl).
    rewrite IH; [f_equal; f_equal; f_equal; lia | lia | exact Hs | exact Hk |].
    intros m x Hm Hx. apply (Hbefore (S m) x); [lia | exact Hx].
Qed.

(** The second loop keeps the first entry of least replace value. *)
Lemma pick_least g (all : list TTEntry) : forall l i r er,
  all = take i all ++ l -> i = length (take i all) ->
  all !! r = Some er -> (r < i)%nat ->
  (forall j x, (j < i)%nat -> all !! j = Some x ->
     replace_value g er <= replace_value g x /\
     ((j < r)%nat -> replace_value g er < replace_value g x)) ->
  exists victim,
    all !! pick g l i (r, er) = Some victim /\
    (forall j x, all !! j = Some x -> replace_value g victim <= replace_value g x) /\
    (forall j x, (j < pick g l i (r, er))%nat -> all !! j = Some x ->
       replace_value g victim < replace_value g x).
Proof.
  induction l as [|a rest IH]; intros i r er Hall Hi Hr Hri Hinv; simpl.
  - rewrite app_nil_r in Hall. exists er. split; [exact Hr|].
    assert (Hlen : forall j x, all !! j = Some x -> (j < i)%nat).
    { intros j x Hx. apply lookup_lt_Some in Hx. rewrite Hall in Hx. lia. }
    split.
    + intros j x Hx. apply (Hinv j x (Hlen j x Hx) Hx).
    + intros j x Hj Hx. apply (Hinv j x (Hlen j x Hx) Hx). exact Hj.
  - assert (Ha : all !! i = Some a).
    { rewrite Hall, lookup_app_r by lia. rewrite <- Hi, Nat.sub_diag. reflexivity. }
    assert (Hall' : all = take (S i) all ++ rest).
    { rewrite (take_S_r _ _ _ Ha), <- app_assoc. exact Hall. }
    assert (Hi' : S i = length (take (S i) all)).
    { rewrite length_take. apply lookup_lt_Some in Ha. lia. }
    destruct (Z.gtb_spec (replace_value g er) (replace_value g a)) as [Hgt|Hle].
    + apply (IH (S i) i a Hall' Hi' Ha); [lia|].
      intros j x Hj Hx. destruct (Nat.eq_dec j i) as [->|Hne].
      * rewrite Ha in Hx. inversion Hx; subst. split; [lia | intros; lia].
      * destruct (Hinv j x ltac:(lia) Hx) as [H1 _]. split; [lia | intros; lia].
    + apply (IH (S i) r er Hall' Hi' Hr); [lia|].
      intros j x Hj Hx. destruct (Nat.eq_dec j i) as [->|Hne].
      * rewrite Ha in Hx. inversion Hx; subst. split; [lia | intros; lia].
      * apply (Hinv j x ltac:(lia) Hx).
Qed.

Lemma refresh_fields g e :
  key16 (refresh g e) = key16 e /\ move16 (refresh g e) = move16 e /\
  value16 (refresh g e) = value16 e /\ eval16 (refresh g e) = eval16 e /\
  depth8 (refresh g e) = depth8 e.
Proof. unfold refresh. destruct (_ && _); repeat split; reflexivity. Qed.

Lemma refresh_empty g e : key16 e = 0 -> refresh g e = e.
Proof.
  intros H. unfold refresh. rewrite H. rewrite andb_false_r. reflexivity.
Qed.

Lemma cluster_insert_id (cl : Cluster) i e :
  entry cl !! i = Some e ->
  {| entry := <[i := e]> (entry cl); padding := padding cl |} = cl.
Proof. intros H. rewrite (list_insert_id _ _ _ H). destruct cl; reflexivity. Qed.

(** What a [probe] that returns has done. *)
Lemma probe_Some tt key found c i tt' :
  probe tt key = Some (found, (c, i), tt') ->
  c = Z.to_nat (first_entry tt key) /\
  exists cl e,
    cells tt !! c = Some cl /\ entry cl !! i = Some e /\
    (forall m x, (m < i)%nat -> entry cl !! m = Some x -> stops (key16_of key) x = false) /\
    (found = true -> key16 e = key16_of key /\ key16 e <> 0) /\
    (found = false ->
       key16 e = 0 \/ Forall (fun x => stops (key16_of key) x = false) (entry cl)) /\
    cells tt'
      = <[c := {| entry := <[i := if found then refresh (generation8 tt) e else e]> (entry cl);
                  padding := padding cl |}]> (cells tt) /\
    same_header tt tt'.
Proof.
  unfold probe. fold (key16_of key).
  destruct (cells tt !! Z.to_nat (first_entry tt key)) as [cl|] eqn:Ecl; [|discriminate].
  destruct (scan (generation8 tt) (key16_of key) (entry cl) 0) as [[[f j] e']|] eqn:Es.
  - intros H. inversion H; subst; clear H. split; [reflexivity|].
    destruct (scan_Some _ _ _ _ _ _ _ Es) as (e & _ & He & Hs & Hf & He' & Hbefore).
    rewrite Nat.sub_0_r in He, Hbefore.
    exists cl, e. split; [exact Ecl|]. split; [exact He|]. split; [exact Hbefore|].
    unfold stops in Hs. split; [|split; [|split]].
    + intros Hfound. subst found. destruct (Z.eqb_spec (key16 e) 0) as [|Hnz]; [discriminate|].
      simpl in Hs. apply Z.eqb_eq in Hs. split; assumption.
    + intros Hfound. subst found. destruct (Z.eqb_spec (key16 e) 0) as [Hz|]; [|discriminate].
      left. exact Hz.
    + simpl. subst found e'. destruct (Z.eqb_spec (key16 e) 0) as [Hz|Hnz]; simpl.
      * rewrite (refresh_empty _ _ Hz). reflexivity.
      * reflexivity.
    + repeat split.
  - destruct (entry cl) as [|e0 rest] eqn:Ee; [discriminate|].
    intros H. inversion H; subst; clear H. split; [reflexivity|].
    apply scan_None in Es.
    destruct (pick_least (generation8 tt') (e0 :: rest) rest 1 0%nat e0)
      as (victim & Hv & _ & _); try reflexivity; [lia | |].
    { intros [|j] x Hj Hx; [|lia]. inversion Hx; subst. split; [lia | intros; lia]. }
    exists cl, victim. rewrite Ee. split; [exact Ecl|]. split; [exact Hv|].
    split; [|split; [|split; [|split]]].
    + intros m x _ Hx. apply (proj1 (Forall_forall _ _) Es x).
      apply (list_elem_of_lookup_2 _ _ _ Hx).
    + discriminate.
    + intros _. right. exact Es.
    + rewrite <- Ee in Hv |- *. rewrite (cluster_insert_id cl _ _ Hv).
      symmetry. apply list_insert_id. exact Ecl.
    + repeat split.
Qed.

(** X8. A key whose sixteen high bits are zero is never found: an entry it
    could match counts as empty. Such a probe changes nothing. *)
Theorem probe_key_without_high_bits tt key found ref tt' :
  key16_of key = 0 ->
  probe tt key = Some (found, ref, tt') ->
  found = false /\ cells tt' = cells tt.
Proof.
  intros Hk H. destruct ref as [c i].
  destruct (probe_Some _ _ _ _ _ _ H) as (_ & cl & e & Hcl & He & _ & Hfound & _ & Hcells & _).
  assert (Hf : found = false).
  { destruct found; [|reflexivity]. destruct (Hfound eq_refl) as [H1 H2]. congruence. }
  split; [exact Hf|]. rewrite Hcells, Hf. rewrite (cluster_insert_id cl _ _ He).
  apply list_insert_id. exact Hcl.
Qed.

Lemma probe_key_without_high_bits_entry :
  exists ref tt', probe table_with_entry 0 = Some (false, ref, tt') /\
    cells tt' = cells table_with_entry.
Proof.
  assert (H : exists ref tt', probe table_with_entry 0 = Some (false, ref, tt')).
  { eexists _, _. cbv -[replicate Z.to_nat zero_cluster]. reflexivity. }
  destruct H as (ref & tt' & H). exists ref, tt'. split; [exact H|].
  apply (probe_key_without_high_bits table_with_entry 0 false ref tt'); [reflexivity | exact H].
Defined.

Lemma same_header_first_entry a b key :
  same_header a b -> first_entry b key = first_entry a key.
Proof. intros (Hc & _). unfold first_entry. rewrite Hc. reflexivity. Qed.

(** X9. An entry stored in the slot [probe] handed out for a key, with the
    key's sixteen high bits, which are not all zero, is found by the next
    [probe] of that key, in the same slot. What is found is the entry as
    stored, but for the generation byte a refresh may have advanced. *)
Theorem probe_finds_stored_entry tt key found c i tt1 e :
  probe tt key = Some (found, (c, i), tt1) ->
  key16 e = key16_of key -> key16 e <> 0 ->
  exists tt2 e',
    probe (write_slot c i e tt1) key = Some (true, (c, i), tt2) /\
    slot tt2 (c, i) = Some e' /\
    key16 e' = key16 e /\ move16 e' = move16 e /\ value16 e' = value16 e /\
    eval16 e' = eval16 e /\ depth8 e' = depth8 e.
Proof.
  intros H Hk Hnz.
  destruct (probe_Some _ _ _ _ _ _ H)
    as (Hc & cl & e0 & Hcl & He0 & Hbefore & _ & _ & Hcells & Hhead).
  pose proof (lookup_lt_Some _ _ _ Hcl) as Hclen.
  pose proof (lookup_lt_Some _ _ _ He0) as Hilen.
  set (e1 := if found then refresh (generation8 tt) e0 else e0) in *.
  set (cl1 := {| entry := <[i := e1]> (entry cl); padding := padding cl |}) in *.
  assert (Hcl1 : cells tt1 !! c = Some cl1).
  { rewrite Hcells. apply list_lookup_insert_eq. exact Hclen. }
  set (cl2 := {| entry := <[i := e]> (entry cl1); padding := padding cl1 |}).
  assert (Hw : cells (write_slot c i e tt1) = <[c := cl2]> (cells tt1)).
  { unfold write_slot. rewrite Hcl1. reflexivity. }
  assert (Hlen1 : length (cells tt1) = length (cells tt)).
  { rewrite Hcells. apply length_insert. }
  assert (Hfirst : Z.to_nat (first_entry (write_slot c i e tt1) key) = c).
  { unfold write_slot. rewrite Hcl1. unfold first_entry. cbn [clusterCount set_cells].
    destruct Hhead as (Hcount & _). rewrite <- Hcount. symmetry. exact Hc. }
  assert (Hgen : generation8 (write_slot c i e tt1) = generation8 tt1).
  { unfold write_slot. rewrite Hcl1. reflexivity. }
  assert (Hscan : scan (generation8 tt1) (key16_of key) (entry cl2) 0
                  = Some (true, i, refresh (generation8 tt1) e)).
  { unfold cl2, cl1. cbn [entry]. rewrite list_insert_insert_eq.
    apply (scan_insert _ _ e (entry cl) i 0%nat Hilen).
    - unfold stops. rewrite Hk, Z.eqb_refl. apply orb_true_r.
    - exact Hnz.
    - exact Hbefore. }
  unfold probe. fold (key16_of key). rewrite Hfirst, Hgen, Hw.
  rewrite list_lookup_insert_eq by lia. rewrite Hscan.
  eexists _, (refresh (generation8 tt1) e). split; [reflexivity|]. split.
  - unfold slot. cbn [fst snd cells set_cells].
    rewrite list_lookup_insert_eq by (rewrite length_insert; lia). cbn [entry].
    apply list_lookup_insert_eq. unfold cl2, cl1. cbn [entry]. rewrite !length_insert. exact Hilen.
  - apply refresh_fields.
Qed.

Lemma probe_finds_stored_entry_second_slot :
  let e := {| key16 := 5; move16 := 99; value16 := 12; eval16 := 7;
              genBound8 := 5; depth8 := 3 |} in
  exists tt1 tt2 e',
    probe table_with_entry 1407374883553280 = Some (false, (0, 1)%nat, tt1) /\
    probe (write_slot 0 1 e tt1) 1407374883553280 = Some (true, (0, 1)%nat, tt2) /\
    slot tt2 (0, 1)%nat = Some e' /\ move16 e' = 99.
Proof.
  intros e.
  assert (H1 : exists tt1,
             probe table_with_entry 1407374883553280 = Some (false, (0, 1)%nat, tt1)).
  { eexists. cbv -[replicate Z.to_nat zero_cluster]. reflexivity. }
  destruct H1 as [tt1 H1].
  destruct (probe_finds_stored_entry _ _ _ _ _ _ e H1 eq_refl)
    as (tt2 & e' & H2 & H3 & _ & Hm & _); [discriminate|].
  exists tt1, tt2, e'. repeat split; assumption.
Defined.

(** X10. When no entry of the cluster is empty or holds the key, [probe] answers
    not found, leaves the table as it is and hands out the entry of least
    replace value, the first of them if several have it. *)
Theorem probe_replaces_least_valuable tt key cl :
  cells tt !! Z.to_nat (first_entry tt key) = Some cl ->
  entry cl <> [] ->
  Forall (fun x => key16 x <> 0 /\ key16 x <> key16_of key) (entry cl) ->
  exists i victim,
    probe tt key = Some (false, (Z.to_nat (first_entry tt key), i), tt) /\
    entry cl !! i = Some victim /\
    (forall j x, entry cl !! j = Some x ->
       replace_value (generation8 tt) victim <= replace_value (generation8 tt) x) /\
    (forall j x, (j < i)%nat -> entry cl !! j = Some x ->
       replace_value (generation8 tt) victim < replace_value (generation8 tt) x).
Proof.
  intros Hcl Hne Hall. unfold probe. fold (key16_of key). rewrite Hcl.
  assert (Hs : scan (generation8 tt) (key16_of key) (entry cl) 0 = None).
  { apply scan_None. eapply Forall_impl; [exact Hall|]. simpl. intros x [H0 Hk].
    unfold stops. destruct (Z.eqb_spec (key16 x) 0); [contradiction|].
    destruct (Z.eqb_spec (key16 x) (key16_of key)); [contradiction|]. reflexivity. }
  rewrite Hs. destruct (entry cl) as [|e0 rest] eqn:Ee; [contradiction|].
  destruct (pick_least (generation8 tt) (e0 :: rest) rest 1 0%nat e0)
    as (victim & Hv & Hmin & Hfirst); try reflexivity; [lia | |].
  { intros [|j] x Hj Hx; [|lia]. inversion Hx; subst. split; [lia | intros; lia]. }
  exists (pick (generation8 tt) rest 1 (0%nat, e0)), victim.
  split; [reflexivity|]. split; [exact Hv|]. split; [exact Hmin | exact Hfirst].
Qed.

Lemma probe_replaces_least_valuable_full_cluster :
  exists i victim,
    probe table_full_cluster 2533274790395904 = Some (false, (0%nat, i), table_full_cluster) /\
    [ {| key16 := 48879; move16 := 796; value16 := 35; eval16 := 20;
         genBound8 := 5; depth8 := 20 |};
      {| key16 := 4660; move16 := 11; value16 := -4; eval16 := 0;
         genBound8 := 6; depth8 := 14 |};
      {| key16 := 51966; move16 := 529; value16 := 70; eval16 := 66;
         genBound8 := 1; depth8 := 30 |} ] !! i = Some victim /\
    key16 victim = 4660.
Proof.
  destruct (probe_replaces_least_valuable table_full_cluster 2533274790395904
              {| entry := [ {| key16 := 48879; move16 := 796; value16 := 35; eval16 := 20;
                               genBound8 := 5; depth8 := 20 |};
                            {| key16 := 4660; move16 := 11; value16 := -4; eval16 := 0;
                               genBound8 := 6; depth8 := 14 |};
                            {| key16 := 51966; move16 := 529; value16 := 70; eval16 := 66;
                               genBound8 := 1; depth8 := 30 |} ];
                 padding := [0; 0] |})
    as (i & victim & Hp & Hv & Hmin & _).
  - reflexivity.
  - discriminate.
  - repeat constructor; discriminate.
  - exists i, victim. split; [exact Hp|]. split; [exact Hv|].
    destruct i as [|[|[|i]]]; simpl in Hv; inversion Hv; subst victim; clear Hv.
    + specialize (Hmin 1%nat _ eq_refl). vm_compute in Hmin. contradiction.
    + reflexivity.
    + specialize (Hmin 1%nat _ eq_refl). vm_compute in Hmin. contradiction.
Defined.

(** *** [probe]: what it touches *)

Lemma refresh_bound_bits g e :
  0 <= genBound8 e < 256 ->
  Z.land (genBound8 (refresh g e)) 3 = Z.land (genBound8 e) 3 /\
  0 <= genBound8 (refresh g e) < 256.
Proof.
  intros Hb. unfold refresh. destruct (_ && _); [|split; [reflexivity | exact Hb]].
  cbn [genBound8]. unfold Cint.to_uint8, Cint.wrap.
  change 3 with (Z.ones 2). rewrite !Z.land_ones by lia.
  change (2 ^ 8) with 256. change (2 ^ 2) with 4.
  split; [|apply Z.mod_pos_bound; lia].
  rewrite Z.mod_mod_divide by (exists 64; reflexivity).
  replace (genBound8 e + 4) with (genBound8 e + 1 * 4) by lia. apply Z.mod_add. lia.
Qed.

(** X11. [probe] changes at most the generation byte of the entry it returns,
    and only when it found the key in an entry of another generation: then
    4 is added to the byte modulo 256, which leaves the two bound bits as
    they are. Every other entry, every other field and the table's own
    fields stay as they were. A key that is found is in the entry returned. *)
Theorem probe_touches_one_generation_byte tt key found c i tt' :
  probe tt key = Some (found, (c, i), tt') ->
  exists e e',
    slot tt (c, i) = Some e /\ slot tt' (c, i) = Some e' /\
    (found = true -> key16 e = key16_of key /\ key16 e <> 0) /\
    key16 e' = key16 e /\ move16 e' = move16 e /\ value16 e' = value16 e /\
    eval16 e' = eval16 e /\ depth8 e' = depth8 e /\
    genBound8 e'
      = (if found && negb (Z.land (genBound8 e) 252 =? generation8 tt)
         then Cint.to_uint8 (genBound8 e + 4) else genBound8 e) /\
    (0 <= genBound8 e < 256 -> Z.land (genBound8 e') 3 = Z.land (genBound8 e) 3) /\
    (forall ref, ref <> (c, i) -> slot tt' ref = slot tt ref) /\
    same_header tt tt'.
Proof.
  intros H.
  destruct (probe_Some _ _ _ _ _ _ H)
    as (Hc & cl & e & Hcl & He & _ & Hfound & _ & Hcells & Hhead).
  pose proof (lookup_lt_Some _ _ _ Hcl) as Hclen.
  pose proof (lookup_lt_Some _ _ _ He) as Hilen.
  set (e' := if found then refresh (generation8 tt) e else e) in *.
  exists e, e'. split; [unfold slot; cbn [fst snd]; rewrite Hcl; exact He|].
  split.
  { unfold slot. cbn [fst snd]. rewrite Hcells, list_lookup_insert_eq by exact Hclen.
    cbn [entry]. apply list_lookup_insert_eq. exact Hilen. }
  split; [exact Hfound|].
  assert (Hfields : key16 e' = key16 e /\ move16 e' = move16 e /\ value16 e' = value16 e /\
                    eval16 e' = eval16 e /\ depth8 e' = depth8 e).
  { unfold e'. destruct found; [apply refresh_fields | repeat split]. }
  destruct Hfields as (F1 & F2 & F3 & F4 & F5).
  repeat (split; [assumption|]).
  split.
  { unfold e'. destruct found; [|reflexivity].
    destruct (Hfound eq_refl) as [_ Hnz]. unfold refresh.
    destruct (Z.eqb_spec (key16 e) 0); [contradiction|].
    rewrite andb_true_r. cbn [andb]. destruct (negb _); reflexivity. }
  split.
  { intros Hb. unfold e'. destruct found; [|reflexivity]. apply refresh_bound_bits. exact Hb. }
  split; [|exact Hhead].
  intros [c' i'] Hne. unfold slot. cbn [fst snd]. rewrite Hcells.
  destruct (Nat.eq_dec c' c) as [->|Hc'].
  - rewrite list_lookup_insert_eq by exact Hclen. rewrite Hcl. cbn [entry].
    apply list_lookup_insert_ne. congruence.
  - rewrite list_lookup_insert_ne by congruence. reflexivity.
Qed.

Lemma probe_touches_one_generation_byte_stale_entry :
  exists tt' e e',
    probe table_full_cluster 13758215386640154624 = Some (true, (0, 0)%nat, tt') /\
    slot table_full_cluster (0, 0)%nat = Some e /\ slot tt' (0, 0)%nat = Some e' /\
    genBound8 e = 5 /\ genBound8 e' = 9 /\
    slot tt' (0, 1)%nat = slot table_full_cluster (0, 1)%nat.
Proof.
  assert (H : exists tt', probe table_full_cluster 13758215386640154624 = Some (true, (0, 0)%nat, tt')).
  { eexists. cbv -[replicate Z.to_nat zero_cluster]. reflexivity. }
  destruct H as [tt' H].
  destruct (probe_touches_one_generation_byte _ _ _ _ _ _ H)
    as (e & e' & He & He' & _ & _ & _ & _ & _ & _ & Hg & _ & Hother & _).
  exists tt', e, e'. split; [exact H|]. split; [exact He|]. split; [exact He'|].
  assert (Hg9 : genBound8 e = 5).
  { unfold slot in He. cbn in He. inversion He. reflexivity. }
  split; [exact Hg9|]. split.
  - rewrite Hg, Hg9. reflexivity.
  - apply Hother. discriminate.
Defined.

(** X12. On a table of a power of two of clusters, each of [ClusterSize]
    entries, [probe] returns for every key, and the slot it returns lies in
    the table: in the cluster the key's low bits select. *)
Theorem probe_stays_in_table L tt key :
  0 < ClusterSize L -> power_of_two_count tt -> allocated tt ->
  Forall (fun cl => Z.of_nat (length (entry cl)) = ClusterSize L) (cells tt) ->
  exists found c i tt',
    probe tt key = Some (found, (c, i), tt') /\
    Z.of_nat c = Z.land (Cint.to_size_t key) (clusterCount tt - 1) /\
    Z.of_nat c < clusterCount tt /\ Z.of_nat i < ClusterSize L.
Proof.
  intros HL Hpow Halloc Hfull.
  pose proof (first_entry_in_table tt key Hpow) as Hin.
  assert (Hc : (Z.to_nat (first_entry tt key) < length (cells tt))%nat).
  { rewrite Halloc. lia. }
  apply lookup_lt_is_Some in Hc. destruct Hc as [cl Hcl].
  pose proof (proj1 (Forall_forall _ _) Hfull cl (list_elem_of_lookup_2 _ _ _ Hcl)) as Hlen.
  simpl in Hlen.
  assert (Hp : is_Some (probe tt key)).
  { unfold probe. rewrite Hcl. destruct (scan _ _ _ _) as [[[f j] e']|]; [eauto|].
    destruct (entry cl); [simpl in Hlen; lia | eauto]. }
  destruct Hp as [[[found [c i]] tt'] Hp].
  destruct (probe_Some _ _ _ _ _ _ Hp) as (Hc & cl' & e & Hcl' & He & _).
  rewrite <- Hc in Hcl. rewrite Hcl in Hcl'. inversion Hcl'; subst cl'.
  apply lookup_lt_Some in He.
  exists found, c, i, tt'. split; [exact Hp|].
  assert (Hfe : first_entry tt key = Z.land (Cint.to_size_t key) (clusterCount tt - 1)).
  { unfold first_entry. f_equal. destruct Hpow as (k & Hk & Hcount).
    apply Cint.to_size_t_small. rewrite Hcount.
    assert (0 < 2 ^ k) by (apply Z.pow_pos_nonneg; lia).
    assert (2 ^ k < 2 ^ 64) by (apply Z.pow_lt_mono_r; lia). lia. }
  rewrite <- Hfe. split; [lia|]. split; lia.
Qed.

Lemma probe_stays_in_table_one_megabyte :
  exists found c i tt',
    probe table_with_entry 13835058055282176057 = Some (found, (c, i), tt') /\
    Z.of_nat c = Z.land (Cint.to_size_t 13835058055282176057)
                        (clusterCount table_with_entry - 1) /\
    Z.of_nat c < clusterCount table_with_entry /\ Z.of_nat i < ClusterSize layout_3_32.
Proof.
  apply (probe_stays_in_table layout_3_32 table_with_entry).
  - reflexivity.
  - exists 15. split; [lia | reflexivity].
  - apply table_with_entry_whole_megabytes.
  - unfold table_with_entry. cbn [cells]. constructor; [reflexivity|].
    apply Forall_replicate. reflexivity.
Defined.

(** *** [resize]: the allocation *)




Lemma allocations_log e w :
  allocations (log e w) = if is_allocation e then e :: allocations w else allocations w.
Proof.
  unfold allocations. cbn [trace log]. rewrite filter_cons.
  destruct (is_allocation e); [rewrite decide_True by reflexivity | rewrite decide_False by discriminate];
    reflexivity.
Qed.

(** A [resize] to another cluster count, unfolded. *)
Lemma resize_realloc L os mbSize tt w :
  mbSize <> 0 -> newClusterCount L mbSize <> clusterCount tt ->
  let w1 := release tt (Try_Get_LockMemory_Privileges os w) in
  let count := newClusterCount L mbSize in
  let tt1 := set_mbSize_last_used mbSize tt in
  let n := Cint.to_size_t (count * sizeofCluster L + CacheLineSize L - 1) in
  let m := Cint.to_int64 (Cint.to_size_t (count * sizeofCluster L)) in
  resize L os mbSize tt w =
    if use_large_pages (Try_Get_LockMemory_Privileges os w) <? 1
    then finish L mbSize count (calloc os n) false tt1 (log (Calloc n (calloc os n)) w1)
    else if virtual_alloc os m =? 0
    then finish L mbSize count (calloc os n) false tt1
           (log (Calloc n (calloc os n))
              (set_use_large_pages 0
                 (log (SayFailedLargePages mbSize) (log (VirtualAlloc m 0) w1))))
    else finish L mbSize count (virtual_alloc os m) true tt1
           (log (SayLargePages (Z.shiftr m 20)) (log (VirtualAlloc m (virtual_alloc os m)) w1)).
Proof.
  intros Hmb Hcount. cbv zeta. unfold resize.
  destruct (Z.eqb_spec mbSize 0) as [|_]; [contradiction|].
  destruct (Z.eqb_spec mbSize 0) as [|_]; [contradiction|].
  cbn [clusterCount set_mbSize_last_used large_pages_used].
  destruct (Z.eqb_spec (newClusterCount L mbSize) (clusterCount tt)) as [|_]; [contradiction|].
  cbn [andb].
  assert (Hrel : release (set_mbSize_last_used mbSize tt) = release tt) by reflexivity.
  rewrite Hrel.
  destruct (use_large_pages _ <? 1); [reflexivity|].
  rewrite Cint.to_size_t_to_int64.
  rewrite (Cint.to_size_t_small (Cint.to_size_t _)) by apply Cint.to_size_t_range.
  match goal with
  | |- context [virtual_alloc os ?m =? 0] =>
      destruct (Z.eqb_spec (virtual_alloc os m) 0) as [Hz|Hnz]
  end; [|reflexivity].
  rewrite Hz. reflexivity.
Qed.

Lemma finish_Returns L mbSize count p large tt w tt' w' :
  finish L mbSize count p large tt w = Returns (tt', w') ->
  p <> 0 /\ w' = w /\ mem tt' = p /\ table tt' = aligned L p /\
  clusterCount tt' = count /\ large_pages_used tt' = large.
Proof.
  unfold finish. destruct (Z.eqb_spec p 0); [discriminate|].
  intros H. inversion H; subst. repeat split; assumption.
Qed.



Lemma allocations_release tt w :
  allocations (release tt w)
    = (if mem tt =? 0 then []
       else [if large_pages_used tt then VirtualFree (mem tt) else Free (mem tt)])
      ++ allocations w.
Proof.
  unfold release. destruct (mem tt =? 0); [reflexivity|].
  destruct (large_pages_used tt); rewrite allocations_log; reflexivity.
Qed.

(** X14. A [resize] to another cluster count that returns has released the old
    block, if there was one, once and with the function that matches the way
    it was obtained, before it asked for the new one; and the new table
    records which allocator its block came from. *)
Theorem resize_releases_old_block L os mbSize tt w tt' w' :
  mbSize <> 0 -> newClusterCount L mbSize <> clusterCount tt ->
  resize L os mbSize tt w = Returns (tt', w') ->
  mem tt' <> 0 /\
  exists n failed,
    allocations w'
      = (if large_pages_used tt' then VirtualAlloc n (mem tt') else Calloc n (mem tt'))
        :: failed
        ++ (if mem tt =? 0 then []
            else [if large_pages_used tt then VirtualFree (mem tt) else Free (mem tt)])
        ++ allocations w /\
    (failed = [] \/ exists m, failed = [VirtualAlloc m 0] /\ large_pages_used tt' = false).
Proof.
  intros Hmb Hcount Hr.
  rewrite (resize_realloc L os mbSize tt w Hmb Hcount) in Hr.
  pose proof (proj1 (Try_Get_LockMemory_Privileges_allocations os w)) as Htry.
  destruct (use_large_pages _ <? 1).
  - apply finish_Returns in Hr as (Hnz & -> & Hmem & _ & _ & Hl).
    split; [congruence|]. eexists _, []. rewrite Hl, Hmem.
    split; [|left; reflexivity].
    rewrite allocations_log, allocations_release, Htry. reflexivity.
  - destruct (virtual_alloc os _ =? 0).
    + apply finish_Returns in Hr as (Hnz & -> & Hmem & _ & _ & Hl).
      split; [congruence|]. eexists _, [VirtualAlloc _ 0]. rewrite Hl, Hmem.
      split; [|right; eexists; split; reflexivity].
      rewrite allocations_log. cbn [is_allocation].
      change (allocations (set_use_large_pages 0 ?x)) with (allocations x).
      rewrite !allocations_log, allocations_release, Htry. reflexivity.
    + apply finish_Returns in Hr as (Hnz & -> & Hmem & _ & _ & Hl).
      split; [congruence|]. eexists _, []. rewrite Hl, Hmem.
      split; [|left; reflexivity].
      rewrite !allocations_log, allocations_release, Htry. reflexivity.
Qed.

Lemma resize_releases_old_block_two_megabytes :
  exists tt' w',
    resize layout_3_32 os_plain 2 table_1mb world_start = Returns (tt', w') /\
    mem tt' <> 0 /\
    exists n failed,
      allocations w'
        = (if large_pages_used tt' then VirtualAlloc n (mem tt') else Calloc n (mem tt'))
          :: failed ++ [Free 4096] ++ [] /\
      (failed = [] \/ exists m, failed = [VirtualAlloc m 0] /\ large_pages_used tt' = false).
Proof.
  assert (Hv : valid_size layout_3_32 2) by (apply layout_3_32_valid_size; lia).
  destruct (resize_returns layout_3_32 os_plain 2 table_1mb world_start os_plain_calloc)
    as (tt' & w' & Hr).
  exists tt', w'. split; [exact Hr|].
  apply (resize_releases_old_block layout_3_32 os_plain 2 table_1mb world_start tt' w');
    [discriminate | | exact Hr].
  destruct (newClusterCount_pow2 layout_3_32 2 Hv) as [-> _]. discriminate.
Defined.

(** X15. With no memory to be had a [resize] to another cluster count ends the
    process, after saying so; it writes no file. *)
Theorem resize_exits_without_memory L os mbSize tt w :
  mbSize <> 0 -> newClusterCount L mbSize <> clusterCount tt ->
  (forall n, calloc os n = 0) -> (forall n, virtual_alloc os n = 0) ->
  exists w' rest,
    resize L os mbSize tt w = Exits w' /\
    trace w' = SayFailed mbSize :: rest /\ files w' = files w.
Proof.
  intros Hmb Hcount Hc Hv.
  rewrite (resize_realloc L os mbSize tt w Hmb Hcount).
  pose proof (proj2 (Try_Get_LockMemory_Privileges_allocations os w)) as Hfiles.
  assert (Hrel : files (release tt (Try_Get_LockMemory_Privileges os w)) = files w).
  { unfold release. destruct (mem tt =? 0); [exact Hfiles|].
    destruct (large_pages_used tt); exact Hfiles. }
  rewrite !Hc, Hv. cbn [Z.eqb]. unfold finish. cbn [Z.eqb].
  destruct (use_large_pages _ <? 1);
    eexists _, _; (split; [reflexivity|]); split; try reflexivity; exact Hrel.
Qed.

Lemma resize_exits_without_memory_one_megabyte :
  exists w' rest,
    resize layout_3_32
           {| option_Large_Pages := false; lock_memory_privilege := false;
              calloc := fun _ => 0; virtual_alloc := fun _ => 0;
              ofstream_opens := true; disk_room := 0 |}
           1 TranspositionTable_new world_start = Exits w' /\
    trace w' = SayFailed 1 :: rest /\ files w' = files world_start.
Proof.
  apply resize_exits_without_memory; try reflexivity; discriminate.
Defined.



(** *** The privilege for large pages *)

(** X17. The system is asked for the privilege once: the first call with the
    option on keeps the answer, and every later call follows it, whatever the
    system would answer then. With the option off large pages are off, and
    the answer kept is not lost. *)
Theorem privilege_is_asked_once os1 os2 w :
  option_Large_Pages os1 = true -> got_privileges w = -1 ->
  let w1 := Try_Get_LockMemory_Privileges os1 w in
  got_privileges w1 = (if lock_memory_privilege os1 then 1 else 0) /\
  use_large_pages w1 = got_privileges w1 /\
  got_privileges (Try_Get_LockMemory_Privileges os2 w1) = got_privileges w1 /\
  trace (Try_Get_LockMemory_Privileges os2 w1) = trace w1 /\
  use_large_pages (Try_Get_LockMemory_Privileges os2 w1)
    = (if option_Large_Pages os2 then got_privileges w1 else 0).
Proof.
  intros Hopt Hgot. cbv zeta. unfold Try_Get_LockMemory_Privileges, Get_LockMemory_Privileges.
  rewrite Hopt. cbn [negb set_use_large_pages got_privileges]. rewrite Hgot.
  change (-1 =? -1) with true. cbv iota.
  destruct (lock_memory_privilege os1); cbn; destruct (option_Large_Pages os2); cbn;
    repeat split; reflexivity.
Qed.

Lemma privilege_is_asked_once_denied :
  use_large_pages
    (Try_Get_LockMemory_Privileges os_no_large_pages
       (Try_Get_LockMemory_Privileges os_plain_large_pages_wanted world_start)) = 0.
Proof.
  refine (eq_trans (proj2 (proj2 (proj2 (proj2
            (privilege_is_asked_once os_plain_large_pages_wanted os_no_large_pages world_start
               _ _))))) _); reflexivity.
Defined.

(** *** [save] and [load]: failures *)

(** X18. [save] touches no file but the hash file and says nothing. When it
    answers true the file holds the table's clusters, all of them; when it
    answers false either the stream did not open and nothing was written, or
    the device took fewer clusters than the table has and the file is that
    beginning of the table. *)
Theorem save_reports_a_whole_file os tt w ok w' :
  0 <= disk_room os ->
  save os tt w = (ok, w') ->
  let image := take (Z.to_nat (clusterCount tt)) (cells tt) in
  (forall name, name <> hashfilename tt -> files w' !! name = files w !! name) /\
  trace w' = trace w /\
  (ok = true -> files w' !! hashfilename tt = Some image) /\
  (ok = false ->
     w' = w \/
     exists written,
       files w' !! hashfilename tt = Some written /\
       (length written < length image)%nat /\ written = take (length written) image).
Proof.
  intros Hroom H image. unfold save in H. fold image in H.
  destruct (ofstream_opens os); inversion H; subst; clear H.
  - split; [intros name Hne; cbn; apply lookup_insert_ne; congruence|].
    split; [reflexivity|]. cbn [files set_file]. rewrite lookup_insert_eq. split.
    + intros Hok. apply Z.leb_le in Hok. rewrite take_ge by lia. reflexivity.
    + intros Hok. apply Z.leb_gt in Hok. right. eexists. split; [reflexivity|].
      rewrite length_take. clearbody image.
      split; [|f_equal]; destruct (Nat.min_spec (Z.to_nat (disk_room os)) (length image))
        as [[? ->]|[? ->]]; lia.
  - split; [reflexivity|]. split; [reflexivity|]. split; [discriminate|]. intros _. left. reflexivity.
Qed.

Lemma save_reports_a_whole_file_full_disk :
  exists written,
    files (snd (save {| option_Large_Pages := false; lock_memory_privilege := false;
                        calloc := fun _ => 4096; virtual_alloc := fun _ => 0;
                        ofstream_opens := true; disk_room := 1 |}
                     table_with_entry world_start)) !! EmptyString = Some written /\
    (length written < length (take (Z.to_nat 32768) (cells table_with_entry)))%nat.
Proof.
  pose (os := {| option_Large_Pages := false; lock_memory_privilege := false;
                 calloc := fun _ => 4096; virtual_alloc := fun _ => 0;
                 ofstream_opens := true; disk_room := 1 |}).
  destruct (save_reports_a_whole_file os table_with_entry world_start false
              (snd (save os table_with_entry world_start)))
    as (_ & _ & _ & Hfalse).
  - cbn. lia.
  - unfold save. cbn [ofstream_opens os disk_room snd]. f_equal.
  - destruct (Hfalse eq_refl) as [Hsame|(written & Hw & Hlen & _)].
    + exfalso. apply (f_equal (fun x => files x !! EmptyString)) in Hsame.
      unfold save in Hsame. cbn [ofstream_opens os snd files set_file hashfilename
                                  table_with_entry world_start] in Hsame.
      rewrite lookup_insert_eq, lookup_empty in Hsame. discriminate.
    + exists written. split; assumption.
Defined.

Lemma resize_noop L os mbSize tt w :
  mbSize <> 0 -> newClusterCount L mbSize = clusterCount tt ->
  (use_large_pages (Try_Get_LockMemory_Privileges os w) =? 1) = large_pages_used tt ->
  resize L os mbSize tt w
    = Returns (set_mbSize_last_used mbSize tt, Try_Get_LockMemory_Privileges os w).
Proof.
  intros Hmb Hcount Hmode. unfold resize.
  destruct (Z.eqb_spec mbSize 0) as [|_]; [contradiction|].
  destruct (Z.eqb_spec mbSize 0) as [|_]; [contradiction|].
  cbn [clusterCount set_mbSize_last_used large_pages_used].
  rewrite Hcount, Z.eqb_refl. cbn [andb].
  destruct (Try_Get_LockMemory_Privileges_mode os w) as [Hm|Hm]; rewrite Hm in Hmode |- *;
    cbn in Hmode; rewrite <- Hmode; reflexivity.
Qed.

(** X19. [load] of a hash file that does not exist is [resize(0)]: [tellg]
    answers -1, which the two divisions turn into zero. A table that was
    never sized stays unsized, and a sized table whose allocation mode is the
    one in use keeps its block and every slot. *)
Theorem load_of_a_missing_file L os tt w :
  files w !! hashfilename tt = None ->
  load L os tt w = resize L os 0 tt w /\
  (mbSize_last_used tt = 0 -> load L os tt w = Returns (tt, w)) /\
  (mbSize_last_used tt <> 0 ->
   newClusterCount L (mbSize_last_used tt) = clusterCount tt ->
   (use_large_pages (Try_Get_LockMemory_Privileges os w) =? 1) = large_pages_used tt ->
   exists w', load L os tt w = Returns (tt, w') /\
     allocations w' = allocations w /\ files w' = files w).
Proof.
  intros Hfile.
  assert (Hload : load L os tt w = resize L os 0 tt w).
  { unfold load. rewrite Hfile. change (Cint.to_size_t (Cint.cdiv (Cint.cdiv (-1) 1024) 1024)) with 0.
    destruct (resize L os 0 tt w) as [[tt' w']|w']; reflexivity. }
  split; [exact Hload|]. split.
  - intros Hlast. rewrite Hload. unfold resize. cbn [Z.eqb]. rewrite Hlast. reflexivity.
  - intros Hlast Hcount Hmode. rewrite Hload, resize_zero_last_used.
    rewrite (resize_noop L os _ tt w Hlast Hcount Hmode).
    exists (Try_Get_LockMemory_Privileges os w).
    split; [destruct tt; reflexivity|].
    apply Try_Get_LockMemory_Privileges_allocations.
Qed.

Lemma load_of_a_missing_file_one_megabyte :
  exists w', load layout_3_32 os_plain table_with_entry world_start
               = Returns (table_with_entry, w') /\
    allocations w' = allocations world_start /\ files w' = files world_start.
Proof.
  refine (proj2 (proj2 (load_of_a_missing_file layout_3_32 os_plain table_with_entry world_start
                          _)) _ _ _); try reflexivity.
  discriminate.
Defined.



(** *** [hashfull]: what it does not read *)

(** X21. [hashfull] reads the first [1000 / ClusterSize] clusters only: an entry
    written anywhere else leaves it as it is. *)
Theorem hashfull_reads_a_prefix L tt c i e :
  Cint.cdiv 1000 (ClusterSize L) <= Z.of_nat c ->
  hashfull L (write_slot c i e tt) = hashfull L tt.
Proof.
  intros Hc. unfold hashfull, write_slot.
  destruct (cells tt !! c) as [cl|]; [|reflexivity].
  cbn [generation8 cells set_cells]. rewrite take_insert_ge by lia. reflexivity.
Qed.

Lemma hashfull_reads_a_prefix_cluster_400 :
  hashfull layout_3_32
           (write_slot 400 0 {| key16 := 5; move16 := 0; value16 := 0; eval16 := 0;
                                genBound8 := 4; depth8 := 1 |} table_searching)
    = hashfull layout_3_32 table_searching.
Proof. apply hashfull_reads_a_prefix. vm_compute. discriminate. Defined.

End TT.

(** ** Binary64 arithmetic: rounding to nearest is monotone *)

Module Binary64.

Import PrimFloat SpecFloat FloatOps FloatAxioms.
Import Reals Lra.

(** A [double] is a binary64 float of the kernel ([PrimFloat]), whose
    operations round to nearest, ties to even, as the processor's do; the
    kernel's axioms give each operation its specification on [spec_float]. *)

(** The conversion of an [int] to [double]. *)
Definition of_int (z : Z) : float :=
  if z <? 0 then (- of_uint63 (Uint63.of_Z (- z)))%float
  else of_uint63 (Uint63.of_Z z).

(** The integer part of the float of mantissa [m] and exponent [e]. *)
Definition trunc (m : positive) (e : Z) : Z :=
  if 0 <=? e then Zpos m * 2 ^ e else Zpos m / 2 ^ (- e).

(** The conversion of a [double] to [int], which truncates. Outside the
    range of [int], and on a NaN, C++ leaves the result undefined; the
    processor's instruction answers [INT_MIN], and so does this function. *)
Definition to_int (x : float) : Z :=
  match Prim2SF x with
  | S754_zero _ => 0
  | S754_finite s m e =>
      let z := if s then - trunc m e else trunc m e in
      if (Cint.INT_MIN <=? z) && (z <=? Cint.INT_MAX) then z else Cint.INT_MIN
  | _ => Cint.INT_MIN
  end.

(** [std::min] on [double], as the library defines it: the first argument
    unless the comparison picks the second. *)
Definition std_min (a b : float) : float := if (b <? a)%float then b else a.

#[local] Open Scope R_scope.

(** Powers of two. *)
Definition bpow (e : Z) : R := powerRZ 2 e.

(** What a location [l] of the kernel's rounding says of the real [x]
    against the integer [m]. *)
Definition located (x : R) (m : Z) (l : location) : Prop :=
  match l with
  | loc_Exact => x = IZR m
  | loc_Inexact Lt => IZR m < x < IZR m + / 2
  | loc_Inexact Eq => x = IZR m + / 2
  | loc_Inexact Gt => IZR m + / 2 < x < IZR m + 1
  end.

(** [M] is [x] rounded to the nearest integer, ties to even. *)
Definition nearest_even (x : R) (M : Z) : Prop :=
  - / 2 <= x - IZR M <= / 2 /\
  (x - IZR M = / 2 \/ x - IZR M = - / 2 -> Z.even M = true).

(** The exponent [E] the format gives the positive real [v]: the least one
    for a subnormal, else the one that leaves 53 digits. *)
Definition target (v : R) (E : Z) : Prop :=
  (E = (-1074)%Z /\ v < bpow (-1021)) \/
  ((-1074 < E)%Z /\ bpow (E + 52) <= v < bpow (E + 53)).

(** The float of a rounded mantissa [M] at exponent [E]: a mantissa that
    reached [2 ^ 53] moves up one exponent, and an exponent beyond the
    largest overflows to the infinity. *)
Definition pack (s : bool) (M E : Z) : spec_float :=
  match M with
  | Zpos p =>
      if (p =? 9007199254740992)%positive
      then if (E + 1 <=? 971)%Z then S754_finite s 4503599627370496 (E + 1) else S754_infinity s
      else if (E <=? 971)%Z then S754_finite s p E else S754_infinity s
  | _ => S754_zero s
  end.

(** [rounds v f]: [f] is the non-negative float the positive real [v]
    rounds to. *)
Definition rounds (v : R) (f : spec_float) : Prop :=
  exists E M,
    target v E /\ nearest_even (v * bpow (- E)) M /\
    (0 <= M <= 9007199254740992)%Z /\ f = pack false M E.

(** The real a mantissa and an exponent stand for. *)
Definition F2R (m : positive) (e : Z) : R := IZR (Zpos m) * bpow e.

(** Sign bit clear, and not a NaN. *)
Definition nonnegSF (f : spec_float) : Prop :=
  match f with
  | S754_zero false | S754_finite false _ _ | S754_infinity false => True
  | _ => False
  end.

(** The value of a non-negative float; infinity counts as [2 ^ 1024], above
    every finite float. *)
Definition val (f : spec_float) : R :=
  match f with
  | S754_finite _ m e => F2R m e
  | S754_infinity _ => bpow 1024
  | _ => 0
  end.

(** Sign bit clear, or a NaN. *)
Definition clearSF (f : spec_float) : Prop :=
  match f with
  | S754_zero false | S754_finite false _ _ | S754_infinity false | S754_nan => True
  | _ => False
  end.

(** The same on the kernel's floats, and the kinds of non-negative floats. *)
Definition nonneg (x : float) : Prop := nonnegSF (Prim2SF x).
Definition clear (x : float) : Prop := clearSF (Prim2SF x).
Definition isnan (x : float) : Prop := Prim2SF x = S754_nan.
Definition iszero (x : float) : Prop := Prim2SF x = S754_zero false.
Definition isinf (x : float) : Prop := Prim2SF x = S754_infinity false.
Definition finpos (x : float) : Prop := exists m e, Prim2SF x = S754_finite false m e.
Definition fval (x : float) : R := val (Prim2SF x).

(** [x] is at most [y], both being non-negative. *)
Definition below (x y : float) : Prop := nonneg x /\ nonneg y /\ fval x <= fval y.

(** [y] is a NaN or the infinity, or [x] is at most [y]. *)
Definition below_or_huge (x y : float) : Prop := isnan y \/ isinf y \/ below x y.

(** [y] is not less than one, or [x] is at most [y]. *)
Definition below_or_capped (x y : float) : Prop := (y <? 1)%float = false \/ below x y.

Lemma bpow_pos e : 0 < bpow e.
Proof. apply powerRZ_lt. lra. Qed.

Lemma bpow_add a b : bpow (a + b) = bpow a * bpow b.
Proof. apply powerRZ_add. lra. Qed.

Lemma bpow_0 : bpow 0 = 1.
Proof. reflexivity. Qed.

Lemma bpow_1 : bpow 1 = 2.
Proof. unfold bpow. simpl. lra. Qed.

Lemma bpow_succ e : bpow (e + 1) = 2 * bpow e.
Proof. rewrite bpow_add, bpow_1. lra. Qed.

Lemma bpow_opp e : bpow (- e) = / bpow e.
Proof.
  pose proof (bpow_pos e) as Hp.
  assert (H : bpow e * bpow (- e) = 1) by (rewrite <- bpow_add, Z.add_opp_diag_r; apply bpow_0).
  apply (Rmult_eq_reg_l (bpow e)); [|lra]. rewrite H. field. lra.
Qed.

Lemma bpow_m1 : bpow (-1) = / 2.
Proof. change (-1)%Z with (- (1))%Z. rewrite bpow_opp, bpow_1. reflexivity. Qed.

Lemma bpow_IZR n : (0 <= n)%Z -> bpow n = IZR (2 ^ n).
Proof.
  intros Hn. destruct n as [|p|p]; [reflexivity| |lia].
  unfold bpow. simpl powerRZ. rewrite pow_IZR, positive_nat_Z. reflexivity.
Qed.

Lemma bpow_ge_1 n : (0 <= n)%Z -> 1 <= bpow n.
Proof.
  intros Hn. rewrite bpow_IZR by exact Hn. apply IZR_le.
  pose proof (Z.pow_pos_nonneg 2 n ltac:(lia) Hn). lia.
Qed.

Lemma bpow_le a b : (a <= b)%Z -> bpow a <= bpow b.
Proof.
  intros H. replace b with (a + (b - a))%Z by lia. rewrite bpow_add.
  pose proof (bpow_pos a). pose proof (bpow_ge_1 (b - a) ltac:(lia)). nra.
Qed.

Lemma bpow_lt a b : (a < b)%Z -> bpow a < bpow b.
Proof.
  intros H. apply Rlt_le_trans with (bpow (a + 1)).
  - rewrite bpow_succ. pose proof (bpow_pos a). lra.
  - apply bpow_le. lia.
Qed.

Lemma bpow_lt_inv a b : bpow a < bpow b -> (a < b)%Z.
Proof.
  intros H. destruct (Z_lt_le_dec a b) as [|Hle]; [assumption|].
  pose proof (bpow_le b a Hle). lra.
Qed.

(** digits *)
Lemma digits2_pos_spec p :
  (2 ^ (Zpos (digits2_pos p) - 1) <= Zpos p < 2 ^ Zpos (digits2_pos p))%Z.
Proof.
  induction p as [p IH|p IH|]; simpl digits2_pos.
  - rewrite Pos2Z.inj_succ. replace (Z.succ (Z.pos (digits2_pos p)) - 1)%Z with (Z.succ (Z.pos (digits2_pos p) - 1))%Z by lia.
    rewrite !Z.pow_succ_r by lia. lia.
  - rewrite Pos2Z.inj_succ. replace (Z.succ (Z.pos (digits2_pos p)) - 1)%Z with (Z.succ (Z.pos (digits2_pos p) - 1))%Z by lia.
    rewrite !Z.pow_succ_r by lia. lia.
  - simpl. lia.
Qed.

Lemma digits2_IZR p :
  bpow (Zpos (digits2_pos p) - 1) <= IZR (Zpos p) < bpow (Zpos (digits2_pos p)).
Proof.
  destruct (digits2_pos_spec p) as [Hlo Hhi].
  rewrite !bpow_IZR by lia. split; [apply IZR_le | apply IZR_lt]; assumption.
Qed.

Lemma IZR_xO p : IZR (Zpos p~0) = 2 * IZR (Zpos p).
Proof. change (Zpos p~0) with (2 * Zpos p)%Z. rewrite mult_IZR. reflexivity. Qed.

Lemma IZR_xI p : IZR (Zpos p~1) = 2 * IZR (Zpos p) + 1.
Proof. change (Zpos p~1) with (2 * Zpos p + 1)%Z. rewrite plus_IZR, mult_IZR. reflexivity. Qed.

Lemma shr_1_located mrs x :
  (0 <= shr_m mrs)%Z ->
  located x (shr_m mrs) (loc_of_shr_record mrs) ->
  located (x / 2) (shr_m (shr_1 mrs)) (loc_of_shr_record (shr_1 mrs)) /\
  (0 <= shr_m (shr_1 mrs))%Z.
Proof.
  destruct mrs as [m r s]. cbn [shr_m]. intros Hm H.
  destruct m as [|p|p]; [| |lia].
  - split; [|destruct r, s; cbn [shr_1 shr_m orb]; lia].
    destruct r, s; cbn [shr_1 shr_m loc_of_shr_record located orb] in *; lra.
  - split; [|destruct p, r, s; cbn [shr_1 shr_m orb]; lia].
    destruct p as [p|p|].
    + pose proof (IZR_xI p) as E.
      destruct r, s; cbn [shr_1 shr_m loc_of_shr_record located orb] in *; lra.
    + pose proof (IZR_xO p) as E.
      destruct r, s; cbn [shr_1 shr_m loc_of_shr_record located orb] in *; lra.
    + destruct r, s; cbn [shr_1 shr_m loc_of_shr_record located orb] in *; lra.
Qed.

Lemma iter_shr_1_located n : forall mrs x,
  (0 <= shr_m mrs)%Z ->
  located x (shr_m mrs) (loc_of_shr_record mrs) ->
  located (x * bpow (- Zpos n)) (shr_m (SpecFloat.iter_pos shr_1 n mrs))
          (loc_of_shr_record (SpecFloat.iter_pos shr_1 n mrs)) /\
  (0 <= shr_m (SpecFloat.iter_pos shr_1 n mrs))%Z.
Proof.
  induction n as [n IH|n IH|]; intros mrs x Hm H; cbn [SpecFloat.iter_pos].
  - destruct (shr_1_located mrs x Hm H) as [H1 Hm1].
    destruct (IH _ _ Hm1 H1) as [H2 Hm2].
    destruct (IH _ _ Hm2 H2) as [H3 Hm3].
    split; [|exact Hm3].
    replace (x * bpow (- Zpos n~1)) with (x / 2 * bpow (- Zpos n) * bpow (- Zpos n)); [exact H3|].
    replace (- Zpos n~1)%Z with (- Zpos n + - Zpos n + - 1)%Z by lia.
    rewrite !bpow_add, bpow_m1. field.
  - destruct (IH _ _ Hm H) as [H2 Hm2].
    destruct (IH _ _ Hm2 H2) as [H3 Hm3].
    split; [|exact Hm3].
    replace (x * bpow (- Zpos n~0)) with (x * bpow (- Zpos n) * bpow (- Zpos n)); [exact H3|].
    replace (- Zpos n~0)%Z with (- Zpos n + - Zpos n)%Z by lia.
    rewrite !bpow_add. ring.
  - destruct (shr_1_located mrs x Hm H) as [H1 Hm1]. split; [|exact Hm1].
    replace (x * bpow (- (1))) with (x / 2); [exact H1|].
    rewrite bpow_opp, bpow_1. field.
Qed.

Lemma shr_located mrs e n x :
  (0 <= n)%Z -> (0 <= shr_m mrs)%Z ->
  located x (shr_m mrs) (loc_of_shr_record mrs) ->
  snd (shr mrs e n) = (e + n)%Z /\
  located (x * bpow (- n)) (shr_m (fst (shr mrs e n))) (loc_of_shr_record (fst (shr mrs e n))) /\
  (0 <= shr_m (fst (shr mrs e n)))%Z.
Proof.
  intros Hn Hm H. destruct n as [|p|p]; [| |lia].
  - cbn [shr fst snd]. rewrite Z.add_0_r. change (- 0)%Z with 0%Z. rewrite bpow_0, Rmult_1_r. auto.
  - cbn [shr fst snd]. destruct (iter_shr_1_located p mrs x Hm H). auto.
Qed.

Lemma shr_record_of_loc_m m l : shr_m (shr_record_of_loc m l) = m.
Proof. destruct l as [|[| |]]; reflexivity. Qed.

Lemma loc_of_shr_record_of_loc m l : loc_of_shr_record (shr_record_of_loc m l) = l.
Proof. destruct l as [|[| |]]; reflexivity. Qed.

Lemma round_nearest_even_spec x m l :
  located x m l -> nearest_even x (round_nearest_even m l).
Proof.
  unfold nearest_even. destruct l as [|[| |]]; cbn [located round_nearest_even]; intros H.
  - split; [lra|]. intros [E|E]; lra.
  - destruct (Z.even m) eqn:Ev.
    + split; [lra|]. intros _. exact Ev.
    + rewrite plus_IZR. split; [lra|]. intros _.
      rewrite Z.even_add, Ev. reflexivity.
  - split; [lra|]. intros [E|E]; lra.
  - rewrite plus_IZR. split; [lra|]. intros [E|E]; lra.
Qed.

Lemma nearest_even_mono x1 x2 M1 M2 :
  nearest_even x1 M1 -> nearest_even x2 M2 -> x1 <= x2 -> (M1 <= M2)%Z.
Proof.
  intros [B1 T1] [B2 T2] Hx.
  destruct (Z_le_gt_dec M1 M2) as [|Hgt]; [assumption|exfalso].
  assert (H : IZR M2 + 1 <= IZR M1) by (rewrite <- plus_IZR; apply IZR_le; lia).
  assert (E1 : x1 - IZR M1 = - / 2) by lra.
  assert (E2 : x2 - IZR M2 = / 2) by lra.
  assert (E : IZR M1 = IZR (M2 + 1)) by (rewrite plus_IZR; lra).
  apply eq_IZR in E. subst M1.
  specialize (T1 (or_intror E1)). specialize (T2 (or_introl E2)).
  rewrite Z.even_add, T2 in T1. discriminate T1.
Qed.

Lemma nearest_even_range x M lo hi :
  nearest_even x M -> IZR lo <= x <= IZR hi -> (lo <= M <= hi)%Z.
Proof.
  intros [B _] Hx. split.
  - destruct (Z_le_gt_dec lo M) as [|Hgt]; [assumption|exfalso].
    assert (H : IZR M + 1 <= IZR lo) by (rewrite <- plus_IZR; apply IZR_le; lia). lra.
  - destruct (Z_le_gt_dec M hi) as [|Hgt]; [assumption|exfalso].
    assert (H : IZR hi + 1 <= IZR M) by (rewrite <- plus_IZR; apply IZR_le; lia). lra.
Qed.

(** target exponent *)
Lemma fexp_eq e : fexp prec emax e = Z.max (e - 53) (-1074).
Proof. reflexivity. Qed.

Lemma located_bounds x m l : located x m l -> IZR m <= x < IZR m + 1.
Proof. destruct l as [|[| |]]; cbn [located]; lra. Qed.

Lemma scaled_bounds v e lo hi :
  lo <= v * bpow (- e) < hi -> lo * bpow e <= v < hi * bpow e.
Proof.
  intros H. pose proof (bpow_pos e) as Hp.
  assert (E : v = v * bpow (- e) * bpow e).
  { rewrite Rmult_assoc, <- bpow_add, Z.add_opp_diag_l, bpow_0. ring. }
  rewrite E. split.
  - apply Rmult_le_compat_r; lra.
  - apply Rmult_lt_compat_r; lra.
Qed.

Lemma target_of_digits m e v l :
  (0 <= m)%Z -> located (v * bpow (- e)) m l ->
  (e <= fexp prec emax (Zdigits2 m + e))%Z ->
  target v (fexp prec emax (Zdigits2 m + e)).
Proof.
  intros Hm Hloc Hpre. rewrite fexp_eq in *.
  apply located_bounds in Hloc. apply scaled_bounds in Hloc.
  pose proof (bpow_pos e) as Hpe.
  destruct m as [|p|p]; [| |lia].
  - cbn [Zdigits2] in *. left. split; [lia|].
    apply Rlt_le_trans with (bpow e); [lra|]. apply bpow_le. lia.
  - cbn [Zdigits2] in *. set (d := Zpos (digits2_pos p)) in *.
    destruct (digits2_pos_spec p) as [Dlo Dhi]. fold d in Dlo, Dhi.
    assert (Hlo : bpow (d - 1 + e) <= v).
    { rewrite bpow_add, bpow_IZR by lia.
      apply Rle_trans with (IZR (Zpos p) * bpow e); [|lra].
      apply Rmult_le_compat_r; [lra|]. apply IZR_le. exact Dlo. }
    assert (Hhi : v < bpow (d + e)).
    { rewrite bpow_add, bpow_IZR by lia.
      apply Rlt_le_trans with ((IZR (Zpos p) + 1) * bpow e); [lra|].
      apply Rmult_le_compat_r; [lra|]. rewrite <- plus_IZR. apply IZR_le. lia. }
    destruct (Z_lt_le_dec (-1074) (d + e - 53)) as [Hn|Hs].
    + right. rewrite Z.max_l by lia. split; [lia|].
      replace (d + e - 53 + 52)%Z with (d - 1 + e)%Z by lia.
      replace (d + e - 53 + 53)%Z with (d + e)%Z by lia. lra.
    + left. rewrite Z.max_r by lia. split; [reflexivity|].
      apply Rlt_le_trans with (bpow (d + e)); [lra|]. apply bpow_le. lia.
Qed.

Lemma target_mono v1 v2 E1 E2 :
  target v1 E1 -> target v2 E2 -> v1 <= v2 -> (E1 <= E2)%Z.
Proof.
  intros [[-> H1]|[G1 H1]] [[-> H2]|[G2 H2]] Hv; try lia.
  - assert (H : bpow (E1 + 52) < bpow (-1021)) by lra.
    apply bpow_lt_inv in H. lia.
  - assert (H : bpow (E1 + 52) < bpow (E2 + 53)) by lra.
    apply bpow_lt_inv in H. lia.
Qed.

Lemma target_scaled v E :
  0 < v -> target v E ->
  0 < v * bpow (- E) < IZR (2 ^ 53) /\
  ((-1074 < E)%Z -> IZR (2 ^ 52) <= v * bpow (- E)) /\ (-1074 <= E)%Z.
Proof.
  intros Hv Ht. pose proof (bpow_pos (- E)) as Hp.
  rewrite <- !bpow_IZR by lia.
  assert (Hhi : v < bpow (E + 53)).
  { destruct Ht as [[-> H]|[_ H]]; [exact H | lra]. }
  split; [split|split].
  - apply Rmult_lt_0_compat; assumption.
  - replace 53%Z with (E + 53 + - E)%Z by lia. rewrite bpow_add.
    apply Rmult_lt_compat_r; assumption.
  - intros HE. destruct Ht as [[-> H]|[_ H]]; [lia|].
    replace 52%Z with (E + 52 + - E)%Z by lia. rewrite bpow_add.
    apply Rmult_le_compat_r; lra.
  - destruct Ht as [[-> _]|[H _]]; lia.
Qed.

Lemma shr_fexp_fst_snd m e l :
  shr_fexp prec emax m e l
  = shr (shr_record_of_loc m l) e (fexp prec emax (Zdigits2 m + e) - e).
Proof. reflexivity. Qed.

Lemma shr_no_shift mrs e n : (n <= 0)%Z -> shr mrs e n = (mrs, e).
Proof. intros H. destruct n; [reflexivity | lia | reflexivity]. Qed.

Lemma pack_rounded s M E :
  (0 <= M <= 9007199254740992)%Z -> (-1074 <= E)%Z ->
  (let '(mrs, e) := shr_fexp prec emax M E loc_Exact in
   match shr_m mrs with
   | Z0 => S754_zero s
   | Zpos m => if (e <=? emax - prec)%Z then S754_finite s m e else S754_infinity s
   | Zneg _ => S754_nan
   end) = pack s M E.
Proof.
  intros HM HE. rewrite shr_fexp_fst_snd, fexp_eq.
  destruct M as [|p|p]; [| |lia].
  - cbn [Zdigits2]. rewrite shr_no_shift by lia. reflexivity.
  - unfold pack. destruct (Pos.eqb_spec p 9007199254740992) as [->|Np].
    + change (Zdigits2 9007199254740992) with 54%Z.
      replace (Z.max (54 + E - 53) (-1074) - E)%Z with 1%Z by lia.
      reflexivity.
    + cbn [Zdigits2]. destruct (digits2_pos_spec p) as [Dlo _].
      assert (Hp : (Zpos p < 9007199254740992)%Z).
      { assert (Zpos p <> 9007199254740992%Z) by (intros H; inversion H; contradiction). lia. }
      assert (Hd : (Zpos (digits2_pos p) <= 53)%Z).
      { destruct (Z_le_gt_dec (Zpos (digits2_pos p)) 53) as [|Hgt]; [assumption|exfalso].
        assert (2 ^ 53 <= 2 ^ (Zpos (digits2_pos p) - 1))%Z by (apply Z.pow_le_mono_r; lia).
        change (2 ^ 53)%Z with 9007199254740992%Z in *. lia. }
      rewrite shr_no_shift by lia. reflexivity.
Qed.

Lemma binary_round_aux_spec s m e l v :
  0 < v -> (0 <= m)%Z -> located (v * bpow (- e)) m l ->
  (e <= fexp prec emax (Zdigits2 m + e))%Z ->
  exists E M,
    target v E /\ nearest_even (v * bpow (- E)) M /\ (0 <= M <= 9007199254740992)%Z /\
    binary_round_aux prec emax s m e l = pack s M E.
Proof.
  intros Hv Hm Hloc Hpre.
  set (E := fexp prec emax (Zdigits2 m + e)) in *.
  pose proof (target_of_digits m e v l Hm Hloc Hpre) as Ht. fold E in Ht.
  destruct (target_scaled v E Hv Ht) as (Hx & _ & HE).
  destruct (shr_located (shr_record_of_loc m l) e (E - e) (v * bpow (- e)))
    as (He' & Hloc' & Hm'); [lia | rewrite shr_record_of_loc_m; exact Hm | |].
  { rewrite shr_record_of_loc_m, loc_of_shr_record_of_loc. exact Hloc. }
  assert (Hscale : v * bpow (- e) * bpow (- (E - e)) = v * bpow (- E)).
  { rewrite Rmult_assoc, <- bpow_add. do 2 f_equal. lia. }
  rewrite Hscale in Hloc'.
  unfold binary_round_aux. rewrite shr_fexp_fst_snd. fold E.
  destruct (shr (shr_record_of_loc m l) e (E - e)) as [mrs' e'] eqn:Eshr.
  cbn [fst snd] in He', Hloc', Hm'.
  replace e' with E by lia.
  set (M := round_nearest_even (shr_m mrs') (loc_of_shr_record mrs')).
  pose proof (round_nearest_even_spec _ _ _ Hloc') as Hne. fold M in Hne.
  assert (HM : (0 <= M <= 9007199254740992)%Z).
  { apply (nearest_even_range _ _ _ _ Hne).
    change (IZR (2 ^ 53)) with (IZR 9007199254740992) in Hx. lra. }
  exists E, M. split; [exact Ht|]. split; [exact Hne|]. split; [exact HM|].
  apply pack_rounded; assumption.
Qed.

(** ** Rounding is monotone *)

Lemma binary_round_aux_rounds m e l v :
  0 < v -> (0 <= m)%Z -> located (v * bpow (- e)) m l ->
  (e <= fexp prec emax (Zdigits2 m + e))%Z ->
  rounds v (binary_round_aux prec emax false m e l).
Proof.
  intros Hv Hm Hloc Hpre.
  destruct (binary_round_aux_spec false m e l v Hv Hm Hloc Hpre) as (E & M & H1 & H2 & H3 & H4).
  exists E, M. auto.
Qed.

Lemma SFleb_finite m1 e1 m2 e2 :
  SFleb (S754_finite false m1 e1) (S754_finite false m2 e2) = true <->
  (e1 < e2 \/ (e1 = e2 /\ Zpos m1 <= Zpos m2))%Z.
Proof.
  unfold SFleb, SFcompare.
  change (Pos.compare_cont Eq m1 m2) with (Pos.compare m1 m2).
  destruct (Z.compare_spec e1 e2) as [He|He|He];
    destruct (Pos.compare_spec m1 m2) as [Hm|Hm|Hm];
    split; intros H; try discriminate H; try reflexivity; lia.
Qed.

Lemma rounds_mono v1 v2 f1 f2 :
  0 < v1 -> v1 <= v2 -> rounds v1 f1 -> rounds v2 f2 -> SFleb f1 f2 = true.
Proof.
  intros Hv1 Hv (E1 & M1 & T1 & N1 & B1 & ->) (E2 & M2 & T2 & N2 & B2 & ->).
  assert (Hv2 : 0 < v2) by lra.
  pose proof (target_mono _ _ _ _ T1 T2 Hv) as HE.
  destruct (target_scaled v1 E1 Hv1 T1) as (Hx1 & _ & HE1).
  destruct (target_scaled v2 E2 Hv2 T2) as (Hx2 & Hn2 & HE2).
  assert (Hsame : E1 = E2 -> (M1 <= M2)%Z).
  { intros ->. apply (nearest_even_mono _ _ _ _ N1 N2).
    apply Rmult_le_compat_r; [pose proof (bpow_pos (- E2)); lra | exact Hv]. }
  assert (Hbig : (E1 < E2)%Z -> (4503599627370496 <= M2)%Z).
  { intros Hlt. apply (nearest_even_range _ _ 4503599627370496 9007199254740992 N2).
    change (IZR (2 ^ 52)) with (IZR 4503599627370496) in Hn2.
    change (IZR (2 ^ 53)) with (IZR 9007199254740992) in Hx2.
    split; [apply Hn2; lia | lra]. }
  unfold pack.
  destruct M1 as [|p1|p1]; [| |lia]; destruct M2 as [|p2|p2]; try lia.
  - reflexivity.
  - destruct (p2 =? 9007199254740992)%positive;
      [destruct (E2 + 1 <=? 971)%Z | destruct (E2 <=? 971)%Z]; reflexivity.
  - destruct (Pos.eqb_spec p1 9007199254740992) as [->|Np1];
      destruct (Pos.eqb_spec p2 9007199254740992) as [->|Np2];
      repeat match goal with
             | |- context [(?a <=? ?b)%Z] => destruct (Z.leb_spec a b)
             end;
      try reflexivity; try lia;
      try (apply SFleb_finite;
           destruct (Z.eq_dec E1 E2) as [Heq|Hne];
           [specialize (Hsame Heq)|specialize (Hbig ltac:(lia))]; lia).
    all: assert (Zpos p2 <> 9007199254740992%Z) by (intros H'; inversion H'; contradiction).
    all: try assert (Zpos p1 <> 9007199254740992%Z) by (intros H'; inversion H'; contradiction).
    all: try (apply SFleb_finite);
           destruct (Z.eq_dec E1 E2) as [Heq|Hne];
           [specialize (Hsame Heq)|specialize (Hbig ltac:(lia))]; try lia.
Qed.

(** ** Valid floats and their values *)

Lemma F2R_pos m e : 0 < F2R m e.
Proof.
  unfold F2R. apply Rmult_lt_0_compat; [|apply bpow_pos].
  apply IZR_lt. lia.
Qed.

Lemma bounded_spec m e :
  SpecFloat.bounded prec emax m e = true ->
  (e = Z.max (Zpos (digits2_pos m) + e - 53) (-1074) /\ e <= 971)%Z.
Proof.
  unfold SpecFloat.bounded, canonical_mantissa. rewrite fexp_eq.
  intros H. apply andb_true_iff in H as [H1 H2].
  apply Z.eqb_eq in H1. apply Z.leb_le in H2.
  change (emax - prec)%Z with 971%Z in H2. lia.
Qed.

Lemma F2R_bounds m e :
  bpow (Zpos (digits2_pos m) - 1 + e) <= F2R m e < bpow (Zpos (digits2_pos m) + e).
Proof.
  unfold F2R. rewrite !bpow_add. pose proof (bpow_pos e) as Hp.
  destruct (digits2_IZR m) as [Hlo Hhi]. split.
  - apply Rmult_le_compat_r; lra.
  - apply Rmult_lt_compat_r; lra.
Qed.

(** On valid floats the comparison of the representations is the
    comparison of the values. *)
Lemma SFleb_F2R m1 e1 m2 e2 :
  SpecFloat.bounded prec emax m1 e1 = true -> SpecFloat.bounded prec emax m2 e2 = true ->
  SFleb (S754_finite false m1 e1) (S754_finite false m2 e2) = true ->
  F2R m1 e1 <= F2R m2 e2.
Proof.
  intros B1 B2 H. apply SFleb_finite in H.
  apply bounded_spec in B1 as [C1 _]. apply bounded_spec in B2 as [C2 _].
  destruct H as [Hlt|[-> Hm]].
  - destruct (F2R_bounds m1 e1) as [_ Hhi]. destruct (F2R_bounds m2 e2) as [Hlo _].
    apply Rle_trans with (bpow (Zpos (digits2_pos m1) + e1)); [lra|].
    apply Rle_trans with (bpow (Zpos (digits2_pos m2) - 1 + e2)); [|lra].
    apply bpow_le. lia.
  - unfold F2R. apply Rmult_le_compat_r; [pose proof (bpow_pos e2); lra|].
    apply IZR_le. exact Hm.
Qed.

(** ** Multiplication *)

Lemma digits2_pos_le p d :
  (2 ^ d <= Zpos p)%Z -> (0 <= d)%Z -> (d < Zpos (digits2_pos p))%Z.
Proof.
  intros H Hd. destruct (digits2_pos_spec p) as [_ Hhi].
  destruct (Z_lt_le_dec d (Zpos (digits2_pos p))) as [|Hle]; [assumption|exfalso].
  assert (2 ^ Zpos (digits2_pos p) <= 2 ^ d)%Z by (apply Z.pow_le_mono_r; lia). lia.
Qed.

Lemma digits2_pos_mul p q :
  (Zpos (digits2_pos p) + Zpos (digits2_pos q) - 1 <= Zpos (digits2_pos (p * q)))%Z.
Proof.
  destruct (digits2_pos_spec p) as [Hp _]. destruct (digits2_pos_spec q) as [Hq _].
  assert (H : (2 ^ (Zpos (digits2_pos p) - 1 + (Zpos (digits2_pos q) - 1)) <= Zpos (p * q))%Z).
  { rewrite Z.pow_add_r by lia. rewrite Pos2Z.inj_mul.
    apply Z.mul_le_mono_nonneg; try assumption; apply Z.pow_nonneg; lia. }
  apply digits2_pos_le in H; lia.
Qed.

Lemma SFmul_rounds m1 e1 m2 e2 :
  SpecFloat.bounded prec emax m1 e1 = true -> SpecFloat.bounded prec emax m2 e2 = true ->
  rounds (F2R m1 e1 * F2R m2 e2)
         (SFmul prec emax (S754_finite false m1 e1) (S754_finite false m2 e2)).
Proof.
  intros B1 B2. cbn [SFmul xorb].
  apply bounded_spec in B1 as [C1 _]. apply bounded_spec in B2 as [C2 _].
  apply binary_round_aux_rounds.
  - apply Rmult_lt_0_compat; apply F2R_pos.
  - lia.
  - cbn [located]. unfold F2R. rewrite Pos2Z.inj_mul, mult_IZR.
    replace (- (e1 + e2))%Z with (- e1 + - e2)%Z by lia. rewrite bpow_add, !bpow_opp.
    field. split; apply Rgt_not_eq, bpow_pos.
  - rewrite fexp_eq. cbn [Zdigits2]. pose proof (digits2_pos_mul m1 m2).
    assert (0 < Zpos (digits2_pos m1))%Z by lia.
    assert (0 < Zpos (digits2_pos m2))%Z by lia. lia.
Qed.

Lemma SFmul_comm x y : SFmul prec emax x y = SFmul prec emax y x.
Proof.
  destruct x as [sx|sx| |sx mx ex], y as [sy|sy| |sy my ey]; cbn [SFmul];
    rewrite ?(xorb_comm sx sy); try reflexivity.
  rewrite (Pos.mul_comm mx my), (Z.add_comm ex ey). reflexivity.
Qed.

(** ** Division *)

Lemma new_location_located nb k q :
  (0 < nb)%Z -> (0 <= k < nb)%Z ->
  located (IZR q + IZR k / IZR nb) q (new_location nb k).
Proof.
  intros Hnb Hk.
  assert (Rnb : 0 < IZR nb) by (apply IZR_lt; lia).
  set (t := IZR k / IZR nb).
  assert (Et : t * IZR nb = IZR k) by (unfold t; field; lra).
  assert (R2 : forall a b : Z, (a < b)%Z -> IZR a < IZR b) by (intros; apply IZR_lt; assumption).
  unfold new_location.
  destruct (Z.even nb) eqn:Ev; unfold new_location_even, new_location_odd;
    (destruct (Z.eqb_spec k 0) as [Hk0|Hk0];
     [assert (t = 0) by (unfold t; rewrite Hk0; field; lra); cbn [located]; lra|]).
  - assert (Rk : 0 < IZR k) by (apply IZR_lt; lia).
    destruct (Z.compare_spec (2 * k) nb) as [He|Hl|Hg]; cbn [located].
    + assert (2 * IZR k = IZR nb) by (rewrite <- He, mult_IZR; reflexivity). nra.
    + apply R2 in Hl. rewrite mult_IZR in Hl. nra.
    + apply R2 in Hg. rewrite mult_IZR in Hg. destruct Hk as [_ Hk].
      apply R2 in Hk. nra.
  - assert (Rk : 0 < IZR k) by (apply IZR_lt; lia).
    assert (Hodd : (2 * k <> nb)%Z).
    { intros <-. rewrite Z.even_mul in Ev. discriminate Ev. }
    destruct (Z.compare_spec (2 * k + 1) nb) as [He|Hl|Hg]; cbn [located].
    + assert (Hl : (2 * k < nb)%Z) by lia. apply R2 in Hl. rewrite mult_IZR in Hl. nra.
    + assert (Hl' : (2 * k < nb)%Z) by lia. apply R2 in Hl'. rewrite mult_IZR in Hl'. nra.
    + assert (Hg' : (nb < 2 * k)%Z) by lia. apply R2 in Hg'. rewrite mult_IZR in Hg'.
      destruct Hk as [_ Hk]. apply R2 in Hk. nra.
Qed.

Lemma SFdiv_core_binary_spec m1 e1 m2 e2 :
  exists q r,
    SFdiv_core_binary prec emax (Zpos m1) e1 (Zpos m2) e2
      = (q, Z.min (fexp prec emax (Zpos (digits2_pos m1) + e1 - (Zpos (digits2_pos m2) + e2)))
                  (e1 - e2),
         new_location (Zpos m2) r) /\
    (Zpos m1 * 2 ^ (e1 - e2 - Z.min (fexp prec emax (Zpos (digits2_pos m1) + e1
                                                       - (Zpos (digits2_pos m2) + e2)))
                                    (e1 - e2))
     = Zpos m2 * q + r)%Z /\
    (0 <= r < Zpos m2)%Z.
Proof.
  unfold SFdiv_core_binary. cbn [Zdigits2].
  set (e' := Z.min _ _). set (s := (e1 - e2 - e')%Z).
  assert (Hs : (0 <= s)%Z) by (unfold s, e'; lia).
  set (m' := match s with Z0 => Zpos m1 | Zpos _ => Z.shiftl (Zpos m1) s | Zneg _ => 0%Z end).
  assert (Hm' : m' = (Zpos m1 * 2 ^ s)%Z).
  { unfold m'. destruct s as [|p|p]; [lia | apply Z.shiftl_mul_pow2; lia | lia]. }
  pose proof (Z_div_mod m' (Zpos m2) ltac:(lia)) as Hdiv.
  destruct (Z.div_eucl m' (Zpos m2)) as [q r].
  exists q, r. rewrite <- Hm'. destruct Hdiv as [Hq Hr]. auto.
Qed.

Lemma SFdiv_rounds m1 e1 m2 e2 :
  SpecFloat.bounded prec emax m1 e1 = true -> SpecFloat.bounded prec emax m2 e2 = true ->
  rounds (F2R m1 e1 / F2R m2 e2)
         (SFdiv prec emax (S754_finite false m1 e1) (S754_finite false m2 e2)).
Proof.
  intros B1 B2. cbn [SFdiv xorb].
  destruct (SFdiv_core_binary_spec m1 e1 m2 e2) as (q & r & -> & Hq & Hr).
  rewrite fexp_eq in *.
  set (d1 := Zpos (digits2_pos m1)) in *. set (d2 := Zpos (digits2_pos m2)) in *.
  set (e' := Z.min (Z.max (d1 + e1 - (d2 + e2) - 53) (-1074)) (e1 - e2)) in *.
  set (s := (e1 - e2 - e')%Z) in *.
  assert (Hs : (0 <= s)%Z) by (unfold s, e'; lia).
  pose proof (F2R_pos m1 e1) as P1. pose proof (F2R_pos m2 e2) as P2.
  assert (Hq0 : (0 <= q)%Z).
  { assert (0 <= Zpos m1 * 2 ^ s)%Z by (apply Z.mul_nonneg_nonneg; [lia | apply Z.pow_nonneg; lia]).
    destruct (Z_le_gt_dec 0 q) as [|Hneg]; [assumption|exfalso]. nia. }
  apply binary_round_aux_rounds.
  - apply Rdiv_lt_0_compat; assumption.
  - exact Hq0.
  - assert (E : F2R m1 e1 / F2R m2 e2 * bpow (- e')
                = IZR q + IZR r / IZR (Zpos m2)).
    { assert (Rm2 : 0 < IZR (Zpos m2)) by (apply IZR_lt; lia).
      assert (Hq' : IZR (Zpos m1) * bpow s = IZR (Zpos m2) * IZR q + IZR r).
      { rewrite bpow_IZR by exact Hs. rewrite <- mult_IZR, Hq, plus_IZR, mult_IZR. reflexivity. }
      unfold F2R. replace s with (e1 + - e2 + - e')%Z in Hq' by (unfold s; lia).
      rewrite !bpow_add in Hq'. rewrite (bpow_opp e2) in Hq'.
      pose proof (bpow_pos e2) as Pe2.
      apply (Rmult_eq_reg_r (IZR (Zpos m2))); [|lra].
      transitivity (IZR (Zpos m1) * (bpow e1 * / bpow e2 * bpow (- e'))); [field; lra|].
      rewrite Hq'. field. lra. }
    rewrite E. apply new_location_located; lia.
  - rewrite fexp_eq.
    destruct (Z_le_gt_dec e' (-1074)) as [Hlow|Hhigh]; [lia|].
    assert (Hs53 : (53 - d1 + d2 <= s)%Z) by (unfold s, e' in *; lia).
    destruct (digits2_pos_spec m1) as [D1 _]. destruct (digits2_pos_spec m2) as [_ D2].
    fold d1 in D1. fold d2 in D2.
    assert (Hbig : (2 ^ 52 * 2 ^ d2 <= Zpos m1 * 2 ^ s)%Z).
    { rewrite <- Z.pow_add_r by (unfold d2; lia).
      apply Z.le_trans with (2 ^ (d1 - 1) * 2 ^ s)%Z.
      - rewrite <- Z.pow_add_r by (unfold d1; lia). apply Z.pow_le_mono_r; lia.
      - apply Z.mul_le_mono_nonneg_r; [apply Z.pow_nonneg; lia | exact D1]. }
    assert (Hq52 : (2 ^ 52 <= q)%Z).
    { destruct (Z_le_gt_dec (2 ^ 52) q) as [|Hsmall]; [assumption|exfalso].
      assert (0 < 2 ^ 52)%Z by lia. nia. }
    destruct q as [|pq|pq]; [change (2 ^ 52)%Z with 4503599627370496%Z in Hq52; lia| |lia].
    apply digits2_pos_le in Hq52; [|lia]. cbn [Zdigits2]. lia.
Qed.

(** ** The order of the non-negative floats *)

Lemma F2R_lt_bpow m e :
  SpecFloat.bounded prec emax m e = true -> F2R m e < bpow 1024.
Proof.
  intros B. apply bounded_spec in B as [C1 C2].
  destruct (F2R_bounds m e) as [_ Hhi].
  apply Rlt_le_trans with (1 := Hhi). apply bpow_le. lia.
Qed.

Lemma F2R_lt m1 e1 m2 e2 :
  SpecFloat.bounded prec emax m1 e1 = true -> SpecFloat.bounded prec emax m2 e2 = true ->
  (e1 < e2)%Z -> F2R m1 e1 < F2R m2 e2.
Proof.
  intros B1 B2 Hlt.
  apply bounded_spec in B1 as [C1 _]. apply bounded_spec in B2 as [C2 _].
  destruct (F2R_bounds m1 e1) as [_ Hhi]. destruct (F2R_bounds m2 e2) as [Hlo _].
  apply Rlt_le_trans with (1 := Hhi). apply Rle_trans with (2 := Hlo).
  apply bpow_le. lia.
Qed.

Lemma SFcompare_val x y :
  valid_binary x = true -> valid_binary y = true -> nonnegSF x -> nonnegSF y ->
  match SFcompare x y with
  | Some Lt => val x < val y
  | Some Eq => val x = val y
  | Some Gt => val y < val x
  | None => False
  end.
Proof.
  intros Vx Vy Nx Ny. pose proof (bpow_pos 1024) as P.
  destruct x as [[|]|[|]| |[|] m1 e1]; try contradiction;
    destruct y as [[|]|[|]| |[|] m2 e2]; try contradiction; cbn [SFcompare val];
    try lra; try apply F2R_pos; try (apply F2R_lt_bpow; assumption).
  cbn [valid_binary] in Vx, Vy.
  change (Pos.compare_cont Eq m1 m2) with (Pos.compare m1 m2).
  destruct (Z.compare_spec e1 e2) as [He|He|He].
  - subst e2. unfold F2R. pose proof (bpow_pos e1) as Pe.
    destruct (Pos.compare_spec m1 m2) as [Hm|Hm|Hm].
    + subst. reflexivity.
    + apply Rmult_lt_compat_r; [exact Pe|]. apply IZR_lt. lia.
    + apply Rmult_lt_compat_r; [exact Pe|]. apply IZR_lt. lia.
  - apply F2R_lt; assumption.
  - apply F2R_lt; assumption.
Qed.

Lemma SFleb_val x y :
  valid_binary x = true -> valid_binary y = true -> nonnegSF x -> nonnegSF y ->
  (SFleb x y = true <-> val x <= val y).
Proof.
  intros Vx Vy Nx Ny. pose proof (SFcompare_val x y Vx Vy Nx Ny) as H.
  unfold SFleb. destruct (SFcompare x y) as [[| |]|]; try contradiction;
    split; intros H'; try reflexivity; try discriminate H'; lra.
Qed.

Lemma SFltb_val x y :
  valid_binary x = true -> valid_binary y = true -> nonnegSF x -> nonnegSF y ->
  (SFltb x y = true <-> val x < val y).
Proof.
  intros Vx Vy Nx Ny. pose proof (SFcompare_val x y Vx Vy Nx Ny) as H.
  unfold SFltb. destruct (SFcompare x y) as [[| |]|]; try contradiction;
    split; intros H'; try reflexivity; try discriminate H'; lra.
Qed.

Lemma val_range x :
  valid_binary x = true -> 0 <= val x <= bpow 1024.
Proof.
  intros V. pose proof (bpow_pos 1024) as P.
  destruct x as [s|s| |s m e]; cbn [val]; try lra.
  pose proof (F2R_pos m e). pose proof (F2R_lt_bpow m e V). lra.
Qed.

(** What rounding gives is a valid non-negative float; rounding is monotone
    for the values. *)
Lemma pack_nonneg M E : nonnegSF (pack false M E).
Proof.
  unfold pack. destruct M as [|p|p]; cbn [nonnegSF]; try exact I.
  destruct (p =? 9007199254740992)%positive;
    [destruct (E + 1 <=? 971)%Z | destruct (E <=? 971)%Z]; exact I.
Qed.

Lemma rounds_nonneg v f : rounds v f -> nonnegSF f.
Proof. intros (E & M & _ & _ & _ & ->). apply pack_nonneg. Qed.

Lemma rounds_val_mono v1 v2 f1 f2 :
  valid_binary f1 = true -> valid_binary f2 = true ->
  0 < v1 -> v1 <= v2 -> rounds v1 f1 -> rounds v2 f2 -> val f1 <= val f2.
Proof.
  intros V1 V2 Hv1 Hv R1 R2.
  apply SFleb_val; try assumption; try (eapply rounds_nonneg; eassumption).
  eapply rounds_mono; eassumption.
Qed.

(** ** Signs *)

Lemma nonnegSF_clearSF f : nonnegSF f -> clearSF f.
Proof. destruct f as [[|]|[|]| |[|] m e]; cbn; auto. Qed.

Lemma clearSF_cases f : clearSF f -> f = S754_nan \/ nonnegSF f.
Proof. destruct f as [[|]|[|]| |[|] m e]; cbn; auto. Qed.

Lemma binary_round_aux_clear m e l : clearSF (binary_round_aux prec emax false m e l).
Proof.
  unfold binary_round_aux.
  destruct (shr_fexp prec emax m e l) as [mrs' e'].
  destruct (shr_fexp prec emax _ e' loc_Exact) as [mrs'' e''].
  destruct (shr_m mrs'') as [|p|p]; cbn [clearSF]; try exact I.
  destruct (e'' <=? emax - prec)%Z; exact I.
Qed.

Lemma binary_round_clear m e : clearSF (binary_round prec emax false m e).
Proof.
  unfold binary_round. destruct (shl_align m e _) as [mz ez]. apply binary_round_aux_clear.
Qed.

Lemma SFmul_clear x y : clearSF x -> clearSF y -> clearSF (SFmul prec emax x y).
Proof.
  destruct x as [[|]|[|]| |[|] mx ex]; try contradiction;
    destruct y as [[|]|[|]| |[|] my ey]; try contradiction; intros _ _;
    cbn [SFmul xorb clearSF]; try exact I.
  apply binary_round_aux_clear.
Qed.

Lemma SFdiv_clear x y : clearSF x -> clearSF y -> clearSF (SFdiv prec emax x y).
Proof.
  destruct x as [[|]|[|]| |[|] mx ex]; try contradiction;
    destruct y as [[|]|[|]| |[|] my ey]; try contradiction; intros _ _;
    cbn [SFdiv xorb clearSF]; try exact I.
  destruct (SFdiv_core_binary prec emax (Zpos mx) ex (Zpos my) ey) as [[mz ez] lz].
  apply binary_round_aux_clear.
Qed.

Lemma SFadd_clear x y : clearSF x -> clearSF y -> clearSF (SFadd prec emax x y).
Proof.
  destruct x as [[|]|[|]| |[|] mx ex]; try contradiction;
    destruct y as [[|]|[|]| |[|] my ey]; try contradiction; intros _ _;
    cbn [SFadd clearSF cond_Zopp]; try exact I.
  cbn [Z.add binary_normalize]. apply binary_round_clear.
Qed.

Lemma binary_normalize_clear z :
  (0 <= z)%Z -> clearSF (binary_normalize prec emax z 0 false).
Proof.
  intros Hz. destruct z as [|p|p]; [exact I | apply binary_round_clear | lia].
Qed.

(** ** Conversions *)

Lemma iter_xO_spec m d :
  Zpos (Pos.iter xO m d) = (Zpos m * 2 ^ Zpos d)%Z /\
  Zpos (digits2_pos (Pos.iter xO m d)) = (Zpos (digits2_pos m) + Zpos d)%Z.
Proof.
  induction d as [|d IH] using Pos.peano_ind.
  - cbn [Pos.iter]. split; [lia|]. cbn [digits2_pos]. lia.
  - rewrite Pos.iter_succ. destruct IH as [IH1 IH2]. split.
    + rewrite Pos2Z.inj_xO, IH1, Pos2Z.inj_succ, Z.pow_succ_r by lia. lia.
    + cbn [digits2_pos]. rewrite Pos2Z.inj_succ, IH2. lia.
Qed.

Lemma binary_normalize_rounds z :
  (0 < z)%Z -> rounds (IZR z) (binary_normalize prec emax z 0 false).
Proof.
  intros Hz. destruct z as [|p|p]; [lia| |lia].
  cbn [binary_normalize]. unfold binary_round, shl_align. rewrite fexp_eq.
  set (d := Zpos (digits2_pos p)).
  assert (Hd : (0 < d)%Z) by (unfold d; lia).
  destruct (Z.max (d + 0 - 53) (-1074) - 0)%Z as [|k|k] eqn:Ek.
  - apply binary_round_aux_rounds.
    + apply IZR_lt. lia.
    + lia.
    + cbn [located]. change (- 0)%Z with 0%Z. rewrite bpow_0. lra.
    + rewrite fexp_eq. cbn [Zdigits2]. fold d. lia.
  - apply binary_round_aux_rounds.
    + apply IZR_lt. lia.
    + lia.
    + cbn [located]. change (- 0)%Z with 0%Z. rewrite bpow_0. lra.
    + rewrite fexp_eq. cbn [Zdigits2]. fold d. lia.
  - destruct (iter_xO_spec p k) as [I1 I2].
    assert (Ee : Z.max (d + 0 - 53) (-1074) = (- Zpos k)%Z) by lia.
    rewrite Ee.
    apply binary_round_aux_rounds.
    + apply IZR_lt. lia.
    + lia.
    + cbn [located]. rewrite I1, mult_IZR, Z.opp_involutive, bpow_IZR by lia. reflexivity.
    + rewrite fexp_eq. cbn [Zdigits2]. rewrite I2. fold d. lia.
Qed.

Lemma trunc_floor m e : IZR (trunc m e) <= F2R m e < IZR (trunc m e) + 1.
Proof.
  unfold trunc, F2R. destruct (Z.leb_spec 0 e) as [He|He].
  - rewrite mult_IZR, <- bpow_IZR by lia. lra.
  - set (k := (- e)%Z). assert (Hk : (0 < k)%Z) by (unfold k; lia).
    replace e with (- k)%Z by (unfold k; lia). rewrite bpow_opp, bpow_IZR by lia.
    assert (P : (0 < 2 ^ k)%Z) by (apply Z.pow_pos_nonneg; lia).
    pose proof (Z.div_mod (Zpos m) (2 ^ k) ltac:(lia)) as Hdm.
    pose proof (Z.mod_pos_bound (Zpos m) (2 ^ k) P) as Hr.
    set (q := (Zpos m / 2 ^ k)%Z) in *. set (r := (Zpos m mod 2 ^ k)%Z) in *.
    assert (RP : 0 < IZR (2 ^ k)) by (apply IZR_lt; exact P).
    assert (E : IZR (Zpos m) = IZR (2 ^ k) * IZR q + IZR r).
    { rewrite Hdm at 1. rewrite plus_IZR, mult_IZR. reflexivity. }
    assert (R0 : 0 <= IZR r) by (apply IZR_le; lia).
    assert (R1 : IZR r < IZR (2 ^ k)) by (apply IZR_lt; lia).
    rewrite E. split.
    + apply Rmult_le_reg_r with (IZR (2 ^ k)); [exact RP|].
      replace ((IZR (2 ^ k) * IZR q + IZR r) * / IZR (2 ^ k) * IZR (2 ^ k))
        with (IZR (2 ^ k) * IZR q + IZR r) by (field; lra). lra.
    + apply Rmult_lt_reg_r with (IZR (2 ^ k)); [exact RP|].
      replace ((IZR (2 ^ k) * IZR q + IZR r) * / IZR (2 ^ k) * IZR (2 ^ k))
        with (IZR (2 ^ k) * IZR q + IZR r) by (field; lra). lra.
Qed.

Lemma trunc_mono m1 e1 m2 e2 :
  F2R m1 e1 <= F2R m2 e2 -> (trunc m1 e1 <= trunc m2 e2)%Z.
Proof.
  intros H. destruct (trunc_floor m1 e1) as [L1 _]. destruct (trunc_floor m2 e2) as [_ U2].
  destruct (Z_le_gt_dec (trunc m1 e1) (trunc m2 e2)) as [|Hgt]; [assumption|exfalso].
  assert (IZR (trunc m2 e2) + 1 <= IZR (trunc m1 e1)) by (rewrite <- plus_IZR; apply IZR_le; lia).
  lra.
Qed.

Lemma trunc_range m e n :
  F2R m e <= IZR n -> (0 <= trunc m e <= n)%Z.
Proof.
  intros H. destruct (trunc_floor m e) as [L U]. pose proof (F2R_pos m e) as P. split.
  - destruct (Z_le_gt_dec 0 (trunc m e)) as [|Hneg]; [assumption|exfalso].
    assert (IZR (trunc m e) + 1 <= 0) by (rewrite <- plus_IZR; apply IZR_le; lia). lra.
  - destruct (Z_le_gt_dec (trunc m e) n) as [|Hgt]; [assumption|exfalso].
    assert (IZR n + 1 <= IZR (trunc m e)) by (rewrite <- plus_IZR; apply IZR_le; lia). lra.
Qed.

(** ** The floats of the kernel *)

Lemma nonneg_cases x : nonneg x -> iszero x \/ isinf x \/ finpos x.
Proof.
  unfold nonneg, iszero, isinf, finpos.
  destruct (Prim2SF x) as [[|]|[|]| |[|] m e]; cbn; try contradiction; eauto.
Qed.

Lemma clear_cases x : clear x -> isnan x \/ nonneg x.
Proof. apply clearSF_cases. Qed.

Lemma nonneg_clear x : nonneg x -> clear x.
Proof. apply nonnegSF_clearSF. Qed.

Lemma iszero_nonneg x : iszero x -> nonneg x.
Proof. unfold iszero, nonneg. intros ->. exact I. Qed.

Lemma isinf_nonneg x : isinf x -> nonneg x.
Proof. unfold isinf, nonneg. intros ->. exact I. Qed.

Lemma finpos_nonneg x : finpos x -> nonneg x.
Proof. unfold finpos, nonneg. intros (m & e & ->). exact I. Qed.

Lemma iszero_fval x : iszero x -> fval x = 0.
Proof. unfold iszero, fval. intros ->. reflexivity. Qed.

Lemma isinf_fval x : isinf x -> fval x = bpow 1024.
Proof. unfold isinf, fval. intros ->. reflexivity. Qed.

Lemma finpos_bounded x m e :
  Prim2SF x = S754_finite false m e -> SpecFloat.bounded prec emax m e = true.
Proof. intros H. pose proof (Prim2SF_valid x) as V. rewrite H in V. exact V. Qed.

Lemma finpos_fval x : finpos x -> 0 < fval x < bpow 1024.
Proof.
  intros (m & e & H). unfold fval. rewrite H. cbn [val]. split.
  - apply F2R_pos.
  - apply F2R_lt_bpow. apply (finpos_bounded x m e H).
Qed.

Lemma fval_range x : 0 <= fval x <= bpow 1024.
Proof. apply val_range, Prim2SF_valid. Qed.

Lemma leb_fval x y : nonneg x -> nonneg y -> ((x <=? y)%float = true <-> fval x <= fval y).
Proof. intros Nx Ny. rewrite leb_spec. apply SFleb_val; auto using Prim2SF_valid. Qed.

Lemma ltb_fval x y : nonneg x -> nonneg y -> ((x <? y)%float = true <-> fval x < fval y).
Proof. intros Nx Ny. rewrite ltb_spec. apply SFltb_val; auto using Prim2SF_valid. Qed.

Lemma ltb_isnan x y : isnan x -> (x <? y)%float = false.
Proof. unfold isnan. intros H. rewrite ltb_spec, H. reflexivity. Qed.

Lemma ltb_isinf x y : isinf x -> nonneg y -> (x <? y)%float = false.
Proof.
  intros Hx Ny. destruct (x <? y)%float eqn:E; [exfalso|reflexivity].
  apply ltb_fval in E; [|apply isinf_nonneg; exact Hx|exact Ny].
  rewrite (isinf_fval x Hx) in E. pose proof (fval_range y). lra.
Qed.

Lemma rounds_below v1 v2 a b :
  rounds v1 (Prim2SF a) -> rounds v2 (Prim2SF b) -> 0 < v1 -> v1 <= v2 -> below a b.
Proof.
  intros Ra Rb Hv1 Hv. split; [|split].
  - apply (rounds_nonneg _ _ Ra).
  - apply (rounds_nonneg _ _ Rb).
  - apply (rounds_val_mono v1 v2); auto using Prim2SF_valid.
Qed.

(** *** Products *)

Lemma mul_isnan_l x c : isnan x -> isnan (x * c).
Proof. unfold isnan. intros H. rewrite mul_spec, H. reflexivity. Qed.

Lemma mul_isnan_r x c : isnan c -> isnan (x * c).
Proof.
  unfold isnan. intros H. rewrite mul_spec, H.
  destruct (Prim2SF x) as [s|s| |s m e]; reflexivity.
Qed.

Lemma mul_clear x c : clear x -> clear c -> clear (x * c).
Proof. unfold clear. rewrite mul_spec. apply SFmul_clear. Qed.

Lemma div_clear x c : clear x -> clear c -> clear (x / c).
Proof. unfold clear. rewrite div_spec. apply SFdiv_clear. Qed.

Lemma add_clear x c : clear x -> clear c -> clear (x + c).
Proof. unfold clear. rewrite add_spec. apply SFadd_clear. Qed.

Lemma mul_finpos_rounds x c :
  finpos x -> finpos c -> rounds (fval x * fval c) (Prim2SF (x * c)).
Proof.
  intros (m1 & e1 & H1) (m2 & e2 & H2). unfold fval. rewrite mul_spec, H1, H2.
  apply SFmul_rounds; eapply finpos_bounded; eassumption.
Qed.

Lemma div_finpos_rounds x c :
  finpos x -> finpos c -> rounds (fval x / fval c) (Prim2SF (x / c)).
Proof.
  intros (m1 & e1 & H1) (m2 & e2 & H2). unfold fval. rewrite div_spec, H1, H2.
  apply SFdiv_rounds; eapply finpos_bounded; eassumption.
Qed.

Lemma mul_iszero_l x c : iszero x -> iszero c \/ finpos c -> iszero (x * c).
Proof.
  unfold iszero. intros Hx [Hc|(m & e & Hc)]; rewrite mul_spec, Hx, Hc; reflexivity.
Qed.

Lemma mul_iszero_r x c : iszero x \/ finpos x -> iszero c -> iszero (x * c).
Proof.
  unfold iszero. intros [Hx|(m & e & Hx)] Hc; rewrite mul_spec, Hx, Hc; reflexivity.
Qed.

Lemma mul_isinf_l x c : isinf x -> isinf c \/ finpos c -> isinf (x * c).
Proof.
  unfold isinf. intros Hx [Hc|(m & e & Hc)]; rewrite mul_spec, Hx, Hc; reflexivity.
Qed.

Lemma mul_isinf_r x c : isinf x \/ finpos x -> isinf c -> isinf (x * c).
Proof.
  unfold isinf. intros [Hx|(m & e & Hx)] Hc; rewrite mul_spec, Hx, Hc; reflexivity.
Qed.

Lemma mul_zero_inf x c : iszero x -> isinf c -> isnan (x * c).
Proof. unfold iszero, isinf, isnan. intros Hx Hc. rewrite mul_spec, Hx, Hc. reflexivity. Qed.

Lemma mul_inf_zero x c : isinf x -> iszero c -> isnan (x * c).
Proof. unfold iszero, isinf, isnan. intros Hx Hc. rewrite mul_spec, Hx, Hc. reflexivity. Qed.

(** A product by a positive finite factor is monotone. *)
Lemma mul_below x y c : below x y -> finpos c -> below (x * c) (y * c).
Proof.
  intros (Nx & Ny & Hle) Hc.
  pose proof (finpos_fval c Hc) as Pc. pose proof (bpow_pos 1024) as P.
  destruct (nonneg_cases x Nx) as [Hx|[Hx|Hx]]; destruct (nonneg_cases y Ny) as [Hy|[Hy|Hy]];
    try (rewrite ?(iszero_fval x Hx), ?(iszero_fval y Hy), ?(isinf_fval x Hx), ?(isinf_fval y Hy) in Hle;
         try pose proof (finpos_fval x Hx); try pose proof (finpos_fval y Hy); lra).
  - pose proof (mul_iszero_l x c Hx (or_intror Hc)) as Zx.
    pose proof (mul_iszero_l y c Hy (or_intror Hc)) as Zy.
    split; [apply iszero_nonneg; exact Zx|]. split; [apply iszero_nonneg; exact Zy|].
    rewrite (iszero_fval _ Zx), (iszero_fval _ Zy). lra.
  - pose proof (mul_iszero_l x c Hx (or_intror Hc)) as Zx.
    pose proof (mul_isinf_l y c Hy (or_intror Hc)) as Iy.
    split; [apply iszero_nonneg; exact Zx|]. split; [apply isinf_nonneg; exact Iy|].
    rewrite (iszero_fval _ Zx), (isinf_fval _ Iy). lra.
  - pose proof (mul_iszero_l x c Hx (or_intror Hc)) as Zx.
    pose proof (mul_finpos_rounds y c Hy Hc) as Ry.
    split; [apply iszero_nonneg; exact Zx|]. split; [apply (rounds_nonneg _ _ Ry)|].
    rewrite (iszero_fval _ Zx). apply fval_range.
  - pose proof (mul_isinf_l x c Hx (or_intror Hc)) as Ix.
    pose proof (mul_isinf_l y c Hy (or_intror Hc)) as Iy.
    split; [apply isinf_nonneg; exact Ix|]. split; [apply isinf_nonneg; exact Iy|].
    rewrite (isinf_fval _ Ix), (isinf_fval _ Iy). lra.
  - pose proof (mul_finpos_rounds x c Hx Hc) as Rx.
    pose proof (mul_isinf_l y c Hy (or_intror Hc)) as Iy.
    split; [apply (rounds_nonneg _ _ Rx)|]. split; [apply isinf_nonneg; exact Iy|].
    rewrite (isinf_fval _ Iy). apply fval_range.
  - pose proof (finpos_fval x Hx) as Px.
    apply (rounds_below (fval x * fval c) (fval y * fval c)).
    + apply mul_finpos_rounds; assumption.
    + apply mul_finpos_rounds; assumption.
    + apply Rmult_lt_0_compat; lra.
    + apply Rmult_le_compat_r; lra.
Qed.

Lemma below_not_inf x y : below x y -> ~ isinf y -> iszero x \/ finpos x.
Proof.
  intros (Nx & Ny & Hle) Hy.
  destruct (nonneg_cases x Nx) as [Hx|[Hx|Hx]]; auto. exfalso.
  rewrite (isinf_fval x Hx) in Hle.
  destruct (nonneg_cases y Ny) as [Hy'|[Hy'|Hy']]; [|contradiction|].
  - rewrite (iszero_fval y Hy') in Hle. pose proof (bpow_pos 1024). lra.
  - pose proof (finpos_fval y Hy'). lra.
Qed.

Lemma below_zero x y : iszero x -> iszero y -> below x y.
Proof.
  intros Zx Zy. split; [apply iszero_nonneg; exact Zx|]. split; [apply iszero_nonneg; exact Zy|].
  rewrite (iszero_fval _ Zx), (iszero_fval _ Zy). lra.
Qed.

(** The invariant of the two ratios survives a product by any factor whose
    sign bit is clear, a NaN and the infinity included. *)
Lemma mul_below_or_huge x y c : below_or_huge x y -> clear c -> below_or_huge (x * c) (y * c).
Proof.
  intros H Hc.
  destruct (clear_cases c Hc) as [Hn|Nc]; [left; apply mul_isnan_r; exact Hn|].
  destruct H as [Hy|[Hy|Hb]]; [left; apply mul_isnan_l; exact Hy | |].
  - destruct (nonneg_cases c Nc) as [Zc|[Ic|Fc]].
    + left. apply mul_inf_zero; assumption.
    + right; left. apply mul_isinf_l; auto.
    + right; left. apply mul_isinf_l; auto.
  - pose proof Hb as (Nx & Ny & Hle).
    destruct (nonneg_cases y Ny) as [Zy|[Iy|Fy]].
    + assert (Zx : iszero x).
      { destruct (below_not_inf x y Hb) as [Zx|Fx]; [|exact Zx|exfalso].
        - unfold isinf, iszero in *. rewrite Zy. discriminate.
        - pose proof (finpos_fval x Fx). rewrite (iszero_fval y Zy) in Hle. lra. }
      destruct (nonneg_cases c Nc) as [Zc|[Ic|Fc]].
      * right; right. apply below_zero; apply mul_iszero_l; auto.
      * left. apply mul_zero_inf; assumption.
      * right; right. apply below_zero; apply mul_iszero_l; auto.
    + destruct (nonneg_cases c Nc) as [Zc|[Ic|Fc]].
      * left. apply mul_inf_zero; assumption.
      * right; left. apply mul_isinf_l; auto.
      * right; left. apply mul_isinf_l; auto.
    + assert (Hx : iszero x \/ finpos x).
      { apply (below_not_inf x y Hb). destruct Fy as (m & e & Fy).
        unfold isinf. rewrite Fy. discriminate. }
      destruct (nonneg_cases c Nc) as [Zc|[Ic|Fc]].
      * right; right. apply below_zero; apply mul_iszero_r; auto.
      * right; left. apply mul_isinf_r; auto.
      * right; right. apply mul_below; assumption.
Qed.

Lemma below_or_huge_capped x y : below_or_huge x y -> below_or_capped x y.
Proof.
  intros [Hy|[Hy|Hb]].
  - left. apply ltb_isnan. exact Hy.
  - left. apply ltb_isinf; [exact Hy | exact I].
  - right. exact Hb.
Qed.

(** *** Quotients *)

Lemma div_below_or_huge x y d :
  finpos x -> finpos y -> fval x <= fval y -> clear d -> below_or_huge (x / d) (y / d).
Proof.
  intros Hx Hy Hle Hd.
  pose proof (finpos_fval x Hx) as Px.
  destruct (clear_cases d Hd) as [Hn|Nd].
  { left. unfold isnan in *. rewrite div_spec, Hn.
    destruct (Prim2SF y) as [s|s| |s m e]; reflexivity. }
  right; right.
  destruct (nonneg_cases d Nd) as [Zd|[Id|Fd]].
  - destruct Hx as (m1 & e1 & Hx). destruct Hy as (m2 & e2 & Hy).
    unfold below, nonneg, fval. unfold iszero in Zd.
    rewrite !div_spec, Hx, Hy, Zd. cbn. repeat split; auto. lra.
  - destruct Hx as (m1 & e1 & Hx). destruct Hy as (m2 & e2 & Hy).
    unfold below, nonneg, fval. unfold isinf in Id.
    rewrite !div_spec, Hx, Hy, Id. cbn. repeat split; auto. lra.
  - pose proof (finpos_fval d Fd) as Pd.
    apply (rounds_below (fval x / fval d) (fval y / fval d)).
    + apply div_finpos_rounds; assumption.
    + apply div_finpos_rounds; assumption.
    + apply Rdiv_lt_0_compat; lra.
    + apply Rmult_le_compat_r; [|lra].
      apply Rlt_le, Rinv_0_lt_compat. lra.
Qed.

(** *** Conversions *)

Lemma of_int_spec z :
  (0 <= z < 2 ^ 63)%Z -> Prim2SF (of_int z) = binary_normalize prec emax z 0 false.
Proof.
  intros Hz. unfold of_int. destruct (Z.ltb_spec z 0) as [|_]; [lia|].
  rewrite of_uint63_spec, Uint63.of_Z_spec. f_equal. apply Z.mod_small.
  change Uint63.wB with (2 ^ 63)%Z. exact Hz.
Qed.

Lemma of_int_clear z : (0 <= z < 2 ^ 63)%Z -> clear (of_int z).
Proof.
  intros Hz. unfold clear. rewrite of_int_spec by exact Hz.
  apply binary_normalize_clear. lia.
Qed.

Lemma of_int_rounds z :
  (0 < z < 2 ^ 63)%Z -> rounds (IZR z) (Prim2SF (of_int z)).
Proof.
  intros Hz. rewrite of_int_spec by lia. apply binary_normalize_rounds. lia.
Qed.

Lemma fval_INT_MAX : fval (of_int Cint.INT_MAX) = IZR Cint.INT_MAX.
Proof.
  unfold fval.
  change (Prim2SF (of_int Cint.INT_MAX)) with (S754_finite false 9007199250546688 (-22)).
  cbn [val]. unfold F2R.
  change (-22)%Z with (- (22))%Z. rewrite bpow_opp, bpow_IZR by lia.
  change (Z.pos 9007199250546688) with (Cint.INT_MAX * 2 ^ 22)%Z.
  rewrite mult_IZR. field. apply Rgt_not_eq, IZR_lt. reflexivity.
Qed.

Lemma INT_MAX_lt_bpow : IZR Cint.INT_MAX < bpow 1024.
Proof.
  apply Rlt_le_trans with (bpow 31).
  - rewrite bpow_IZR by lia. apply IZR_lt. reflexivity.
  - apply bpow_le. lia.
Qed.

Lemma below_bounded x y n :
  below x y -> fval y <= IZR n -> IZR n < bpow 1024 ->
  (iszero x \/ finpos x) /\ (iszero y \/ finpos y).
Proof.
  intros Hb Hy Hn.
  assert (Hny : ~ isinf y).
  { intros Iy. rewrite (isinf_fval y Iy) in Hy. lra. }
  split; [apply (below_not_inf x y Hb Hny)|].
  destruct Hb as (_ & Ny & _).
  destruct (nonneg_cases y Ny) as [H|[H|H]]; auto. contradiction.
Qed.

Lemma of_int_bound z :
  (0 <= z <= Cint.INT_MAX)%Z ->
  (iszero (of_int z) \/ finpos (of_int z)) /\ fval (of_int z) <= IZR Cint.INT_MAX.
Proof.
  intros Hz. destruct (Z.eq_dec z 0) as [->|Hnz].
  - split; [left; reflexivity|].
    change (fval (of_int 0)) with 0. apply IZR_le. discriminate.
  - assert (Hb : below (of_int z) (of_int Cint.INT_MAX)).
    { apply (rounds_below (IZR z) (IZR Cint.INT_MAX)).
      - apply of_int_rounds. unfold Cint.INT_MAX in Hz. lia.
      - apply of_int_rounds. unfold Cint.INT_MAX. lia.
      - apply IZR_lt. lia.
      - apply IZR_le. lia. }
    pose proof Hb as (_ & _ & Hle). rewrite fval_INT_MAX in Hle.
    split; [|exact Hle].
    apply (below_bounded _ _ Cint.INT_MAX Hb); [rewrite fval_INT_MAX; lra|].
    apply INT_MAX_lt_bpow.
Qed.

Lemma trunc_nonneg m e : (0 <= trunc m e)%Z.
Proof.
  destruct (trunc_floor m e) as [_ U]. pose proof (F2R_pos m e) as P.
  assert (H : (-1 < trunc m e)%Z) by (apply lt_IZR; lra). lia.
Qed.

Lemma to_int_finpos x m e :
  Prim2SF x = S754_finite false m e -> F2R m e <= IZR Cint.INT_MAX ->
  to_int x = trunc m e /\ (0 <= trunc m e <= Cint.INT_MAX)%Z.
Proof.
  intros Hx Hm. unfold to_int. rewrite Hx.
  destruct (trunc_range m e Cint.INT_MAX Hm) as [T0 T1].
  assert (Hr : ((Cint.INT_MIN <=? trunc m e) && (trunc m e <=? Cint.INT_MAX))%Z = true).
  { apply andb_true_iff. split; apply Z.leb_le; unfold Cint.INT_MIN; lia. }
  cbv zeta. rewrite Hr. split; [reflexivity | lia].
Qed.

Lemma to_int_iszero x : iszero x -> to_int x = 0%Z.
Proof. unfold iszero, to_int. intros ->. reflexivity. Qed.

Lemma to_int_below p q :
  below p q -> fval q <= IZR Cint.INT_MAX ->
  (0 <= to_int p <= to_int q)%Z /\ (to_int q <= Cint.INT_MAX)%Z.
Proof.
  intros Hb Hq.
  destruct (below_bounded p q Cint.INT_MAX Hb Hq INT_MAX_lt_bpow) as [Hp Hq'].
  destruct Hb as (_ & _ & Hle).
  destruct Hq' as [Zq|(mq & eq & Fq)].
  - assert (Zp : iszero p).
    { destruct Hp as [Zp|Fp]; [exact Zp|exfalso].
      pose proof (finpos_fval p Fp). rewrite (iszero_fval q Zq) in Hle. lra. }
    rewrite (to_int_iszero p Zp), (to_int_iszero q Zq). unfold Cint.INT_MAX. lia.
  - unfold fval in Hq, Hle. rewrite Fq in Hq, Hle. cbn [val] in Hq, Hle.
    destruct (to_int_finpos q mq eq Fq Hq) as [-> Rq].
    destruct Hp as [Zp|(mp & ep & Fp)].
    + rewrite (to_int_iszero p Zp). lia.
    + rewrite Fp in Hle. cbn [val] in Hle.
      destruct (to_int_finpos p mp ep Fp) as [-> Rp]; [lra|].
      pose proof (trunc_mono mp ep mq eq Hle). lia.
Qed.

(** *** The cap at one and the scaling by the time left *)

Lemma fval_one : fval 1 = 1.
Proof.
  unfold fval. change (Prim2SF 1) with (S754_finite false 4503599627370496 (-52)).
  cbn [val]. unfold F2R. change (-52)%Z with (- (52))%Z.
  rewrite bpow_opp, bpow_IZR by lia.
  change (Z.pos 4503599627370496) with (2 ^ 52)%Z. field.
  apply Rgt_not_eq, IZR_lt. reflexivity.
Qed.

Lemma finpos_one : finpos 1.
Proof. exists 4503599627370496%positive, (-52)%Z. reflexivity. Qed.

Lemma std_min_one a b :
  clear a -> below_or_capped a b ->
  below (std_min 1 a) (std_min 1 b) /\ fval (std_min 1 b) <= 1.
Proof.
  intros Ca H. unfold std_min.
  pose proof (finpos_nonneg 1 finpos_one) as N1.
  assert (Ha : below (if (a <? 1)%float then a else 1%float) 1).
  { destruct (a <? 1)%float eqn:Ea.
    - destruct (clear_cases a Ca) as [Hn|Na]; [rewrite (ltb_isnan a 1 Hn) in Ea; discriminate|].
      apply ltb_fval in Ea; [|exact Na|exact N1].
      split; [exact Na|]. split; [exact N1|]. lra.
    - split; [exact N1|]. split; [exact N1|]. lra. }
  destruct (b <? 1)%float eqn:Eb.
  - destruct H as [H|(Na & Nb & Hle)]; [congruence|].
    apply ltb_fval in Eb; [|exact Nb|exact N1]. rewrite fval_one in Eb.
    assert (Ea : (a <? 1)%float = true).
    { apply ltb_fval; [exact Na|exact N1|]. rewrite fval_one. lra. }
    rewrite Ea. split; [|lra]. repeat split; assumption.
  - split; [exact Ha|]. rewrite fval_one. lra.
Qed.

Lemma scale_below h ro rm :
  iszero h \/ finpos h -> fval h <= IZR Cint.INT_MAX ->
  below ro rm -> fval rm <= 1 ->
  below (h * ro) (h * rm) /\ fval (h * rm) <= IZR Cint.INT_MAX.
Proof.
  intros Hh Hmax Hb Hrm.
  assert (M0 : 0 <= IZR Cint.INT_MAX) by (apply IZR_le; discriminate).
  destruct (below_bounded ro rm 1 Hb Hrm) as [Ho Hm].
  { apply Rlt_le_trans with (bpow 1); [rewrite bpow_1; lra | apply bpow_le; lia]. }
  destruct Hb as (No & Nm & Hle).
  assert (Zero : forall r, iszero r \/ finpos r -> iszero h \/ iszero r -> iszero (h * r)).
  { intros r Hr [Zh|Zr]; [apply mul_iszero_l | apply mul_iszero_r]; assumption. }
  assert (Bz : forall x y, iszero x -> nonneg y -> below x y).
  { intros x y Zx Ny. split; [apply iszero_nonneg; exact Zx|]. split; [exact Ny|].
    rewrite (iszero_fval x Zx). apply fval_range. }
  destruct Hh as [Zh|Fh].
  - pose proof (Zero ro Ho (or_introl Zh)) as Z1. pose proof (Zero rm Hm (or_introl Zh)) as Z2.
    split; [apply Bz; [exact Z1 | apply iszero_nonneg; exact Z2]|].
    rewrite (iszero_fval _ Z2). exact M0.
  - pose proof (finpos_fval h Fh) as Ph.
    destruct Hm as [Zm|Fm].
    + assert (Zo : iszero ro).
      { destruct Ho as [Zo|Fo]; [exact Zo|exfalso].
        pose proof (finpos_fval ro Fo). rewrite (iszero_fval rm Zm) in Hle. lra. }
      pose proof (Zero ro (or_introl Zo) (or_intror Zo)) as Z1.
      pose proof (Zero rm (or_introl Zm) (or_intror Zm)) as Z2.
      split; [apply Bz; [exact Z1 | apply iszero_nonneg; exact Z2]|].
      rewrite (iszero_fval _ Z2). exact M0.
    + pose proof (finpos_fval rm Fm) as Pm.
      pose proof (mul_finpos_rounds h rm Fh Fm) as Rm.
      split.
      * destruct Ho as [Zo|Fo].
        -- apply Bz; [apply Zero; auto | apply (rounds_nonneg _ _ Rm)].
        -- pose proof (finpos_fval ro Fo) as Po.
           apply (rounds_below (fval h * fval ro) (fval h * fval rm)).
           ++ apply mul_finpos_rounds; assumption.
           ++ exact Rm.
           ++ apply Rmult_lt_0_compat; lra.
           ++ apply Rmult_le_compat_l; lra.
      * assert (Fmax : finpos (of_int Cint.INT_MAX)).
        { exists 9007199250546688%positive, (-22)%Z. reflexivity. }
        assert (Hb : below (h * rm) (of_int Cint.INT_MAX * 1)).
        { apply (rounds_below (fval h * fval rm) (fval (of_int Cint.INT_MAX) * fval 1)).
          - exact Rm.
          - apply mul_finpos_rounds; [exact Fmax | exact finpos_one].
          - apply Rmult_lt_0_compat; lra.
          - rewrite fval_INT_MAX, fval_one. nra. }
        destruct Hb as (_ & _ & Hb).
        change (of_int Cint.INT_MAX * 1)%float with (of_int Cint.INT_MAX) in Hb.
        rewrite fval_INT_MAX in Hb. exact Hb.
Qed.

(** *** Quotients by a positive finite divisor, and the smaller of two *)

Lemma div_iszero_l x d : iszero x -> finpos d -> iszero (x / d).
Proof.
  unfold iszero. intros Hx (m & e & Hd). rewrite div_spec, Hx, Hd. reflexivity.
Qed.

Lemma div_isinf_l x d : isinf x -> finpos d -> isinf (x / d).
Proof.
  unfold isinf. intros Hx (m & e & Hd). rewrite div_spec, Hx, Hd. reflexivity.
Qed.

Lemma div_isnan_l x d : isnan x -> isnan (x / d).
Proof. unfold isnan. intros Hx. rewrite div_spec, Hx. reflexivity. Qed.

Lemma div_below x y d : below x y -> finpos d -> below (x / d) (y / d).
Proof.
  intros (Nx & Ny & Hle) Fd.
  pose proof (finpos_fval d Fd) as Pd. pose proof (bpow_pos 1024) as P.
  assert (Bz : forall a b, iszero a -> nonneg b -> below a b).
  { intros a b Za Nb. split; [apply iszero_nonneg; exact Za|]. split; [exact Nb|].
    rewrite (iszero_fval a Za). apply fval_range. }
  assert (Bi : forall a b, nonneg a -> isinf b -> below a b).
  { intros a b Na Ib. split; [exact Na|]. split; [apply isinf_nonneg; exact Ib|].
    rewrite (isinf_fval b Ib). apply fval_range. }
  assert (Nq : forall a, nonneg a -> nonneg (a / d)).
  { intros a Na. destruct (nonneg_cases a Na) as [Za|[Ia|Fa]].
    - apply iszero_nonneg, div_iszero_l; assumption.
    - apply isinf_nonneg, div_isinf_l; assumption.
    - apply (rounds_nonneg _ _ (div_finpos_rounds a d Fa Fd)). }
  destruct (nonneg_cases x Nx) as [Zx|[Ix|Fx]].
  - apply Bz; [apply div_iszero_l; assumption | apply Nq; exact Ny].
  - apply Bi; [apply Nq; exact Nx|]. apply div_isinf_l; [|exact Fd].
    rewrite (isinf_fval x Ix) in Hle.
    destruct (nonneg_cases y Ny) as [Zy|[Iy|Fy]]; [exfalso|exact Iy|exfalso].
    + rewrite (iszero_fval y Zy) in Hle. lra.
    + pose proof (finpos_fval y Fy). lra.
  - pose proof (finpos_fval x Fx) as Px.
    destruct (nonneg_cases y Ny) as [Zy|[Iy|Fy]].
    + exfalso. rewrite (iszero_fval y Zy) in Hle. lra.
    + apply Bi; [apply Nq; exact Nx | apply div_isinf_l; assumption].
    + apply (rounds_below (fval x / fval d) (fval y / fval d)).
      * apply div_finpos_rounds; assumption.
      * apply div_finpos_rounds; assumption.
      * apply Rdiv_lt_0_compat; lra.
      * apply Rmult_le_compat_r; [|lra]. apply Rlt_le, Rinv_0_lt_compat. lra.
Qed.

Lemma div_below_or_huge_finpos x y d :
  below_or_huge x y -> finpos d -> below_or_huge (x / d) (y / d).
Proof.
  intros [Hy|[Hy|Hb]] Fd.
  - left. apply div_isnan_l. exact Hy.
  - right; left. apply div_isinf_l; assumption.
  - right; right. apply div_below; assumption.
Qed.

Lemma div_clear_finpos x d : clear x -> finpos d -> clear (x / d).
Proof. intros Cx Fd. apply div_clear; [exact Cx | apply nonneg_clear, finpos_nonneg, Fd]. Qed.

(** [std::min] of two non-negative numbers is the smaller, and is monotone
    in both. *)
Lemma std_min_below a a' b b' :
  below a a' -> below b b' ->
  below (std_min a b) (std_min a' b') /\ fval (std_min a' b') <= fval a'.
Proof.
  intros (Na & Na' & Ha) (Nb & Nb' & Hb). unfold std_min.
  assert (L : forall p q, nonneg p -> nonneg q -> (q <? p)%float = false -> fval p <= fval q).
  { intros p q Np Nq E. destruct (Rle_or_lt (fval p) (fval q)) as [|Hlt]; [assumption|].
    apply (ltb_fval q p Nq Np) in Hlt. congruence. }
  destruct (b <? a)%float eqn:E1; destruct (b' <? a')%float eqn:E2.
  - apply ltb_fval in E2; [|assumption|assumption].
    split; [|lra]. split; [exact Nb|]. split; [exact Nb' | exact Hb].
  - apply ltb_fval in E1; [|assumption|assumption].
    split; [|lra]. split; [exact Nb|]. split; [exact Na' | lra].
  - apply ltb_fval in E2; [|assumption|assumption].
    pose proof (L a b Na Nb E1).
    split; [|lra]. split; [exact Na|]. split; [exact Nb' | lra].
  - split; [|lra]. split; [exact Na|]. split; [exact Na' | exact Ha].
Qed.

Lemma Rle_trans_1 (a b : R) : a <= b -> b <= 1 -> a <= 1.
Proof. intros. lra. Qed.

Lemma below_refl x : nonneg x -> below x x.
Proof. intros Nx. split; [exact Nx|]. split; [exact Nx | apply Rle_refl]. Qed.

(** *** Integers are represented exactly *)

(** A positive integer below [2 ^ 53] rounds to itself. *)
Lemma rounds_integer z f :
  (1 <= z < 2 ^ 53)%Z -> rounds (IZR z) f ->
  val f = IZR z /\ exists m e, f = S754_finite false m e.
Proof.
  intros Hz (E & M & T & N & B & ->).
  assert (H1 : 1 <= IZR z) by (apply IZR_le; lia).
  assert (H53 : IZR z < bpow 53) by (rewrite bpow_IZR by lia; apply IZR_lt; lia).
  assert (HE : (E <= 0)%Z /\ IZR z < bpow (E + 53)).
  { destruct T as [[-> Hv]|[HE [Hlo Hhi]]].
    - exfalso. pose proof (bpow_le (-1021) 0 ltac:(lia)) as Hb. rewrite bpow_0 in Hb. lra.
    - split; [|exact Hhi].
      assert (Hlt : bpow (E + 52) < bpow 53) by lra. apply bpow_lt_inv in Hlt. lia. }
  destruct HE as [HE Hhi].
  set (k := (- E)%Z) in *. assert (Hk : (0 <= k)%Z) by (unfold k; lia).
  assert (Hpow : (0 < 2 ^ k)%Z) by (apply Z.pow_pos_nonneg; lia).
  assert (Hx : IZR z * bpow k = IZR (z * 2 ^ k)) by (rewrite mult_IZR, bpow_IZR by lia; reflexivity).
  rewrite Hx in N. destruct N as [[Nlo Nhi] _].
  assert (HM : M = (z * 2 ^ k)%Z).
  { rewrite <- minus_IZR in Nlo, Nhi.
    assert (L : (-1 < z * 2 ^ k - M)%Z) by (apply lt_IZR; lra).
    assert (U : (z * 2 ^ k - M < 1)%Z) by (apply lt_IZR; lra). lia. }
  assert (HMlt : (M < 2 ^ 53)%Z).
  { apply lt_IZR. rewrite HM, <- Hx, <- bpow_IZR by lia.
    replace 53%Z with ((E + 53) + k)%Z by (unfold k; lia). rewrite bpow_add.
    pose proof (bpow_pos k). nra. }
  assert (HMpos : (0 < M)%Z) by nia.
  destruct M as [|p|p]; try lia. unfold pack.
  destruct (Pos.eqb_spec p 9007199254740992) as [->|_].
  { exfalso. change (2 ^ 53)%Z with 9007199254740992%Z in HMlt. lia. }
  destruct (Z.leb_spec E 971) as [_|]; [|lia].
  split; [|eauto]. cbn [val]. unfold F2R. rewrite HM, <- Hx.
  replace E with (- k)%Z by (unfold k; lia). rewrite bpow_opp.
  pose proof (bpow_pos k). field. lra.
Qed.

Lemma to_int_of_value x z :
  iszero x \/ finpos x -> fval x = IZR z -> (0 <= z <= Cint.INT_MAX)%Z -> to_int x = z.
Proof.
  intros [Zx|(m & e & Fx)] Hv Hz.
  - rewrite (to_int_iszero x Zx). rewrite (iszero_fval x Zx) in Hv.
    apply eq_IZR in Hv. lia.
  - unfold fval in Hv. rewrite Fx in Hv. cbn [val] in Hv.
    destruct (to_int_finpos x m e Fx) as [-> _]; [rewrite Hv; apply IZR_le; lia|].
    destruct (trunc_floor m e) as [L U]. rewrite Hv in L, U.
    assert (A : (trunc m e <= z)%Z) by (apply le_IZR; exact L).
    assert (B : (z < trunc m e + 1)%Z) by (apply lt_IZR; rewrite plus_IZR; exact U).
    lia.
Qed.

(** An [int] that is not negative survives the conversion to [double]:
    its value is kept, and converting back gives it again. *)
Lemma of_int_exact z :
  (0 <= z <= Cint.INT_MAX)%Z ->
  (iszero (of_int z) \/ finpos (of_int z)) /\
  fval (of_int z) = IZR z /\ to_int (of_int z) = z.
Proof.
  intros Hz. unfold Cint.INT_MAX in Hz.
  assert (H : (iszero (of_int z) \/ finpos (of_int z)) /\ fval (of_int z) = IZR z).
  { destruct (Z.eq_dec z 0) as [->|Hnz].
    - split; [left; reflexivity | reflexivity].
    - destruct (rounds_integer z (Prim2SF (of_int z))) as [Hv (m & e & Hf)];
        [lia | apply of_int_rounds; lia |].
      split; [right; exists m, e; exact Hf | exact Hv]. }
  destruct H as [Hk Hv]. split; [exact Hk|]. split; [exact Hv|].
  apply to_int_of_value; [exact Hk | exact Hv | unfold Cint.INT_MAX; lia].
Qed.

(** A share of a duration: the product of a non-negative [int] by a ratio
    of at most one, converted back, is at most the [int]. *)
Lemma to_int_share z r :
  (0 <= z <= Cint.INT_MAX)%Z -> nonneg r -> fval r <= 1 ->
  (0 <= to_int (of_int z * r) <= z)%Z.
Proof.
  intros Hz Nr Hr.
  destruct (of_int_exact z Hz) as (Hk & Hv & _).
  assert (Hb : below r 1).
  { split; [exact Nr|]. split; [apply finpos_nonneg, finpos_one|]. rewrite fval_one. exact Hr. }
  destruct (scale_below (of_int z) r 1 Hk) as [Hs Hmax];
    [rewrite Hv; apply IZR_le; lia | exact Hb | rewrite fval_one; lra |].
  destruct (to_int_below _ _ Hs Hmax) as [[H0 Hle] _].
  assert (Hone : to_int (of_int z * 1) = z).
  { destruct Hk as [Zz|Fz].
    - rewrite (to_int_iszero _ (mul_iszero_l _ _ Zz (or_intror finpos_one))).
      rewrite (iszero_fval _ Zz) in Hv. apply eq_IZR in Hv. lia.
    - pose proof (finpos_fval _ Fz) as Pz. rewrite Hv in Pz.
      assert (Hz1 : (1 <= z)%Z).
      { assert (0 < z)%Z by (apply lt_IZR; lra). lia. }
      pose proof (mul_finpos_rounds _ _ Fz finpos_one) as Hrd.
      rewrite Hv, fval_one, Rmult_1_r in Hrd.
      destruct (rounds_integer z _ ltac:(unfold Cint.INT_MAX in Hz; lia) Hrd)
        as [Hval (m & e & Hf)].
      apply to_int_of_value; [right; exists m, e; exact Hf | exact Hval | exact Hz]. }
  lia.
Qed.

End Binary64.

(** ** Time manager ([timeman.cpp]) *)

Module TimeMan.

Import PrimFloat SpecFloat FloatOps FloatAxioms.
Import Binary64.

(** [std::max] on [int], as the library defines it: the first argument
    unless the comparison picks the second. *)
Definition std_max (a b : Z) : Z := if a <? b then b else a.

Inductive TimeType : Type := OptimumTime | MaxTime.

Inductive Color : Type := WHITE | BLACK.

(** Modelled from the spec: the fields of [Search::LimitsType] that [init]
    reads and writes ([search.h] is not among the sources). *)
Record LimitsType : Type := MkLimits {
  time : Color -> Z;
  inc : Color -> Z;
  movestogo : Z;
  npmsec : Z;
  limits_startTime : Z
}.

(** The options [init] reads. *)
Record Options : Type := MkOptions {
  Move_Overhead : Z;
  nodestime : Z;
  Ponder : bool
}.

(** Modelled from the spec: [class TimeManagement] ([timeman.h] is not among
    the sources): the node budget of the nodes-as-time mode, the start time
    and the two durations, which are [int]s. *)
Record TimeManagement : Type := MkTimeManagement {
  availableNodes : Z;
  startTime : Z;
  optimumTime : Z;
  maximumTime : Z
}.

Definition update (f : Color -> Z) (us : Color) (v : Z) : Color -> Z :=
  fun c => match us, c with
           | WHITE, WHITE | BLACK, BLACK => v
           | _, _ => f c
           end.

Section WithExp.

(** [exp] of [<cmath>], which the C++ library provides. *)
Variable exp : float -> float.

(** [gauss(x, a, b)]. *)
Definition gauss (x : Z) (a b : float) : float :=
  exp (((- (of_int x - a)) * (of_int x - a)) / b)%float.

(** The ratio of [remaining<T>] before it is capped at one, and [sd]. *)
Definition TRatio_sd (T : TimeType) (movesToGo mn : Z) : float * float :=
  if negb (movesToGo =? 0) then
    let TRatio :=
      ((match T with OptimumTime => 0.9 | MaxTime => 5.6 end) / of_int movesToGo)%float in
    (if mn <=? 40 then (TRatio * gauss movesToGo 19.0 1600.0)%float
     else (TRatio * 1.3)%float,
     8.5%float)
  else
    let sd := (1.0 + 13.5 * of_int mn / (500.0 + of_int mn))%float in
    (((match T with OptimumTime => 0.018 | MaxTime => 0.074 end) * sd)%float, sd).

(** [remaining<T>(myTime, myInc, moveOverhead, movesToGo, ply)]. *)
Definition remaining (T : TimeType) (myTime myInc moveOverhead movesToGo ply : Z) : Z :=
  let mn := Cint.cdiv (Cint.to_int (ply + 1)) 2 in
  let '(TRatio, sd) := TRatio_sd T movesToGo mn in
  let incUsage := (49.0 + 28.5 * gauss mn 20.0 465.0)%float in
  let ratio :=
    std_min 1.0
      (TRatio * (1.0 + incUsage * of_int myInc / (of_int myTime * sd)))%float in
  let hypMyTime := std_max 0 (Cint.to_int (myTime - moveOverhead)) in
  to_int (of_int hypMyTime * ratio)%float.

(** The nodes-as-time conversion at the head of [init]. *)
Definition nodes_as_time (npms : Z) (us : Color) (tm : TimeManagement) (limits : LimitsType)
  : TimeManagement * LimitsType :=
  if negb (npms =? 0) then
    let nodes :=
      if availableNodes tm =? 0
      then Cint.to_int64 (Cint.to_int (npms * time limits us))
      else availableNodes tm in
    ({| availableNodes := nodes; startTime := startTime tm;
        optimumTime := optimumTime tm; maximumTime := maximumTime tm |},
     {| time := update (time limits) us (Cint.to_int nodes);
        inc := update (inc limits) us (Cint.to_int (inc limits us * npms));
        movestogo := movestogo limits;
        npmsec := npms;
        limits_startTime := limits_startTime limits |})
  else (tm, limits).

(** [TimeManagement::init(limits, us, ply)]. *)
Definition init (opts : Options) (limits : LimitsType) (us : Color) (ply : Z)
    (tm : TimeManagement) : TimeManagement * LimitsType :=
  let moveOverhead := Cint.to_int (Move_Overhead opts) in
  let npms := Cint.to_int (nodestime opts) in
  let '(tm, limits) := nodes_as_time npms us tm limits in
  let optimum :=
    remaining OptimumTime (time limits us) (inc limits us) moveOverhead (movestogo limits) ply in
  let maximum :=
    remaining MaxTime (time limits us) (inc limits us) moveOverhead (movestogo limits) ply in
  let optimum :=
    if Ponder opts then Cint.to_int (optimum + Cint.cdiv optimum 4) else optimum in
  ({| availableNodes := availableNodes tm; startTime := limits_startTime limits;
      optimumTime := optimum; maximumTime := maximum |}, limits).

End WithExp.

(** The options with the ponder flag set as given. *)
Definition with_Ponder (b : bool) (opts : Options) : Options :=
  {| Move_Overhead := Move_Overhead opts; nodestime := nodestime opts; Ponder := b |}.

(** A clock: the same time and increment for both sides. *)
Definition clock (myTime myInc movesToGo : Z) : LimitsType :=
  {| time := fun _ => myTime; inc := fun _ => myInc; movestogo := movesToGo;
     npmsec := 0; limits_startTime := 0 |}.

Definition TimeManagement_new : TimeManagement :=
  {| availableNodes := 0; startTime := 0; optimumTime := 0; maximumTime := 0 |}.

(** The options and the clock of the examples: one second left, no
    increment, one move to go at ply 159, one millisecond of overhead. *)
Definition last_move_options (ponder : bool) : Options :=
  {| Move_Overhead := 1; nodestime := 0; Ponder := ponder |}.

Definition last_move (exp : float -> float) (ponder : bool) : TimeManagement :=
  fst (init exp (last_move_options ponder) (clock 1000 0 1) WHITE 159 TimeManagement_new).

(** What the proofs ask of [exp]: it never answers a negative number nor
    a negative zero. It may answer a NaN or the infinity. *)
Definition exp_sign_clear (exp : float -> float) : Prop := forall x, clear (exp x).

(** A coarse stand-in for [exp], for the examples: a half below zero, one
    from zero on. *)
Definition exp_coarse (x : float) : float := if (x <? 0)%float then 0.5%float else 1%float.

(** *** The ponder inflation *)

(** Whatever [y] is, [y * 0] is a zero or a NaN. *)
Lemma mul_zero_cases (y : float) :
  (y * 0 = 0 \/ y * 0 = -0 \/ y * 0 = nan)%float.
Proof.
  pose proof (mul_spec y 0) as H.
  rewrite <- (SF2Prim_Prim2SF (y * 0)), H.
  change (Prim2SF 0) with (S754_zero false).
  destruct (Prim2SF y) as [[|]|[|]| |[|] m e]; cbn; auto.
Qed.

(** With no increment, one move to go and the game past move 40, both
    ratios are capped at one whatever [exp] answers: [remaining] is the time
    left after the overhead. *)
Lemma remaining_last_move exp T :
  remaining exp T 1000 0 1 1 159 = 999.
Proof.
  unfold remaining.
  change (Cint.cdiv (Cint.to_int (159 + 1)) 2) with 80.
  change (of_int 0) with 0%float.
  set (y := (49.0 + 28.5 * gauss exp 80 20.0 465.0)%float).
  destruct (mul_zero_cases y) as [E|[E|E]]; rewrite E; destruct T; vm_compute; reflexivity.
Qed.

Lemma last_move_times exp ponder :
  optimumTime (last_move exp ponder) = (if ponder then 1248 else 999) /\
  maximumTime (last_move exp ponder) = 999.
Proof.
  unfold last_move, init, nodes_as_time. cbn [last_move_options nodestime Move_Overhead Ponder].
  change (Cint.to_int 0 =? 0) with true. cbn [negb clock time inc movestogo fst].
  change (Cint.to_int 1) with 1. rewrite !remaining_last_move.
  cbn [optimumTime maximumTime]. destruct ponder; split; reflexivity.
Qed.

(** C8, as the code has it. For the same inputs, turning the ponder option
    on leaves [maximumTime] as it is and adds to [optimumTime] its quarter
    as the integer division gives it, rounded towards zero: below [2 ^ 30]
    that is 25 per cent with up to three quarters of a unit missing. *)
Theorem ponder_adds_truncated_quarter exp opts limits us ply tm :
  let quiet := fst (init exp (with_Ponder false opts) limits us ply tm) in
  let ponder := fst (init exp (with_Ponder true opts) limits us ply tm) in
  optimumTime ponder
    = Cint.to_int (optimumTime quiet + Cint.cdiv (optimumTime quiet) 4) /\
  maximumTime ponder = maximumTime quiet /\
  (0 <= optimumTime quiet < 2 ^ 30 ->
     optimumTime ponder = optimumTime quiet + optimumTime quiet / 4 /\
     0 <= 5 * optimumTime quiet - 4 * optimumTime ponder <= 3).
Proof.
  unfold init. cbn [with_Ponder Move_Overhead nodestime Ponder].
  destruct (nodes_as_time _ us tm limits) as [tm1 limits1].
  cbn [fst optimumTime maximumTime].
  set (o := remaining exp OptimumTime _ _ _ _ _).
  split; [reflexivity|]. split; [reflexivity|].
  intros Ho. unfold Cint.cdiv. rewrite Z.quot_div_nonneg by lia.
  assert (Hq : 0 <= o / 4 <= o).
  { split; [apply Z.div_pos; lia | apply Z.div_le_upper_bound; lia]. }
  rewrite Cint.to_int_small by lia.
  split; [reflexivity|].
  pose proof (Z.div_mod o 4 ltac:(lia)) as Hdm.
  pose proof (Z.mod_pos_bound o 4 ltac:(lia)) as Hm. lia.
Qed.

(** On the last move before the time control the optimum of 999 grows
    to 1248. *)
Lemma ponder_adds_truncated_quarter_last_move :
  optimumTime (last_move exp_coarse true)
    = optimumTime (last_move exp_coarse false) + optimumTime (last_move exp_coarse false) / 4.
Proof.
  refine (proj1 (proj2 (proj2 (ponder_adds_truncated_quarter exp_coarse (last_move_options false)
                                 (clock 1000 0 1) WHITE 159 TimeManagement_new)) _)).
  vm_compute. split; congruence.
Defined.

(** C8 as stated fails on the last move before the time control with one
    second left: whatever [exp] answers, the optimum is 999 without ponder
    and 1248 with it, which is not 999 and a quarter of 999. *)
Lemma ponder_not_exactly_a_quarter :
  ~ exists exp : float -> float,
      4 * optimumTime (last_move exp true) = 5 * optimumTime (last_move exp false).
Proof.
  intros [exp H].
  destruct (last_move_times exp true) as [H1 _].
  destruct (last_move_times exp false) as [H0 _].
  rewrite H1, H0 in H. discriminate H.
Qed.

(** C1 as stated fails on the same move: both ratios are capped at one, so
    the two durations are 999 before the inflation, and with ponder on the
    optimum ends at 1248, above the maximum, whatever [exp] answers. *)
Lemma ponder_optimum_above_maximum :
  ~ exists exp : float -> float,
      optimumTime (last_move exp true) <= maximumTime (last_move exp true).
Proof.
  intros [exp H].
  destruct (last_move_times exp true) as [H1 H2].
  rewrite H1, H2 in H. lia.
Qed.

(** *** The maximum dominates the optimum before the inflation *)

Lemma exp_coarse_sign_clear : exp_sign_clear exp_coarse.
Proof. intros x. unfold exp_coarse. destruct (x <? 0)%float; exact I. Qed.

Lemma finpos_of_bool x :
  (match Prim2SF x with S754_finite false _ _ => true | _ => false end) = true -> finpos x.
Proof.
  unfold finpos. destruct (Prim2SF x) as [s|s| |[|] m e]; try discriminate. eauto.
Qed.

Ltac finpos_const := apply finpos_of_bool; vm_compute; reflexivity.

Lemma below_const x y : finpos x -> finpos y -> (x <=? y)%float = true -> below x y.
Proof.
  intros Fx Fy H. pose proof (finpos_nonneg x Fx) as Nx. pose proof (finpos_nonneg y Fy) as Ny.
  split; [exact Nx|]. split; [exact Ny|]. apply leb_fval; assumption.
Qed.

Lemma mn_range ply :
  0 <= ply < Cint.INT_MAX -> 0 <= Cint.cdiv (Cint.to_int (ply + 1)) 2 <= Cint.INT_MAX.
Proof.
  unfold Cint.INT_MAX, Cint.cdiv. intros H.
  rewrite Cint.to_int_small by lia. rewrite Z.quot_div_nonneg by lia.
  split; [apply Z.div_pos; lia|].
  apply Z.le_trans with (ply + 1); [apply Z.div_le_upper_bound; lia | lia].
Qed.

Lemma of_int_clear_int z : 0 <= z <= Cint.INT_MAX -> clear (of_int z).
Proof. unfold Cint.INT_MAX. intros H. apply of_int_clear. lia. Qed.

(** The two ratios before the cap: [sd] is the same for both, and the
    optimum's ratio is at most the maximum's unless that one is a NaN or
    the infinity. *)
Lemma TRatio_sd_below_or_huge exp movesToGo mn :
  exp_sign_clear exp ->
  0 <= movesToGo <= Cint.INT_MAX -> 0 <= mn <= Cint.INT_MAX ->
  snd (TRatio_sd exp OptimumTime movesToGo mn) = snd (TRatio_sd exp MaxTime movesToGo mn) /\
  clear (snd (TRatio_sd exp MaxTime movesToGo mn)) /\
  clear (fst (TRatio_sd exp OptimumTime movesToGo mn)) /\
  below_or_huge (fst (TRatio_sd exp OptimumTime movesToGo mn)) (fst (TRatio_sd exp MaxTime movesToGo mn)).
Proof.
  intros Hexp Hm Hmn. unfold TRatio_sd.
  pose proof (of_int_clear_int movesToGo Hm) as Cm.
  pose proof (of_int_clear_int mn Hmn) as Cmn.
  destruct (movesToGo =? 0); cbn [negb fst snd].
  - assert (Csd : clear (1.0 + 13.5 * of_int mn / (500.0 + of_int mn))).
    { apply add_clear; [exact I|]. apply div_clear; [apply mul_clear; [exact I | exact Cmn]|].
      apply add_clear; [exact I | exact Cmn]. }
    split; [reflexivity|]. split; [exact Csd|]. split; [apply mul_clear; [exact I | exact Csd]|].
    apply mul_below_or_huge; [|exact Csd].
    right; right. apply below_const; [finpos_const | finpos_const | reflexivity].
  - split; [reflexivity|]. split; [exact I|].
    assert (Q : below_or_huge (0.9 / of_int movesToGo) (5.6 / of_int movesToGo)).
    { apply div_below_or_huge; [finpos_const | finpos_const | | exact Cm].
      apply leb_fval; [exact I | exact I | reflexivity]. }
    assert (Cq : clear (0.9 / of_int movesToGo)) by (apply div_clear; [exact I | exact Cm]).
    destruct (mn <=? 40).
    + split; [apply mul_clear; [exact Cq | apply Hexp]|]. apply mul_below_or_huge; [exact Q | apply Hexp].
    + split; [apply mul_clear; [exact Cq | exact I]|]. apply mul_below_or_huge; [exact Q | exact I].
Qed.

(** Before the inflation, the share of the optimum is at most the share of
    the maximum, and both are durations: non-negative [int]s. *)
Lemma remaining_Optimum_le_Max exp myTime myInc moveOverhead movesToGo ply :
  exp_sign_clear exp ->
  0 <= myTime <= Cint.INT_MAX -> 0 <= myInc <= Cint.INT_MAX ->
  0 <= movesToGo <= Cint.INT_MAX -> 0 <= ply < Cint.INT_MAX ->
  0 <= remaining exp OptimumTime myTime myInc moveOverhead movesToGo ply
    <= remaining exp MaxTime myTime myInc moveOverhead movesToGo ply /\
  remaining exp MaxTime myTime myInc moveOverhead movesToGo ply <= Cint.INT_MAX.
Proof.
  intros Hexp Ht Hi Hm Hp. unfold remaining.
  pose proof (mn_range ply Hp) as Hmn.
  set (mn := Cint.cdiv (Cint.to_int (ply + 1)) 2) in *.
  destruct (TRatio_sd_below_or_huge exp movesToGo mn Hexp Hm Hmn) as (Esd & Csd & Co & HI).
  destruct (TRatio_sd exp OptimumTime movesToGo mn) as [TRo sdo].
  destruct (TRatio_sd exp MaxTime movesToGo mn) as [TRm sd].
  cbn [fst snd] in Esd, Csd, Co, HI. subst sdo.
  set (incUsage := (49.0 + 28.5 * gauss exp mn 20.0 465.0)%float).
  set (F := (1.0 + incUsage * of_int myInc / (of_int myTime * sd))%float).
  assert (CF : clear F).
  { apply add_clear; [exact I|]. apply div_clear.
    - apply mul_clear; [|apply of_int_clear_int; exact Hi].
      apply add_clear; [exact I|]. apply mul_clear; [exact I | apply Hexp].
    - apply mul_clear; [apply of_int_clear_int; exact Ht | exact Csd]. }
  set (hypMyTime := std_max 0 (Cint.to_int (myTime - moveOverhead))).
  assert (Hh : 0 <= hypMyTime <= Cint.INT_MAX).
  { unfold hypMyTime, std_max. pose proof (Cint.to_int_range (myTime - moveOverhead)) as R.
    destruct (Z.ltb_spec 0 (Cint.to_int (myTime - moveOverhead))); unfold Cint.INT_MAX in *; lia. }
  destruct (of_int_bound hypMyTime Hh) as [Hz Hb].
  destruct (std_min_one (TRo * F) (TRm * F)) as [Hr H1].
  { apply mul_clear; assumption. }
  { apply below_or_huge_capped, mul_below_or_huge; assumption. }
  destruct (scale_below (of_int hypMyTime) _ _ Hz Hb Hr H1) as [Hs Hmax].
  apply to_int_below; assumption.
Qed.

(** C1, as the code has it. Before the ponder inflation the maximum
    dominates the optimum: for a clock the conversion to nodes leaves with
    non-negative [int]s for the time, the increment and the moves to go, a
    ply below [INT_MAX] and an [exp] that never answers a negative number,
    [init] without ponder gives [0 <= optimumTime <= maximumTime]. With
    ponder on only the optimum grows, by its truncated quarter, so that it
    stays within the maximum and a quarter of it. *)
Theorem optimum_within_maximum_before_ponder exp opts limits us ply tm :
  let seen := snd (nodes_as_time (Cint.to_int (nodestime opts)) us tm limits) in
  let quiet := fst (init exp (with_Ponder false opts) limits us ply tm) in
  let ponder := fst (init exp (with_Ponder true opts) limits us ply tm) in
  exp_sign_clear exp ->
  0 <= time seen us <= Cint.INT_MAX ->
  0 <= inc seen us <= Cint.INT_MAX ->
  0 <= movestogo seen <= Cint.INT_MAX ->
  0 <= ply < Cint.INT_MAX ->
  0 <= optimumTime quiet <= maximumTime quiet /\
  maximumTime quiet <= Cint.INT_MAX /\
  (maximumTime quiet < 2 ^ 30 ->
     optimumTime ponder <= maximumTime ponder + maximumTime ponder / 4).
Proof.
  unfold init. cbn [with_Ponder Move_Overhead nodestime Ponder].
  destruct (nodes_as_time _ us tm limits) as [tm1 limits1].
  cbn [fst snd optimumTime maximumTime].
  intros Hexp Ht Hi Hm Hp.
  destruct (remaining_Optimum_le_Max exp (time limits1 us) (inc limits1 us)
              (Cint.to_int (Move_Overhead opts)) (movestogo limits1) ply Hexp Ht Hi Hm Hp)
    as [Hle Hmax].
  set (o := remaining exp OptimumTime _ _ _ _ _) in *.
  set (m := remaining exp MaxTime _ _ _ _ _) in *.
  split; [exact Hle|]. split; [exact Hmax|].
  intros Hsmall. unfold Cint.cdiv. rewrite Z.quot_div_nonneg by lia.
  assert (Hq : 0 <= o / 4 <= m / 4).
  { split; [apply Z.div_pos; lia | apply Z.div_le_mono; lia]. }
  assert (Hm4 : m / 4 <= m) by (apply Z.div_le_upper_bound; lia).
  rewrite Cint.to_int_small by lia. lia.
Qed.

(** The theorem applies to a sudden-death clock of one minute at the first
    move, with the coarse [exp]. *)
Lemma optimum_within_maximum_one_minute :
  let opts := {| Move_Overhead := 30; nodestime := 0; Ponder := false |} in
  let quiet := fst (init exp_coarse (with_Ponder false opts) (clock 60000 0 0) WHITE 1
                      TimeManagement_new) in
  0 <= optimumTime quiet <= maximumTime quiet.
Proof.
  intros opts quiet.
  refine (proj1 (optimum_within_maximum_before_ponder exp_coarse opts (clock 60000 0 0) WHITE 1
            TimeManagement_new exp_coarse_sign_clear _ _ _ _));
    vm_compute; split; congruence.
Defined.

(** *** The durations and the time left *)

Lemma TRatio_sd_clear exp T movesToGo mn :
  exp_sign_clear exp ->
  0 <= movesToGo <= Cint.INT_MAX -> 0 <= mn <= Cint.INT_MAX ->
  clear (fst (TRatio_sd exp T movesToGo mn)) /\ clear (snd (TRatio_sd exp T movesToGo mn)).
Proof.
  intros Hexp Hm Hmn. unfold TRatio_sd.
  pose proof (of_int_clear_int movesToGo Hm) as Cm.
  pose proof (of_int_clear_int mn Hmn) as Cmn.
  destruct (movesToGo =? 0); cbn [negb fst snd].
  - assert (Csd : clear (1.0 + 13.5 * of_int mn / (500.0 + of_int mn))).
    { apply add_clear; [exact I|]. apply div_clear; [apply mul_clear; [exact I | exact Cmn]|].
      apply add_clear; [exact I | exact Cmn]. }
    split; [|exact Csd]. apply mul_clear; [destruct T; exact I | exact Csd].
  - split; [|exact I].
    assert (Cq : clear ((match T with OptimumTime => 0.9 | MaxTime => 5.6 end) / of_int movesToGo)).
    { apply div_clear; [destruct T; exact I | exact Cm]. }
    destruct (mn <=? 40); apply mul_clear; try exact Cq; [apply Hexp | exact I].
Qed.

(** What [remaining] answers is a share of the time left after the
    overhead: it is not negative and not more than that time. *)
Lemma remaining_bounds exp T myTime myInc moveOverhead movesToGo ply :
  exp_sign_clear exp ->
  0 <= myTime <= Cint.INT_MAX -> 0 <= myInc <= Cint.INT_MAX ->
  0 <= movesToGo <= Cint.INT_MAX -> 0 <= ply < Cint.INT_MAX ->
  0 <= remaining exp T myTime myInc moveOverhead movesToGo ply
    <= std_max 0 (Cint.to_int (myTime - moveOverhead)).
Proof.
  intros Hexp Ht Hi Hm Hp. unfold remaining.
  pose proof (mn_range ply Hp) as Hmn.
  set (mn := Cint.cdiv (Cint.to_int (ply + 1)) 2) in *.
  destruct (TRatio_sd_clear exp T movesToGo mn Hexp Hm Hmn) as (Ctr & Csd).
  destruct (TRatio_sd exp T movesToGo mn) as [TR sd]. cbn [fst snd] in Ctr, Csd.
  set (incUsage := (49.0 + 28.5 * gauss exp mn 20.0 465.0)%float).
  set (F := (1.0 + incUsage * of_int myInc / (of_int myTime * sd))%float).
  assert (CF : clear F).
  { apply add_clear; [exact I|]. apply div_clear.
    - apply mul_clear; [|apply of_int_clear_int; exact Hi].
      apply add_clear; [exact I|]. apply mul_clear; [exact I | apply Hexp].
    - apply mul_clear; [apply of_int_clear_int; exact Ht | exact Csd]. }
  set (hypMyTime := std_max 0 (Cint.to_int (myTime - moveOverhead))).
  assert (Hh : 0 <= hypMyTime <= Cint.INT_MAX).
  { unfold hypMyTime, std_max. pose proof (Cint.to_int_range (myTime - moveOverhead)) as R.
    destruct (Z.ltb_spec 0 (Cint.to_int (myTime - moveOverhead))); unfold Cint.INT_MAX in *; lia. }
  assert (Ca : clear (TR * F)) by (apply mul_clear; assumption).
  destruct (std_min_one (TR * F) (TR * F) Ca) as [(Nr & _ & _) H1].
  { destruct (clear_cases _ Ca) as [Hn|Na].
    - left. apply ltb_isnan. exact Hn.
    - right. apply below_refl. exact Na. }
  apply to_int_share; assumption.
Qed.

Lemma left_after_overhead myTime moveOverhead :
  0 <= myTime -> myTime <= moveOverhead <= Cint.INT_MAX ->
  std_max 0 (Cint.to_int (myTime - moveOverhead)) = 0.
Proof.
  unfold Cint.INT_MAX. intros Ht Ho. rewrite Cint.to_int_small by lia.
  unfold std_max. destruct (Z.ltb_spec 0 (myTime - moveOverhead)); [lia | reflexivity].
Qed.

(** X22. Without ponder both durations lie between zero and the time left on
    the clock after the move overhead; the maximum does so with ponder too. *)
Theorem durations_within_time_left exp opts limits us ply tm :
  let seen := snd (nodes_as_time (Cint.to_int (nodestime opts)) us tm limits) in
  let quiet := fst (init exp (with_Ponder false opts) limits us ply tm) in
  let ponder := fst (init exp (with_Ponder true opts) limits us ply tm) in
  let left := std_max 0 (Cint.to_int (time seen us - Cint.to_int (Move_Overhead opts))) in
  exp_sign_clear exp ->
  0 <= time seen us <= Cint.INT_MAX ->
  0 <= inc seen us <= Cint.INT_MAX ->
  0 <= movestogo seen <= Cint.INT_MAX ->
  0 <= ply < Cint.INT_MAX ->
  0 <= optimumTime quiet <= left /\
  0 <= maximumTime quiet <= left /\
  0 <= maximumTime ponder <= left.
Proof.
  unfold init. cbn [with_Ponder Move_Overhead nodestime Ponder].
  destruct (nodes_as_time _ us tm limits) as [tm1 limits1].
  cbn [fst snd optimumTime maximumTime].
  intros Hexp Ht Hi Hm Hp.
  pose proof (remaining_bounds exp OptimumTime _ _ (Cint.to_int (Move_Overhead opts)) _ _
                Hexp Ht Hi Hm Hp) as Ho.
  pose proof (remaining_bounds exp MaxTime _ _ (Cint.to_int (Move_Overhead opts)) _ _
                Hexp Ht Hi Hm Hp) as Hx.
  split; [exact Ho|]. split; exact Hx.
Qed.

Lemma durations_within_time_left_one_minute :
  let quiet := fst (init exp_coarse {| Move_Overhead := 30; nodestime := 0; Ponder := false |}
                      (clock 60000 0 0) WHITE 1 TimeManagement_new) in
  0 <= optimumTime quiet <= 59970 /\ 0 <= maximumTime quiet <= 59970.
Proof.
  intros quiet.
  destruct (durations_within_time_left exp_coarse
              {| Move_Overhead := 30; nodestime := 0; Ponder := false |}
              (clock 60000 0 0) WHITE 1 TimeManagement_new exp_coarse_sign_clear)
    as (Ho & Hm & _); try (vm_compute; split; congruence).
  split; [exact Ho | exact Hm].
Defined.

(** X23. When the move overhead is the time on the clock or more, both
    durations are zero, with ponder and without. *)
Theorem durations_zero_without_time_left exp opts limits us ply tm ponder :
  let seen := snd (nodes_as_time (Cint.to_int (nodestime opts)) us tm limits) in
  let result := fst (init exp (with_Ponder ponder opts) limits us ply tm) in
  exp_sign_clear exp ->
  0 <= time seen us <= Cint.INT_MAX ->
  0 <= inc seen us <= Cint.INT_MAX ->
  0 <= movestogo seen <= Cint.INT_MAX ->
  0 <= ply < Cint.INT_MAX ->
  time seen us <= Cint.to_int (Move_Overhead opts) ->
  optimumTime result = 0 /\ maximumTime result = 0.
Proof.
  unfold init. cbn [with_Ponder Move_Overhead nodestime Ponder].
  destruct (nodes_as_time _ us tm limits) as [tm1 limits1].
  cbn [fst snd optimumTime maximumTime].
  intros Hexp Ht Hi Hm Hp Hover.
  pose proof (Cint.to_int_range (Move_Overhead opts)) as Hr.
  pose proof (remaining_bounds exp OptimumTime _ _ (Cint.to_int (Move_Overhead opts)) _ _
                Hexp Ht Hi Hm Hp) as Ho.
  pose proof (remaining_bounds exp MaxTime _ _ (Cint.to_int (Move_Overhead opts)) _ _
                Hexp Ht Hi Hm Hp) as Hx.
  rewrite left_after_overhead in Ho, Hx by lia.
  set (o := remaining exp OptimumTime _ _ _ _ _) in *.
  set (m := remaining exp MaxTime _ _ _ _ _) in *.
  assert (Eo : o = 0) by lia. assert (Em : m = 0) by lia.
  rewrite Eo, Em. destruct ponder; split; reflexivity.
Qed.

Lemma durations_zero_without_time_left_ponder :
  let result := fst (init exp_coarse {| Move_Overhead := 500; nodestime := 0; Ponder := true |}
                       (clock 400 100 0) WHITE 31 TimeManagement_new) in
  optimumTime result = 0 /\ maximumTime result = 0.
Proof.
  intros result.
  apply (durations_zero_without_time_left exp_coarse
           {| Move_Overhead := 500; nodestime := 0; Ponder := true |}
           (clock 400 100 0) WHITE 31 TimeManagement_new true exp_coarse_sign_clear);
    vm_compute; try split; congruence.
Defined.

End TimeMan.

(** ** Time management by the score ([timeman.cpp] as [unnamed/part_001] has it) *)

Module TimeManByScore.

Import PrimFloat SpecFloat FloatOps FloatAxioms.
Import Binary64.
Import TimeMan.

(** [std::min] on [int], as the library defines it. *)
Definition std_min_int (a b : Z) : Z := if b <? a then b else a.

Definition MaxRatio : float := 5.25%float.
Definition StealRatio : float := 0.076%float.

(** [remaining<T>(myTime, myInc, moveOverhead, movesToGo)]. *)
Definition remaining (T : TimeType) (myTime myInc moveOverhead movesToGo : Z) : Z :=
  let TMaxRatio := match T with OptimumTime => 1%float | MaxTime => MaxRatio end in
  let TStealRatio := match T with OptimumTime => 0.018%float | MaxTime => StealRatio end in
  let ratio1 :=
    std_min 1.0
      (TMaxRatio * of_int (Cint.to_int (myTime + Cint.to_int (myInc * (movesToGo - 1))))
       / of_int movesToGo)%float in
  let ratio2 :=
    std_min 1.0
      (TStealRatio * (1.0 + of_int (Cint.to_int (93 * myInc)) / of_int myTime))%float in
  let hypMyTime := std_max 0 (Cint.to_int (myTime - moveOverhead)) in
  to_int (of_int hypMyTime * std_min ratio1 ratio2)%float.

Section WithLog.

(** [log] of [<cmath>], which the C++ library provides. *)
Variable log : float -> float.

(** The horizon [init] computes from the score. *)
Definition MoveHorizon (pScore : Z) : Z :=
  if 0 <? pScore
  then std_max 1
         (Cint.to_int
            (49 - to_int (16.4 * log (1.0 + of_int (Cint.to_int (Z.abs pScore)) / 87.5))%float))
  else 49.

(** The number of moves [init] plans for. *)
Definition MaxMTG (movestogo pScore : Z) : Z :=
  if negb (movestogo =? 0) then std_min_int movestogo (MoveHorizon pScore)
  else MoveHorizon pScore.

(** [TimeManagement::init(limits, us, pScore)]. *)
Definition init (opts : Options) (limits : LimitsType) (us : Color) (pScore : Z)
    (tm : TimeManagement) : TimeManagement * LimitsType :=
  let moveOverhead := Cint.to_int (Move_Overhead opts) in
  let npms := Cint.to_int (nodestime opts) in
  let '(tm, limits) := nodes_as_time npms us tm limits in
  let mtg := MaxMTG (movestogo limits) pScore in
  let optimum := remaining OptimumTime (time limits us) (inc limits us) moveOverhead mtg in
  let maximum := remaining MaxTime (time limits us) (inc limits us) moveOverhead mtg in
  let optimum :=
    if Ponder opts then Cint.to_int (optimum + Cint.cdiv optimum 4) else optimum in
  ({| availableNodes := availableNodes tm; startTime := limits_startTime limits;
      optimumTime := optimum; maximumTime := maximum |}, limits).

End WithLog.

(** A coarse stand-in for [log], for the examples: zero up to one, one
    above. *)
Definition log_coarse (x : float) : float := if (1 <? x)%float then 1%float else 0%float.

(** *** The horizon *)

Lemma MoveHorizon_at_least_one log pScore : 1 <= MoveHorizon log pScore.
Proof.
  unfold MoveHorizon, std_max. destruct (0 <? pScore); [|lia].
  destruct (Z.ltb_spec 1 (Cint.to_int (49 - to_int (16.4 * log (1.0 + of_int (Cint.to_int (Z.abs pScore)) / 87.5))%float))); lia.
Qed.

(** X24. Whatever [log] answers, the number of moves planned for is at least
    one, so that the division by it in [remaining] is no division by zero,
    and it is at most the moves to go when those are given; without a
    positive score it is the moves to go, capped at 49. *)
Theorem MaxMTG_at_least_one log movestogo pScore :
  0 <= movestogo ->
  1 <= MaxMTG log movestogo pScore /\
  (movestogo <> 0 -> MaxMTG log movestogo pScore <= movestogo) /\
  (pScore <= 0 ->
   MaxMTG log movestogo pScore = if movestogo =? 0 then 49 else Z.min movestogo 49).
Proof.
  intros Hm. pose proof (MoveHorizon_at_least_one log pScore) as Hh.
  unfold MaxMTG, std_min_int.
  destruct (Z.eqb_spec movestogo 0) as [Hz|Hnz]; cbn [negb].
  - split; [exact Hh|]. split; [contradiction|].
    intros Hs. unfold MoveHorizon. destruct (Z.ltb_spec 0 pScore); [lia | reflexivity].
  - destruct (Z.ltb_spec (MoveHorizon log pScore) movestogo) as [Hlt|Hge].
    + split; [exact Hh|]. split; [lia|].
      intros Hs. unfold MoveHorizon in *. destruct (Z.ltb_spec 0 pScore); lia.
    + split; [lia|]. split; [lia|].
      intros Hs. unfold MoveHorizon in *. destruct (Z.ltb_spec 0 pScore); lia.
Qed.

Lemma MaxMTG_at_least_one_winning :
  1 <= MaxMTG log_coarse 30 250 /\ MaxMTG log_coarse 30 250 <= 30.
Proof.
  destruct (MaxMTG_at_least_one log_coarse 30 250) as (H1 & H2 & _); [lia|].
  split; [exact H1 | apply H2; discriminate].
Defined.

(** *** The maximum dominates the optimum, and both fit the time left *)

Lemma MaxMTG_range log movestogo pScore :
  0 <= movestogo <= Cint.INT_MAX -> 1 <= MaxMTG log movestogo pScore <= Cint.INT_MAX.
Proof.
  intros Hm.
  assert (Hh : 1 <= MoveHorizon log pScore <= Cint.INT_MAX).
  { split; [apply MoveHorizon_at_least_one|].
    unfold MoveHorizon, std_max. destruct (0 <? pScore); [|unfold Cint.INT_MAX; lia].
    match goal with |- context [Cint.to_int ?x] => pose proof (Cint.to_int_range x) as R end.
    destruct (1 <? _); [lia | unfold Cint.INT_MAX; lia]. }
  unfold MaxMTG, std_min_int. destruct (Z.eqb_spec movestogo 0); cbn [negb]; [exact Hh|].
  destruct (Z.ltb_spec (MoveHorizon log pScore) movestogo); lia.
Qed.

Lemma of_int_finpos z : 1 <= z <= Cint.INT_MAX -> finpos (of_int z).
Proof.
  intros Hz. destruct (of_int_exact z ltac:(lia)) as ([Zz|Fz] & Hv & Ht); [|exact Fz].
  rewrite (to_int_iszero _ Zz) in Ht. lia.
Qed.

Lemma remaining_Optimum_le_Max_le_left myTime myInc moveOverhead movesToGo :
  0 <= myTime <= Cint.INT_MAX -> 0 <= myInc -> 1 <= movesToGo <= Cint.INT_MAX ->
  myTime + myInc * (movesToGo - 1) <= Cint.INT_MAX -> 93 * myInc <= Cint.INT_MAX ->
  0 <= remaining OptimumTime myTime myInc moveOverhead movesToGo
    <= remaining MaxTime myTime myInc moveOverhead movesToGo /\
  remaining MaxTime myTime myInc moveOverhead movesToGo
    <= std_max 0 (Cint.to_int (myTime - moveOverhead)).
Proof.
  intros Ht Hi Hm Hsum H93. unfold remaining.
  assert (Hprod : 0 <= myInc * (movesToGo - 1)) by nia.
  assert (HI : Cint.INT_MAX = 2147483647) by reflexivity.
  rewrite (Cint.to_int_small (myInc * (movesToGo - 1))) by lia.
  rewrite (Cint.to_int_small (myTime + _)) by lia.
  rewrite (Cint.to_int_small (93 * myInc)) by lia.
  set (X := of_int (myTime + myInc * (movesToGo - 1))).
  assert (CX : clear X) by (apply of_int_clear_int; lia).
  pose proof (of_int_finpos movesToGo Hm) as Fd.
  set (F2 := (1.0 + of_int (93 * myInc) / of_int myTime)%float).
  assert (CF2 : clear F2).
  { apply add_clear; [exact I|]. apply div_clear; apply of_int_clear_int; lia. }
  destruct (std_min_one (1 * X / of_int movesToGo) (MaxRatio * X / of_int movesToGo))
    as [B1 L1].
  { apply div_clear_finpos; [apply mul_clear; [exact I | exact CX] | exact Fd]. }
  { apply below_or_huge_capped, div_below_or_huge_finpos; [|exact Fd].
    apply mul_below_or_huge; [|exact CX]. right; right.
    apply below_const; [finpos_const | finpos_const | reflexivity]. }
  destruct (std_min_one (0.018 * F2) (StealRatio * F2)) as [B2 L2].
  { apply mul_clear; [exact I | exact CF2]. }
  { apply below_or_huge_capped, mul_below_or_huge; [|exact CF2]. right; right.
    apply below_const; [finpos_const | finpos_const | reflexivity]. }
  destruct (std_min_below _ _ _ _ B1 B2) as [B Lmin].
  set (hypMyTime := std_max 0 (Cint.to_int (myTime - moveOverhead))).
  assert (Hh : 0 <= hypMyTime <= Cint.INT_MAX).
  { unfold hypMyTime, std_max. pose proof (Cint.to_int_range (myTime - moveOverhead)) as R.
    destruct (Z.ltb_spec 0 (Cint.to_int (myTime - moveOverhead))); lia. }
  destruct (of_int_bound hypMyTime Hh) as [Hz Hb].
  destruct (scale_below (of_int hypMyTime) _ _ Hz Hb B) as [Hs Hmax].
  { eapply Rle_trans_1; [exact Lmin | exact L1]. }
  split; [apply (to_int_below _ _ Hs Hmax)|].
  destruct B as (_ & Nm & _).
  apply to_int_share; [exact Hh | exact Nm |].
  eapply Rle_trans_1; [exact Lmin | exact L1].
Qed.

(** X25. Before the ponder inflation the maximum dominates the optimum, neither
    is negative and neither exceeds the time left after the move overhead,
    whatever [log] answers: for a clock the conversion to nodes leaves with
    a time, an increment and moves to go that are not negative, and sums
    that fit an [int]. *)
Theorem score_optimum_within_maximum log opts limits us pScore tm :
  let seen := snd (nodes_as_time (Cint.to_int (nodestime opts)) us tm limits) in
  let mtg := MaxMTG log (movestogo seen) pScore in
  let quiet := fst (init log (with_Ponder false opts) limits us pScore tm) in
  let left := std_max 0 (Cint.to_int (time seen us - Cint.to_int (Move_Overhead opts))) in
  0 <= time seen us <= Cint.INT_MAX ->
  0 <= inc seen us ->
  0 <= movestogo seen <= Cint.INT_MAX ->
  time seen us + inc seen us * (mtg - 1) <= Cint.INT_MAX ->
  93 * inc seen us <= Cint.INT_MAX ->
  0 <= optimumTime quiet <= maximumTime quiet /\ maximumTime quiet <= left.
Proof.
  unfold init. cbn [with_Ponder Move_Overhead nodestime Ponder].
  destruct (nodes_as_time _ us tm limits) as [tm1 limits1].
  cbn [fst snd optimumTime maximumTime].
  intros Ht Hi Hm Hsum H93.
  apply remaining_Optimum_le_Max_le_left; try assumption.
  apply MaxMTG_range. exact Hm.
Qed.

Lemma score_optimum_within_maximum_one_minute :
  let quiet := fst (init log_coarse {| Move_Overhead := 30; nodestime := 0; Ponder := false |}
                      (clock 60000 1000 0) WHITE 120 TimeManagement_new) in
  0 <= optimumTime quiet <= maximumTime quiet /\ maximumTime quiet <= 59970.
Proof.
  intros quiet.
  apply (score_optimum_within_maximum log_coarse
           {| Move_Overhead := 30; nodestime := 0; Ponder := false |}
           (clock 60000 1000 0) WHITE 120 TimeManagement_new);
    vm_compute; try split; congruence.
Defined.

End TimeManByScore.
